(** * movieDB: a CSV-to-SQLite loader (Go), verified over a shallow embedding

    The development follows [main.go] (the version with batched inserts and
    the two reporting queries):

    - [validateHeaders]                         the header check;
    - [populateMovies], [populateMoviesGenres]  the two batched loaders;
    - [queryDbHighestRatedGenres]               the first reporting query;
    - [queryDbMovieCountPerGenre]               the second reporting query;
    - [newSchema], [main]                       the program around them;
    - [populateMovies] of the first version     the loader without batches.

    Go strings are [string]; a [[]string] is a [list string]; an [error]
    is an [option GoError] whose [None] is Go's [nil]. *)

From Stdlib Require Import List String Ascii Arith PeanoNat Bool Lia.
From Stdlib Require Import ZArith QArith DecimalString.
From Stdlib Require Import Sorting.Sorted Sorting.Permutation.
Import ListNotations.

Local Open Scope string_scope.
Local Open Scope list_scope.
Local Open Scope nat_scope.

(* ################################################################## *)
(** * Part I: the program *)

(* ================================================================== *)
(** ** Go's [strings] package, as far as [main.go] uses it *)

Module Strings.

(** [strings.Join(elems, sep)]: the elements, with [sep] between each two. *)
Fixpoint Join (elems : list string) (sep : string) : string :=
  match elems with
  | [] => ""
  | [e] => e
  | e :: rest => (e ++ sep ++ Join rest sep)%string
  end.

(** [bytes.IndexByte(s, c)]: the index of the first [c] in [s]. *)
Fixpoint IndexByte (s : string) (c : ascii) : option nat :=
  match s with
  | EmptyString => None
  | String a s' =>
      if Ascii.eqb a c then Some 0
      else match IndexByte s' c with
           | Some i => Some (S i)
           | None => None
           end
  end.

(** [s[:n]] *)
Fixpoint take (n : nat) (s : string) : string :=
  match n, s with
  | S n', String a s' => String a (take n' s')
  | _, _ => ""
  end.

(** [s[n:]] *)
Fixpoint drop (n : nat) (s : string) : string :=
  match n, s with
  | S n', String _ s' => drop n' s'
  | _, _ => s
  end.

Definition contains (s : string) (c : ascii) : bool :=
  match IndexByte s c with Some _ => true | None => false end.

(** the last byte of [s], if any *)
Fixpoint lastByte (s : string) : option ascii :=
  match s with
  | EmptyString => None
  | String a EmptyString => Some a
  | String _ s' => lastByte s'
  end.

End Strings.
Import Strings.

(* ================================================================== *)
(** ** [validateHeaders] (main.go, lines 174-187) *)

Definition validateHeaders (tableName : string) (headers : list string) : bool :=
  match
    (if String.eqb tableName "movies" then
       Some ["id"; "name"; "year"; "rank"]
     else if String.eqb tableName "movies_genres" then
       Some ["movie_id"; "genre"]
     else None)
  with
  | Some expectedHeaders =>
      String.eqb (Join headers ",") (Join expectedHeaders ",")
  | None => false
  end.

(* ================================================================== *)
(** ** Errors *)

(** The error values the program meets.  Go's [error] is an interface whose
    zero value is [nil]; here it is an [option]. *)
Inductive ParseError : Type :=
| ErrBareQuote                 (* csv.ErrBareQuote: bare quote in an unquoted field *)
| ErrQuote                     (* csv.ErrQuote: stray quote in a quoted field *)
| ErrFieldCount.               (* csv.ErrFieldCount: wrong number of fields *)

Inductive GoError : Type :=
| EOF                          (* io.EOF *)
| CsvError (k : ParseError)    (* a *csv.ParseError *)
| ErrOpen (msg : string)       (* os.Open failed *)
| ErrSQL (msg : string).       (* an error of database/sql or of the engine *)

Definition error : Type := option GoError.

(** What one call of [Read] gives the loaders before the end of the file:
    a record, or a decode error for the row. *)
Inductive ReadResult : Type :=
| Rec (record : list string)
| Bad (k : ParseError).

(* ================================================================== *)
(** ** The record reader: Go's [encoding/csv]

    Modelled from the spec: the Tolerant Record Reader of section 4.2 is
    Go's [csv.Reader], a package that is not part of this repository;
    [main.go] only creates it ([csv.NewReader]), sets [LazyQuotes = true]
    and calls [Read].  Where the spec leaves open how a line is cut into
    fields, the definitions follow that package's documented record
    grammar and its [readRecord] loop, for the configuration the program
    uses: [Comma = ','], no [Comment], no [TrimLeadingSpace],
    [FieldsPerRecord = 0] (the first record fixes the field count).  The
    underlying file is taken to be read without I/O errors, so the only
    error of a line read is [io.EOF].  The reader's [recordBuffer] and
    [fieldIndexes] appear as the list of finished fields and the field
    being built. *)

Module Csv.

Definition nl : ascii := "010"%char.
Definition cr : ascii := "013"%char.
Definition dquote : ascii := "034"%char.
Definition comma : ascii := ","%char.

Record Reader : Type := mkReader {
  input : string;            (* what is left of the file *)
  LazyQuotes : bool;
  FieldsPerRecord : nat      (* 0 until the first record is read *)
}.

(** [csv.NewReader(f)] *)
Definition NewReader (file : string) : Reader :=
  {| input := file; LazyQuotes := false; FieldsPerRecord := 0 |}.

Definition setLazyQuotes (r : Reader) (b : bool) : Reader :=
  {| input := input r; LazyQuotes := b; FieldsPerRecord := FieldsPerRecord r |}.

(** [bufio.Reader.ReadSlice('\n')]: the bytes up to and including the first
    newline, what follows, and whether a newline was found (when not, the
    error is [io.EOF]). *)
Fixpoint ReadSlice (s : string) : string * string * bool :=
  match s with
  | EmptyString => ("", "", false)
  | String a s' =>
      if Ascii.eqb a nl then (String a "", s', true)
      else let '(l, r, f) := ReadSlice s' in (String a l, r, f)
  end.

(** [lengthNL]: 1 when the line ends in a newline, else 0. *)
Definition lengthNL (b : string) : nat :=
  match lastByte b with
  | Some c => if Ascii.eqb c nl then 1 else 0
  | None => 0
  end.

(** "drop trailing \r before EOF" *)
Definition dropCRatEOF (line : string) : string :=
  match lastByte line with
  | Some c => if Ascii.eqb c cr then take (length line - 1) line else line
  | None => line
  end.

(** "Normalize \r\n to \n on all input lines." *)
Definition normalizeCRLF (line : string) : string :=
  let n := length line in
  if (2 <=? n)
     && (match get (n - 2) line with Some c => Ascii.eqb c cr | None => false end)
     && (match get (n - 1) line with Some c => Ascii.eqb c nl | None => false end)
  then (take (n - 2) line ++ String nl "")%string
  else line.

(** [Reader.readLine]: the next line with its newline, [io.EOF] when
    nothing is left. Returns the line, the error and the rest of the file. *)
Definition readLine (inp : string) : string * error * string :=
  let '(line, rest, found) := ReadSlice inp in
  if found then (normalizeCRLF line, None, rest)
  else if 0 <? length line then (normalizeCRLF (dropCRatEOF line), None, rest)
  else ("", Some EOF, rest).

Definition startsWithQuote (line : string) : bool :=
  match line with
  | String c _ => Ascii.eqb c dquote
  | EmptyString => false
  end.

(** The [parseField] loop of [readRecord] and, inside it, the loop over a
    quoted field.  The result is the record, the parse error and what is
    left of the file; [None] only when [fuel] runs out. *)
Fixpoint parseField (fuel : nat) (lazy : bool) (line rest : string)
         (fields : list string) {struct fuel}
  : option (list string * error * string) :=
  match fuel with
  | 0 => None
  | S fuel' =>
      if negb (startsWithQuote line) then
        (* Non-quoted string field *)
        match IndexByte line comma with
        | Some i =>
            let field := take i line in
            if negb lazy && contains field dquote
            then Some (fields, Some (CsvError ErrBareQuote), rest)
            else parseField fuel' lazy (drop (i + 1) line) rest
                            (fields ++ [field])
        | None =>
            let field := take (length line - lengthNL line) line in
            if negb lazy && contains field dquote
            then Some (fields, Some (CsvError ErrBareQuote), rest)
            else Some (fields ++ [field], None, rest)
        end
      else
        (* Quoted string field *)
        quotedField fuel' lazy (drop 1 line) rest fields ""
  end

with quotedField (fuel : nat) (lazy : bool) (line rest : string)
         (fields : list string) (cur : string) {struct fuel}
  : option (list string * error * string) :=
  match fuel with
  | 0 => None
  | S fuel' =>
      match IndexByte line dquote with
      | Some i =>
          (* Hit next quote. *)
          let cur := (cur ++ take i line)%string in
          let line := drop (i + 1) line in
          match line with
          | String c line' =>
              if Ascii.eqb c dquote then
                (* a doubled quote: append one quote *)
                quotedField fuel' lazy line' rest fields
                            (cur ++ String dquote "")%string
              else if Ascii.eqb c comma then
                (* quote, comma: end of field *)
                parseField fuel' lazy line' rest (fields ++ [cur])
              else if lengthNL line =? length line then
                (* quote, newline: end of line *)
                Some (fields ++ [cur], None, rest)
              else if lazy then
                (* bare quote *)
                quotedField fuel' lazy line rest fields
                            (cur ++ String dquote "")%string
              else Some (fields, Some (CsvError ErrQuote), rest)
          | EmptyString =>
              (* lengthNL(line) == len(line): end of line *)
              Some (fields ++ [cur], None, rest)
          end
      | None =>
          if 0 <? length line then
            (* Hit end of line (copy all data so far). *)
            let '(line', _, rest') := readLine rest in
            quotedField fuel' lazy line' rest' fields (cur ++ line)%string
          else
            (* Abrupt end of file. *)
            if negb lazy then Some (fields, Some (CsvError ErrQuote), rest)
            else Some (fields ++ [cur], None, rest)
      end
  end.

(** The first loop of [readRecord]: read a line, skipping empty ones. *)
Fixpoint nextLine (fuel : nat) (inp : string)
  : option (string * error * string) :=
  match fuel with
  | 0 => None
  | S fuel' =>
      let '(line, errRead, rest) := readLine inp in
      match errRead with
      | None =>
          if length line =? lengthNL line then nextLine fuel' rest
          else Some (line, None, rest)
      | Some e => Some (line, Some e, rest)
      end
  end.

(** [Reader.readRecord] *)
Definition readRecord (fuel : nat) (r : Reader)
  : option (list string * error * Reader) :=
  match nextLine fuel (input r) with
  | None => None
  | Some (line, Some e, rest) =>
      (* errRead == io.EOF *)
      Some ([], Some e, mkReader rest (LazyQuotes r) (FieldsPerRecord r))
  | Some (line, None, rest) =>
      match parseField fuel (LazyQuotes r) line rest [] with
      | None => None
      | Some (dst, err, rest') =>
          (* Check or update the expected fields per record. *)
          if 0 <? FieldsPerRecord r then
            let err' :=
              match err with
              | None =>
                  if negb (List.length dst =? FieldsPerRecord r)
                  then Some (CsvError ErrFieldCount) else None
              | Some e => Some e
              end in
            Some (dst, err', mkReader rest' (LazyQuotes r) (FieldsPerRecord r))
          else
            Some (dst, err, mkReader rest' (LazyQuotes r) (List.length dst))
      end
  end.

(** Enough fuel for one record: every step of the loops above uses up at
    least one byte of the file. *)
Definition fuelFor (r : Reader) : nat := 2 + length (input r).

(** [Reader.Read] *)
Definition Read (r : Reader) : list string * error * Reader :=
  match readRecord (fuelFor r) r with
  | Some res => res
  | None => ([], Some EOF, r)
  end.

(** The results of the successive calls of [Read], up to [io.EOF]. *)
Fixpoint recordsFrom (fuel : nat) (r : Reader) : list ReadResult :=
  match fuel with
  | 0 => []
  | S fuel' =>
      let '(record, err, r') := Read r in
      match err with
      | None => Rec record :: recordsFrom fuel' r'
      | Some (CsvError k) => Bad k :: recordsFrom fuel' r'
      | Some _ => []
      end
  end.

Definition records (r : Reader) : list ReadResult :=
  recordsFrom (S (length (input r))) r.

End Csv.

(* ================================================================== *)
(** ** The storage engine behind [database/sql]

    The engine is outside the repository; the loaders use four of its
    operations: [db.Begin], [tx.Exec], [tx.Commit] and [tx.Rollback].  A
    database holds the committed rows of the two tables; a transaction
    holds the rows inserted so far, which reach the tables only when the
    commit succeeds.  Which calls the engine rejects (a constraint, a
    type mismatch, a storage fault) is left to an [Engine], so that every
    result below holds for whatever the engine decides. *)

Module Sql.

Definition Row : Type := list string.

Inductive TableId : Type := Movies | MoviesGenres.

Record DB : Type := mkDB {
  movies : list Row;
  movies_genres : list Row
}.

Definition tableOf (t : TableId) (db : DB) : list Row :=
  match t with Movies => movies db | MoviesGenres => movies_genres db end.

Definition columns (t : TableId) : nat :=
  match t with Movies => 4 | MoviesGenres => 2 end.

Inductive TxStatus : Type :=
| TxOpen | TxCommitted | TxCommitFailed | TxRolledBack.

Record Tx : Type := mkTx {
  status : TxStatus;
  target : TableId;          (* the table the statements insert into *)
  pending : list Row         (* rows inserted and not yet committed *)
}.

Record Engine : Type := mkEngine {
  begin_err : DB -> error;
  exec_err : DB -> list Row -> string -> list string -> error;
  commit_err : DB -> list Row -> error
}.

(** The rows of a multi-row [INSERT]: the bound values, [ncols] at a time. *)
Fixpoint rowsFrom (ncols : nat) (cur : Row) (vals : list string) : list Row :=
  match vals with
  | [] => match cur with [] => [] | _ => [cur] end
  | v :: vs =>
      let cur' := cur ++ [v] in
      if List.length cur' =? ncols then cur' :: rowsFrom ncols [] vs
      else rowsFrom ncols cur' vs
  end.

Definition rows (ncols : nat) (vals : list string) : list Row :=
  rowsFrom ncols [] vals.

Definition ErrTxDone : GoError :=
  ErrSQL "sql: transaction has already been committed or rolled back".

(** [db.Begin()] *)
Definition Begin (eng : Engine) (t : TableId) (db : DB) : Tx * error :=
  match begin_err eng db with
  | Some e => (mkTx TxRolledBack t [], Some e)
  | None => (mkTx TxOpen t [], None)
  end.

(** [tx.Exec(stmt, values...)] for an [INSERT] into the transaction's
    table: a rejected statement inserts nothing. *)
Definition Exec (eng : Engine) (db : DB) (tx : Tx)
           (stmt : string) (values : list string) : Tx * error :=
  match status tx with
  | TxOpen =>
      match exec_err eng db (pending tx) stmt values with
      | Some e => (tx, Some e)
      | None =>
          (mkTx TxOpen (target tx)
                (pending tx ++ rows (columns (target tx)) values), None)
      end
  | _ => (tx, Some ErrTxDone)
  end.

Definition addRows (t : TableId) (rs : list Row) (db : DB) : DB :=
  match t with
  | Movies => mkDB (movies db ++ rs) (movies_genres db)
  | MoviesGenres => mkDB (movies db) (movies_genres db ++ rs)
  end.

(** [tx.Commit()]: only a commit that succeeds changes the tables. *)
Definition Commit (eng : Engine) (db : DB) (tx : Tx) : DB * Tx * error :=
  match status tx with
  | TxOpen =>
      match commit_err eng db (pending tx) with
      | Some e => (db, mkTx TxCommitFailed (target tx) [], Some e)
      | None =>
          (addRows (target tx) (pending tx) db,
           mkTx TxCommitted (target tx) [], None)
      end
  | _ => (db, tx, Some ErrTxDone)
  end.

(** [tx.Rollback()] *)
Definition Rollback (tx : Tx) : Tx :=
  match status tx with
  | TxOpen => mkTx TxRolledBack (target tx) []
  | _ => tx
  end.

End Sql.
Import Sql.

(* ================================================================== *)
(** ** The loaders: [populateMovies] and [populateMoviesGenres]
       (main.go, lines 224-323 and 326-425)

    The two functions are the same text up to the table name, the
    statement, and the fields taken from a record; [Loader] holds what
    differs and [populate] is the shared body. *)

Inductive ExecSite : Type :=
| FullBatch          (* the Exec inside the loop, at [validRowCount == batchSize] *)
| Remainder.         (* the Exec after the loop, at [len(values) > 0] *)

(** What a run does that can be seen from outside, in order. *)
Inductive Event : Type :=
| EvBegin
| EvSkip (rowNumber : nat) (k : ParseError)  (* "Skipping problematic row %d" *)
| EvExec (site : ExecSite) (stmt : string) (values : list string) (err : error)
| EvCommit (err : error)
| EvRollback
| EvTotal (n : nat).                         (* "Total ... inserted: %d" *)

(** How a call ends: with its [error] result, or in a run-time panic. *)
Inductive Return : Type :=
| Returned (err : error)
| Panicked.

Record Outcome : Type := mkOutcome {
  ret : Return;
  db_after : DB;
  tx_after : option Tx;
  trace : list Event
}.

Record Loader : Type := mkLoader {
  l_table : TableId;
  l_name : string;                    (* the argument of validateHeaders *)
  l_insert : string;                  (* "INSERT INTO ... VALUES" *)
  l_group : string;                   (* "(?, ...)," *)
  l_pick : list string -> option (list string)  (* record[0], record[1], ... *)
}.

Definition batchSize : nat := 100.

(** The local variables of the loop.  The counters are Go [int]s; they
    never exceed the number of records read, so they are kept as [nat]. *)
Record Vars : Type := mkVars {
  values : list string;
  insertStmt : string;
  validRowCount : nat;
  totalMovies : nat;
  rowNumber : nat
}.

Record LoopState : Type := mkLoop {
  vars : Vars;
  tx : Tx;
  log : list Event
}.

Inductive LoopExit : Type :=
| Break (st : LoopState)                    (* io.EOF *)
| ReturnErr (e : GoError) (st : LoopState)  (* return err *)
| Panic (st : LoopState).                   (* index out of range *)

(** [insertStmt[:len(insertStmt)-1]] *)
Definition dropLast (s : string) : string := take (length s - 1) s.

Section Populate.

Variable L : Loader.
Variable eng : Engine.
Variable db : DB.

(** The [for] loop over the data rows (lines 271-302).  Each iteration
    starts with a call of [Read]; the list holds what the calls return. *)
Fixpoint loop (stream : list ReadResult) (st : LoopState) : LoopExit :=
  match stream with
  | [] =>
      (* err == io.EOF *)
      Break st
  | Bad k :: stream' =>
      (* skip the row *)
      let v := vars st in
      loop stream'
           (mkLoop (mkVars (values v) (insertStmt v) (validRowCount v)
                           (totalMovies v) (rowNumber v + 1))
                   (tx st)
                   (log st ++ [EvSkip (rowNumber v) k]))
  | Rec record :: stream' =>
      let v := vars st in
      match l_pick L record with
      | None => Panic st
      | Some fields =>
          let values' := values v ++ fields in
          let insertStmt' := (insertStmt v ++ l_group L)%string in
          let validRowCount' := validRowCount v + 1 in
          if validRowCount' =? batchSize then
            let '(tx', err) :=
              Exec eng db (tx st) (dropLast insertStmt') values' in
            let log' :=
              log st ++ [EvExec FullBatch (dropLast insertStmt') values' err] in
            match err with
            | Some e =>
                ReturnErr e
                  (mkLoop (mkVars values' insertStmt' validRowCount'
                                  (totalMovies v) (rowNumber v))
                          tx' log')
            | None =>
                loop stream'
                     (mkLoop (mkVars [] (l_insert L) 0
                                     (totalMovies v + 100) (rowNumber v + 1))
                             tx' log')
            end
          else
            loop stream'
                 (mkLoop (mkVars values' insertStmt' validRowCount'
                                 (totalMovies v) (rowNumber v + 1))
                         (tx st) (log st))
      end
  end.

(** After the loop (lines 304-322): the remaining rows, then the commit. *)
Definition finish (st : LoopState) : Outcome :=
  let v := vars st in
  let afterRemainder : LoopState + (GoError * LoopState) :=
    if 0 <? List.length (values v) then
      let '(tx', err) :=
        Exec eng db (tx st) (dropLast (insertStmt v)) (values v) in
      let log' :=
        log st ++ [EvExec Remainder (dropLast (insertStmt v)) (values v) err] in
      match err with
      | Some e => inr (e, mkLoop v tx' log')
      | None =>
          inl (mkLoop (mkVars (values v) (insertStmt v) (validRowCount v)
                              (totalMovies v
                               + List.length (values v) / columns (l_table L))
                              (rowNumber v))
                      tx' log')
      end
    else inl st in
  match afterRemainder with
  | inr (e, st') =>
      mkOutcome (Returned (Some e)) db (Some (tx st')) (log st')
  | inl st' =>
      let '(db', tx', err) := Commit eng db (tx st') in
      match err with
      | Some e =>
          mkOutcome (Returned (Some e)) db' (Some tx')
                    (log st' ++ [EvCommit (Some e)])
      | None =>
          mkOutcome (Returned None) db' (Some tx')
                    (log st' ++ [EvCommit None;
                                 EvTotal (totalMovies (vars st'))])
      end
  end.

(** The deferred closure (lines 256-260).  Its [err] is the variable of
    the function's own scope, last assigned by [db.Begin]; the [err]s of
    the loop, of the two [Exec]s and of the commit are new variables of
    inner blocks, declared with [:=], and the function's result is not
    a named one. *)
Definition deferred (err : error) (o : Outcome) : Outcome :=
  match err with
  | Some _ =>
      mkOutcome (ret o) (db_after o) (option_map Rollback (tx_after o))
                (trace o ++ [EvRollback])
  | None => o
  end.

(** The function, from the opened file on.  [file] is the result of
    [os.Open]: an error, or the reader's results on the file. *)
Definition populate (file : GoError + list ReadResult) : Outcome :=
  match file with
  | inl e =>
      (* Error opening CSV file *)
      mkOutcome (Returned (Some e)) db None []
  | inr stream =>
      (* header, err := reader.Read() *)
      let '(header, err, stream') :=
        match stream with
        | [] => ([], Some EOF, [])
        | Bad k :: s => ([], Some (CsvError k), s)
        | Rec h :: s => (h, None, s)
        end in
      match err with
      | Some _ =>
          (* Error reading CSV header *)
          mkOutcome (Returned err) db None []
      | None =>
          if negb (validateHeaders (l_name L) header) then
            (* Unexpected CSV headers: return err *)
            mkOutcome (Returned err) db None []
          else
            (* tx, err := db.Begin() *)
            let '(tx0, err) := Begin eng (l_table L) db in
            match err with
            | Some _ =>
                (* Error starting transaction *)
                mkOutcome (Returned err) db None []
            | None =>
                let st0 :=
                  mkLoop (mkVars [] (l_insert L) 0 0 1) tx0 [EvBegin] in
                deferred err
                  match loop stream' st0 with
                  | Panic st => mkOutcome Panicked db (Some (tx st)) (log st)
                  | ReturnErr e st =>
                      mkOutcome (Returned (Some e)) db (Some (tx st)) (log st)
                  | Break st => finish st
                  end
            end
      end
  end.

End Populate.

Definition moviesLoader : Loader :=
  {| l_table := Movies;
     l_name := "movies";
     l_insert := "INSERT INTO movies (id, name, year, rank) VALUES";
     l_group := "(?, ?, ?, ?),";
     l_pick := fun moviesRecord =>
       match nth_error moviesRecord 0, nth_error moviesRecord 1,
             nth_error moviesRecord 2, nth_error moviesRecord 3 with
       | Some a, Some b, Some c, Some d => Some [a; b; c; d]
       | _, _, _, _ => None
       end |}.

Definition moviesGenresLoader : Loader :=
  {| l_table := MoviesGenres;
     l_name := "movies_genres";
     l_insert := "INSERT INTO movies_genres (movie_id, genre) VALUES";
     l_group := "(?, ?),";
     l_pick := fun moviesRecord =>
       match nth_error moviesRecord 0, nth_error moviesRecord 1 with
       | Some a, Some b => Some [a; b]
       | _, _ => None
       end |}.

(** [os.Open] followed by [csv.NewReader] with [LazyQuotes = true]. *)
Definition openCSV (file : GoError + string) : GoError + list ReadResult :=
  match file with
  | inl e => inl e
  | inr content =>
      inr (Csv.records (Csv.setLazyQuotes (Csv.NewReader content) true))
  end.

Definition populateMovies (eng : Engine) (db : DB) (file : GoError + string)
  : Outcome :=
  populate moviesLoader eng db (openCSV file).

Definition populateMoviesGenres (eng : Engine) (db : DB)
           (file : GoError + string) : Outcome :=
  populate moviesGenresLoader eng db (openCSV file).

(* ================================================================== *)
(** ** The first reporting query: [queryDbHighestRatedGenres]
       (main.go, lines 427-487)

    The query runs on the tables as the engine stores them: ids and
    years as integers, a rating ([rank], of REAL affinity) as NULL, a
    number, or a text that is not a number (the files write a missing
    rating as the text NULL).  Averages are kept as exact rationals, and
    rows with the same average stay in the order in which their groups
    were met. *)

Module Query.

Inductive Value : Type :=
| VNull
| VReal (q : Q)
| VText (s : string).

Record Movie : Type := mkMovie {
  m_id : Z;
  m_name : string;
  m_year : Z;
  m_rank : Value
}.

Record MovieGenre : Type := mkMovieGenre {
  mg_movie_id : Z;
  mg_genre : string
}.

Record Tables : Type := mkTables {
  t_movies : list Movie;
  t_movies_genres : list MovieGenre
}.

(** FROM movies_genres mg JOIN movies m ON mg.movie_id = m.id *)
Definition joined (db : Tables) : list (MovieGenre * Movie) :=
  flat_map
    (fun mg =>
       map (fun m => (mg, m))
           (filter (fun m => Z.eqb (mg_movie_id mg) (m_id m)) (t_movies db)))
    (t_movies_genres db).

(** WHERE m.rank IS NOT NULL AND m.rank != 'NULL' *)
Definition rated (v : Value) : bool :=
  match v with
  | VNull => false
  | VReal _ => true
  | VText s => negb (String.eqb s "NULL")
  end.

(** The number a rating counts as in AVG: a text that is not a number
    counts as 0. *)
Definition numeric (v : Value) : Q :=
  match v with
  | VReal q => q
  | _ => 0%Q
  end.

Definition valueEqb (a b : Value) : bool :=
  match a, b with
  | VNull, VNull => true
  | VReal p, VReal q => Qeq_bool p q
  | VText s, VText t => String.eqb s t
  | _, _ => false
  end.

(** GROUP BY: the rows of each key, keys in the order of their first row. *)
Fixpoint addToGroup {K A : Type} (eqb : K -> K -> bool) (k : K) (a : A)
         (gs : list (K * list A)) : list (K * list A) :=
  match gs with
  | [] => [(k, [a])]
  | (k', l) :: gs' =>
      if eqb k k' then (k', l ++ [a]) :: gs'
      else (k', l) :: addToGroup eqb k a gs'
  end.

Definition groupBy {K A : Type} (eqb : K -> K -> bool) (key : A -> K)
           (l : list A) : list (K * list A) :=
  fold_left (fun gs a => addToGroup eqb (key a) a gs) l [].

(** AVG(m.rank) and COUNT(m.id) over the rows of a group *)
Definition AVG (rows : list (MovieGenre * Movie)) : Q :=
  Qred (Qdiv (fold_right Qplus 0%Q (map (fun x => numeric (m_rank (snd x))) rows))
             (inject_Z (Z.of_nat (List.length rows)))).

Definition COUNT (rows : list (MovieGenre * Movie)) : nat := List.length rows.

Definition ResultRow : Type := (string * Q * nat)%type.

(** ORDER BY avg_rank DESC *)
Fixpoint insertDesc (r : ResultRow) (l : list ResultRow) : list ResultRow :=
  match l with
  | [] => [r]
  | r' :: l' =>
      if Qle_bool (snd (fst r)) (snd (fst r')) then r' :: insertDesc r l'
      else r :: l
  end.

Definition orderByAvgDesc (l : list ResultRow) : list ResultRow :=
  fold_left (fun acc r => insertDesc r acc) l [].

(** The rows of the query of the source: GROUP BY mg.genre, m.rank *)
Definition highestRatedGenresRows (db : Tables) : list ResultRow :=
  let kept := filter (fun x => rated (m_rank (snd x))) (joined db) in
  let groups :=
    groupBy (fun a b => String.eqb (fst a) (fst b) && valueEqb (snd a) (snd b))
            (fun x => (mg_genre (fst x), m_rank (snd x))) kept in
  firstn 20
    (orderByAvgDesc
       (map (fun g => (fst (fst g), AVG (snd g), COUNT (snd g))) groups)).

(** [queryDbHighestRatedGenres]: the rows it prints and its result. *)
Definition queryDbHighestRatedGenres (db : Tables) : list ResultRow * error :=
  (highestRatedGenresRows db, None).

(** The query as the spec words it: average rating and count per genre. *)
Definition perGenreRows (db : Tables) : list ResultRow :=
  let kept := filter (fun x => rated (m_rank (snd x))) (joined db) in
  let groups := groupBy String.eqb (fun x => mg_genre (fst x)) kept in
  firstn 20
    (orderByAvgDesc
       (map (fun g => (fst g, AVG (snd g), COUNT (snd g))) groups)).

(** Two dramas, rated 5 and 7, and a comedy without a rating. *)
Definition sample : Tables :=
  {| t_movies :=
       [mkMovie 1 "A" 2000 (VReal (5 # 1));
        mkMovie 2 "B" 2001 (VReal (7 # 1));
        mkMovie 3 "C" 2002 (VText "NULL")];
     t_movies_genres :=
       [mkMovieGenre 1 "Drama"; mkMovieGenre 2 "Drama";
        mkMovieGenre 3 "Comedy"] |}.

End Query.

(* ================================================================== *)
(** ** The first version of [populateMovies] (main.go, lines 75-121)

    The first version of the file has no transaction and no batches: it
    reads with a strict reader and inserts each record with its own
    [db.Exec].  It lives in the module [V1] under the names of the
    source. *)

(** An error value of the program's own making, or one handed on. *)
Inductive Failure : Type :=
| Passed (e : GoError)                    (* return err *)
| Errorf (format : string) (args : list GoError).
                                         (* fmt.Errorf(format, args...) *)

(** How a call ends: with its [error] result, or in a run-time panic. *)
Inductive Ended : Type :=
| Ends (err : option Failure)
| Panics.

Module V1.

(** [db.Exec(stmt, values...)] on the database itself, for an [INSERT]
    into [t]: the statement is its own transaction, so the rows of an
    accepted insert are in the table when the call returns. *)
Definition dbExec (eng : Engine) (t : TableId) (db : DB)
           (stmt : string) (values : list string) : DB * error :=
  match exec_err eng db [] stmt values with
  | Some e => (db, Some e)
  | None => (addRows t (rows (columns t) values) db, None)
  end.

Inductive Event : Type :=
| EvSkip (rowNumber : nat) (k : ParseError)
    (* "Skipping problematic row %d" *)
| EvInserting (rowNumber : nat) (record : list string)
    (* "Inserting row %d: %v" *)
| EvExec (stmt : string) (values : list string) (err : error).

Record Outcome : Type := mkOutcome {
  ret : Ended;
  db_after : DB;
  trace : list Event
}.

Definition insertStmt : string :=
  "INSERT INTO movies (id, name, year, rank) VALUES (?, ?, ?, ?)".

(** The [for] loop (lines 99-117).  [rowNumber] is the value on entry
    of the iteration; the first statement of the body adds one to it. *)
Fixpoint loop (eng : Engine) (stream : list ReadResult) (rowNumber : nat)
         (db : DB) (log : list Event) : Outcome :=
  match stream with
  | [] =>
      (* err == io.EOF: break, then return nil *)
      mkOutcome (Ends None) db log
  | Bad k :: stream' =>
      loop eng stream' (rowNumber + 1) db
           (log ++ [EvSkip (rowNumber + 1) k])
  | Rec moviesRecord :: stream' =>
      let log1 := log ++ [EvInserting (rowNumber + 1) moviesRecord] in
      match nth_error moviesRecord 0, nth_error moviesRecord 1,
            nth_error moviesRecord 2, nth_error moviesRecord 3 with
      | Some a, Some b, Some c, Some d =>
          let '(db', err) := dbExec eng Movies db insertStmt [a; b; c; d] in
          let log2 := log1 ++ [EvExec insertStmt [a; b; c; d] err] in
          match err with
          | Some e => mkOutcome (Ends (Some (Passed e))) db' log2
          | None => loop eng stream' (rowNumber + 1) db' log2
          end
      | _, _, _, _ => mkOutcome Panics db log1
      end
  end.

(** [populateMovies] of the first version (lines 75-121), from the
    opened file on. *)
Definition populate (eng : Engine) (db : DB)
           (file : GoError + list ReadResult) : Outcome :=
  match file with
  | inl e => mkOutcome (Ends (Some (Passed e))) db []
  | inr [] => mkOutcome (Ends (Some (Passed EOF))) db []
  | inr (Bad k :: _) => mkOutcome (Ends (Some (Passed (CsvError k)))) db []
  | inr (Rec moviesHeader :: stream) =>
      if negb (validateHeaders "movies" moviesHeader) then
        mkOutcome (Ends (Some (Errorf "unexpected CSV headers" []))) db []
      else loop eng stream 1 db []
  end.

(** [os.Open] followed by [csv.NewReader]: the reader is a strict one. *)
Definition openCSV (file : GoError + string) : GoError + list ReadResult :=
  match file with
  | inl e => inl e
  | inr content => inr (Csv.records (Csv.NewReader content))
  end.

Definition populateMovies (eng : Engine) (db : DB) (file : GoError + string)
  : Outcome :=
  populate eng db (openCSV file).

End V1.

(* ================================================================== *)
(** ** The second reporting query: [queryDbMovieCountPerGenre]
       (main.go, lines 489-508)

    The query counts the joined rows of each genre and keeps the 20
    largest counts.  Rows with the same count stay in the order in which
    their genres were met. *)

Module Query2.

Import Query.

Definition CountRow : Type := (string * nat)%type.

(** ORDER BY movie_count DESC *)
Fixpoint insertDesc (r : CountRow) (l : list CountRow) : list CountRow :=
  match l with
  | [] => [r]
  | r' :: l' =>
      if snd r <=? snd r' then r' :: insertDesc r l'
      else r :: l
  end.

Definition orderByCountDesc (l : list CountRow) : list CountRow :=
  fold_left (fun acc r => insertDesc r acc) l [].

(** The rows of the query: GROUP BY mg.genre, COUNT(m.id), LIMIT 20 *)
Definition movieCountPerGenreRows (db : Tables) : list CountRow :=
  let groups := groupBy String.eqb (fun x => mg_genre (fst x)) (joined db) in
  firstn 20
    (orderByCountDesc (map (fun g => (fst g, COUNT (snd g))) groups)).

End Query2.
(* ================================================================== *)
(** ** Printing the query results (main.go, lines 447-487 and 509-545)

    Around its query each reporting function runs the same Go code:
    [db.Query], a loop of [rows.Next] and [rows.Scan], and [rows.Err].
    What the engine answers is a [Cursor]: for each row what [Scan] makes
    of it, and the error [rows.Err] reports after the last row.  What is
    written to the standard output is kept as the list of the calls of
    [fmt.Println] and [fmt.Printf] with their arguments. *)

Module Report.

Record Cursor (A : Type) : Type := mkCursor {
  c_rows : list (GoError + A);
  c_err : error
}.

Arguments mkCursor {A} _ _.
Arguments c_rows {A} _.
Arguments c_err {A} _.

Inductive Arg : Type :=
| AString (s : string)
| AInt (n : nat)
| AFloat (q : Q)
| AError (f : Failure).

Inductive Print : Type :=
| Println (args : list Arg)
| Printf (format : string) (args : list Arg).

(** The line feed that ends a format. *)
Definition LF : string := String Csv.nl "".

(** [strings.Repeat(s, count)] *)
Fixpoint Repeat (s : string) (count : nat) : string :=
  match count with
  | 0 => ""
  | S n => (s ++ Repeat s n)%string
  end.

(** A row of the first query as [Scan] leaves it in [genre],
    [avgRating] (a [*float64], nil for NULL) and [movieCount]. *)
Definition RatedRow : Type := (string * option Q * nat)%type.

(** The loop over the rows of the first query (lines 460-473).  The
    result is the final [rowCount] and what was printed, or [None] when
    [*avgRating] dereferences nil. *)
Fixpoint printRated (rows : list (GoError + RatedRow)) (rowCount : nat)
         (out : list Print) : option nat * list Print :=
  match rows with
  | [] => (Some rowCount, out)
  | inl e :: rows' =>
      printRated rows' rowCount
                 (out ++ [Printf "error scanning row: %v" [AError (Passed e)]])
  | inr (genre, avgRating, movieCount) :: rows' =>
      match avgRating with
      | None => (None, out)
      | Some avg =>
          printRated rows' (rowCount + 1)
            (out ++ [Printf ("%-20s %-10.2f %-10d" ++ LF)
                            [AString genre; AFloat avg; AInt movieCount]])
      end
  end.

(** The end of both functions (lines 475-486 and 533-544). *)
Definition finishReport (err : error) (rowCount : nat) (out : list Print)
  : Ended * list Print :=
  match err with
  | Some e => (Ends (Some (Errorf "error iterating rows: %v" [e])), out)
  | None =>
      (Ends None,
       out ++ [if rowCount =? 0 then Println [AString "No rows found"]
               else Printf ("Total rows processed: %d" ++ LF)
                           [AInt rowCount]])
  end.

(** [queryDbHighestRatedGenres], over what [db.Query] answers. *)
Definition queryDbHighestRatedGenres (answer : GoError + Cursor RatedRow)
  : Ended * list Print :=
  let out0 := [Println [AString "Executing query..."]] in
  match answer with
  | inl e => (Ends (Some (Errorf "error querying database: %v" [e])), out0)
  | inr rows =>
      let out1 :=
        out0 ++ [Printf ("Top 20 highest rated genres:" ++ LF) [];
                 Printf ("%-20s %-10s %-10s" ++ LF)
                        [AString "Genre"; AString "Avg Rating";
                         AString "Movie Count"];
                 Println [AString (Repeat "-" 40)]] in
      match printRated (c_rows rows) 0 out1 with
      | (None, out) => (Panics, out)
      | (Some rowCount, out) => finishReport (c_err rows) rowCount out
      end
  end.

(** The loop over the rows of the second query (lines 520-531). *)
Fixpoint printCounts (rows : list (GoError + Query2.CountRow))
         (rowCount : nat) (out : list Print) : nat * list Print :=
  match rows with
  | [] => (rowCount, out)
  | inl e :: rows' =>
      printCounts rows' rowCount
                  (out ++ [Printf "error scanning row: %v" [AError (Passed e)]])
  | inr (genre, movieCount) :: rows' =>
      printCounts rows' (rowCount + 1)
        (out ++ [Printf ("%-20s %-10d" ++ LF)
                        [AString genre; AInt movieCount]])
  end.

(** [queryDbMovieCountPerGenre], over what [db.Query] answers. *)
Definition queryDbMovieCountPerGenre
           (answer : GoError + Cursor Query2.CountRow)
  : Ended * list Print :=
  let out0 := [Println [AString "Executing query..."]] in
  match answer with
  | inl e => (Ends (Some (Errorf "error querying database: %v" [e])), out0)
  | inr rows =>
      let out1 :=
        out0 ++ [Printf ("Top 20 genres with most movies:" ++ LF) [];
                 Printf ("%-20s %-10s" ++ LF)
                        [AString "Genre"; AString "Movie Count"];
                 Println [AString (Repeat "-" 30)]] in
      let '(rowCount, out) := printCounts (c_rows rows) 0 out1 in
      finishReport (c_err rows) rowCount out
  end.

End Report.

(* ================================================================== *)
(** ** [newSchema] and [main] (main.go, lines 190-221 and 547-590)

    [main] meets the world outside through [os.MkdirTemp], [sql.Open],
    the [db.Exec] of the schema, the two files and the engine; a [World]
    says what each of them answers.  [newSchema] opens one database and
    hands it to both structs, so [movies.db] and [genres.db] are the same
    handle: the rows are threaded through [main] as one [DB].  A run of
    [main] is the list of its steps, in order; the deferred calls run
    last, the latest first, also when a loader panics. *)

Record World : Type := mkWorld {
  mkdirTemp : GoError + string;        (* os.MkdirTemp("", "moviedb-") *)
  sqlOpen : error;                     (* sql.Open("sqlite", movieDbFile) *)
  execSchema : error;                  (* db.Exec(schema) *)
  engine : Engine;
  moviesCSV : GoError + string;        (* os.Open of IMDB-movies.csv *)
  moviesGenresCSV : GoError + string;  (* os.Open of IMDB-movies_genres.csv *)
  answerHighestRated : DB -> GoError + Report.Cursor Report.RatedRow;
  answerMovieCount : DB -> GoError + Report.Cursor Query2.CountRow
}.

Inductive Step : Type :=
| MkdirTemp (r : GoError + string)
| RemoveAll (dir : string)
| SqlOpen (err : error)
| ExecSchema (err : error)
| Close (via : TableId)       (* movies.db.Close() or genres.db.Close() *)
| CloseNew                    (* db.Close() inside newSchema *)
| Say (p : Report.Print)
| PopulateMovies (o : Outcome)
| PopulateMoviesGenres (o : Outcome)
| QueryHighestRated (r : Ended) (out : list Report.Print)
| QueryMovieCount (r : Ended) (out : list Report.Print).

(** [fmt.Println(msg, err)] *)
Definition sayError (msg : string) (f : Failure) : Step :=
  Say (Report.Println [Report.AString msg; Report.AError f]).

(** [newSchema]: the database with its two empty tables, or the error. *)
Definition newSchema (w : World) : (GoError + DB) * list Step :=
  match sqlOpen w with
  | Some e =>
      (inl e,
       [SqlOpen (Some e); sayError "Error opening database:" (Passed e)])
  | None =>
      match execSchema w with
      | Some e =>
          (inl e, [SqlOpen None; ExecSchema (Some e); CloseNew;
                   sayError "Error creating schema:" (Passed e)])
      | None => (inr (mkDB [] []), [SqlOpen None; ExecSchema None])
      end
  end.

Record Run : Type := mkRun {
  steps : list Step;
  crashed : bool;        (* the program ended in a panic *)
  final : option DB      (* the tables, once the schema exists *)
}.

(** The four calls of [main] after the schema (lines 572-590), up to the
    first that fails. *)
Definition work (w : World) (db0 : DB) : list Step * bool * DB :=
  let o1 := populateMovies (engine w) db0 (moviesCSV w) in
  match ret o1 with
  | Panicked => ([PopulateMovies o1], true, db_after o1)
  | Returned (Some e) =>
      ([PopulateMovies o1;
        sayError "Error populating movies table:" (Passed e)],
       false, db_after o1)
  | Returned None =>
      let db1 := db_after o1 in
      let o2 := populateMoviesGenres (engine w) db1 (moviesGenresCSV w) in
      match ret o2 with
      | Panicked =>
          ([PopulateMovies o1; PopulateMoviesGenres o2], true, db_after o2)
      | Returned (Some e) =>
          ([PopulateMovies o1; PopulateMoviesGenres o2;
            sayError "Error populating movies_genres table:" (Passed e)],
           false, db_after o2)
      | Returned None =>
          let db2 := db_after o2 in
          let '(r3, out3) :=
            Report.queryDbHighestRatedGenres (answerHighestRated w db2) in
          let s3 := [PopulateMovies o1; PopulateMoviesGenres o2;
                     QueryHighestRated r3 out3] in
          match r3 with
          | Panics => (s3, true, db2)
          | Ends (Some f) =>
              (s3 ++ [sayError "Error querying database:" f], false, db2)
          | Ends None =>
              let '(r4, out4) :=
                Report.queryDbMovieCountPerGenre (answerMovieCount w db2) in
              let s4 := s3 ++ [QueryMovieCount r4 out4] in
              match r4 with
              | Panics => (s4, true, db2)
              | Ends (Some f) =>
                  (s4 ++ [sayError "Error querying database:" f],
                   false, db2)
              | Ends None => (s4, false, db2)
              end
          end
      end
  end.

(** [main].  The deferred calls, latest first: [genres.db.Close()],
    [movies.db.Close()], [os.RemoveAll(dir)]. *)
Definition main (w : World) : Run :=
  match mkdirTemp w with
  | inl e =>
      mkRun [MkdirTemp (inl e);
             sayError "Error creating temporary directory:" (Passed e)]
            false None
  | inr dir =>
      let '(r, s) := newSchema w in
      match r with
      | inl e =>
          mkRun (MkdirTemp (inr dir) :: s
                 ++ [sayError "Error creating schema:" (Passed e);
                     RemoveAll dir])
                false None
      | inr db0 =>
          let '(sw, crash, db) := work w db0 in
          mkRun (MkdirTemp (inr dir) :: s
                 ++ [Say (Report.Println
                            [Report.AString
                               "Database schema created successfully"])]
                 ++ sw
                 ++ [Close MoviesGenres; Close Movies; RemoveAll dir])
                crash (Some db)
      end
  end.

(* ################################################################## *)
(** * Part II: the vocabulary of the statements *)

Definition NL : string := String Csv.nl "".

(** One quote character. *)
Definition QT : string := String Csv.dquote "".

(* ================================================================== *)
(** ** Reading a run's trace *)

(** The [Exec] calls of a trace: where, with which rows, with what result. *)
Fixpoint execs (ncols : nat) (tr : list Event)
  : list (ExecSite * list Row * error) :=
  match tr with
  | [] => []
  | EvExec site _ vals err :: tr' => (site, rows ncols vals, err) :: execs ncols tr'
  | _ :: tr' => execs ncols tr'
  end.

Definition is_commit (ev : Event) : bool :=
  match ev with EvCommit _ => true | _ => false end.

Definition is_rollback (ev : Event) : bool :=
  match ev with EvRollback => true | _ => false end.

Definition commits (tr : list Event) : nat := List.length (filter is_commit tr).

Definition rollbacks (tr : list Event) : nat :=
  List.length (filter is_rollback tr).

(** An insert or a commit that the engine rejected. *)
Definition failed (ev : Event) : bool :=
  match ev with
  | EvExec _ _ _ (Some _) => true
  | EvCommit (Some _) => true
  | _ => false
  end.

(** The rows of the inserts that the engine accepted, in order. *)
Fixpoint inserted (ncols : nat) (tr : list Event) : list Row :=
  match tr with
  | [] => []
  | EvExec _ _ vals None :: tr' => rows ncols vals ++ inserted ncols tr'
  | _ :: tr' => inserted ncols tr'
  end.

(** The rows the loader takes from the records of a stream, in order. *)
Fixpoint picked (L : Loader) (stream : list ReadResult) : list Row :=
  match stream with
  | [] => []
  | Bad _ :: s => picked L s
  | Rec record :: s =>
      match l_pick L record with
      | Some fields => fields :: picked L s
      | None => picked L s
      end
  end.

(** Every record of the stream has the fields the loader indexes. *)
Definition pickable (L : Loader) (stream : list ReadResult) : Prop :=
  Forall (fun x => match x with
                   | Rec record => l_pick L record <> None
                   | Bad _ => True
                   end) stream.

Definition skipped (stream : list ReadResult) : nat :=
  List.length (filter (fun x => match x with Bad _ => true | Rec _ => false end)
                      stream).

(* ================================================================== *)
(** ** The loop, between two iterations *)

(** A loader is well formed when it takes as many fields from a record as
    its table has columns. *)
Definition wellFormed (L : Loader) : Prop :=
  forall record fields,
    l_pick L record = Some fields ->
    List.length fields = columns (l_table L).

(** The events the loop itself can add: skips, and full batches of
    exactly [batchSize] rows. *)
Definition loopEvent (ncols : nat) (ev : Event) : bool :=
  match ev with
  | EvSkip _ _ => true
  | EvExec FullBatch _ vals _ => List.length (rows ncols vals) =? batchSize
  | _ => false
  end.

(** The state between two iterations: [values] holds the rows of
    [buf], fewer than a batch, and the transaction is open. *)
Definition Buffered (L : Loader) (st : LoopState) (buf : list Row) : Prop :=
  values (vars st) = List.concat buf /\
  Forall (fun r => List.length r = columns (l_table L)) buf /\
  validRowCount (vars st) = List.length buf /\
  List.length buf < batchSize /\
  status (tx st) = TxOpen /\
  target (tx st) = l_table L.

Definition exitState (x : LoopExit) : LoopState :=
  match x with Break st | ReturnErr _ st | Panic st => st end.

(** The [j]-th block of [batchSize] rows of [R]. *)
Definition block (R : list Row) (j : nat) : list Row :=
  firstn batchSize (skipn (batchSize * j) R).

(** The batches of a list of rows that the loop hands to the engine and
    the engine accepts: the [q] first blocks. *)
Definition fullBatches (R : list Row) (q : nat)
  : list (ExecSite * list Row * error) :=
  map (fun j => (FullBatch, block R j, None)) (seq 0 q).

(* ================================================================== *)
(** ** The shapes of a run

    Once the header is accepted and the transaction has begun, a run ends
    in one of five ways.  [RunShape] lists them with the trace, the
    database and the transaction each one leaves. *)

Definition remainderRows (ncols : nat) (vals : list string) : Prop :=
  1 <= List.length (rows ncols vals) < batchSize.

Definition remainderOk (ncols : nat) (rem : list Event) : Prop :=
  rem = [] \/
  exists stmt vals,
    rem = [EvExec Remainder stmt vals None] /\ remainderRows ncols vals.

Definition loopEvents (ncols : nat) (new : list Event) : Prop :=
  Forall (fun ev => loopEvent ncols ev = true) new /\
  Forall (fun ev => failed ev = false) new.

Inductive RunShape (L : Loader) (db : DB) : Outcome -> Prop :=
| RunPanic (new : list Event) (t : Tx) :
    loopEvents (columns (l_table L)) new ->
    status t = TxOpen ->
    RunShape L db (mkOutcome Panicked db (Some t) (EvBegin :: new))
| RunBatchRejected (pre : list Event) (stmt : string) (vals : list string)
                   (e : GoError) (t : Tx) :
    loopEvents (columns (l_table L)) pre ->
    List.length (rows (columns (l_table L)) vals) = batchSize ->
    status t = TxOpen ->
    RunShape L db
      (mkOutcome (Returned (Some e)) db (Some t)
         (EvBegin :: pre ++ [EvExec FullBatch stmt vals (Some e)]))
| RunRemainderRejected (new : list Event) (stmt : string)
                       (vals : list string) (e : GoError) (t : Tx) :
    loopEvents (columns (l_table L)) new ->
    remainderRows (columns (l_table L)) vals ->
    status t = TxOpen ->
    RunShape L db
      (mkOutcome (Returned (Some e)) db (Some t)
         (EvBegin :: new ++ [EvExec Remainder stmt vals (Some e)]))
| RunCommitRejected (new rem : list Event) (e : GoError) (t : Tx) :
    loopEvents (columns (l_table L)) new ->
    remainderOk (columns (l_table L)) rem ->
    status t = TxCommitFailed ->
    RunShape L db
      (mkOutcome (Returned (Some e)) db (Some t)
         (EvBegin :: new ++ rem ++ [EvCommit (Some e)]))
| RunCommitted (new rem : list Event) (n : nat) (t : Tx) :
    loopEvents (columns (l_table L)) new ->
    remainderOk (columns (l_table L)) rem ->
    status t = TxCommitted ->
    RunShape L db
      (mkOutcome (Returned None)
         (addRows (l_table L)
                  (inserted (columns (l_table L)) (new ++ rem)) db)
         (Some t)
         (EvBegin :: new ++ rem ++ [EvCommit None; EvTotal n])).

(* ================================================================== *)
(** ** What a run over well-formed records inserts *)

(** The rows left after the full batches of [R]. *)
Definition restOf (R : list Row) : list Row :=
  skipn (batchSize * (List.length R / batchSize)) R.

(** The inserts of a run that hands over all of [R]: the full batches,
    then the remainder if it is not empty. *)
Definition batchesOf (R : list Row) : list (ExecSite * list Row * error) :=
  fullBatches R (List.length R / batchSize)
  ++ match restOf R with
     | [] => []
     | rest => [(Remainder, rest, None)]
     end.

Inductive Loaded (L : Loader) (db : DB) (R : list Row) (o : Outcome) : Prop :=
| LoadedBatchRejected (j : nat) (e : GoError) :
    j < List.length R / batchSize ->
    execs (columns (l_table L)) (trace o)
      = fullBatches R j ++ [(FullBatch, block R j, Some e)] ->
    ret o = Returned (Some e) ->
    db_after o = db ->
    Loaded L db R o
| LoadedRemainderRejected (e : GoError) :
    restOf R <> [] ->
    execs (columns (l_table L)) (trace o)
      = fullBatches R (List.length R / batchSize)
        ++ [(Remainder, restOf R, Some e)] ->
    ret o = Returned (Some e) ->
    db_after o = db ->
    Loaded L db R o
| LoadedCommitRejected (e : GoError) :
    execs (columns (l_table L)) (trace o) = batchesOf R ->
    ret o = Returned (Some e) ->
    db_after o = db ->
    In (EvCommit (Some e)) (trace o) ->
    Loaded L db R o
| LoadedCommitted :
    execs (columns (l_table L)) (trace o) = batchesOf R ->
    ret o = Returned None ->
    db_after o = addRows (l_table L) R db ->
    In (EvTotal (List.length R)) (trace o) ->
    Loaded L db R o.

(** The database changes only in a run whose inserts and commit all
    succeeded. *)
Definition AllOrNothing (db : DB) (o : Outcome) : Prop :=
  ((exists ev, In ev (trace o) /\ failed ev = true) -> db_after o = db) /\
  (ret o <> Returned None -> db_after o = db) /\
  (db_after o <> db ->
   ret o = Returned None /\
   (forall ev, In ev (trace o) -> failed ev = false) /\
   In (EvCommit None) (trace o)).

(* ================================================================== *)
(** ** Batches *)

Definition batchRows (x : ExecSite * list Row * error) : list Row :=
  snd (fst x).

Definition batchSite (x : ExecSite * list Row * error) : ExecSite :=
  fst (fst x).

Definition batchErr (x : ExecSite * list Row * error) : error := snd x.

(** A batch of 1 to [batchSize] rows. *)
Definition sized (x : ExecSite * list Row * error) : Prop :=
  1 <= List.length (batchRows x) <= batchSize.

(** Decidable forms of two hypotheses, for concrete runs. *)
Definition pickableb (L : Loader) (stream : list ReadResult) : bool :=
  forallb (fun x => match x with
                    | Rec record =>
                        match l_pick L record with Some _ => true | None => false end
                    | Bad _ => true
                    end) stream.

Definition fullAcceptedb (E : list (ExecSite * list Row * error)) : bool :=
  forallb (fun x => match x with
                    | (FullBatch, _, Some _) => false
                    | _ => true
                    end) E.

(* ================================================================== *)
(** ** Rows with quotes, as the reader sees them *)

(** A field as it is written in a line: unquoted, or between quotes.  The
    text of a quoted field is [first] followed, for each [m] of [more], by
    a bare quote and [m]. *)
Inductive Cell : Type :=
| Plain (text : string)
| Quoted (first : string) (more : list string).

Fixpoint inner (more : list string) : string :=
  match more with
  | [] => ""
  | m :: ms => (QT ++ m ++ inner ms)%string
  end.

(** What the field holds. *)
Definition cellValue (c : Cell) : string :=
  match c with
  | Plain text => text
  | Quoted first more => (first ++ inner more)%string
  end.

(** How the field is written. *)
Definition cellText (c : Cell) : string :=
  match c with
  | Plain text => text
  | Quoted first more => (QT ++ first ++ inner more ++ QT)%string
  end.

Definition noLineEnd (s : string) : Prop :=
  contains s Csv.nl = false /\ contains s Csv.cr = false.

(** The text after a bare quote: not empty, and its first byte is not a
    quote or a comma, so the quote before it cannot be read as an escaped
    quote or as the end of the field. *)
Definition afterBareQuote (m : string) : Prop :=
  match m with
  | EmptyString => False
  | String c _ => Ascii.eqb c Csv.dquote = false /\ Ascii.eqb c Csv.comma = false
  end.

Definition cellOk (c : Cell) : Prop :=
  match c with
  | Plain text =>
      noLineEnd text /\
      contains text Csv.comma = false /\
      Csv.startsWithQuote text = false
  | Quoted first more =>
      noLineEnd first /\ contains first Csv.dquote = false /\
      Forall (fun m => noLineEnd m /\ contains m Csv.dquote = false /\
                       afterBareQuote m) more
  end.

(** A line of the file: the fields, comma-separated, and a newline. *)
Definition rowText (cells : list Cell) : string :=
  (Join (map cellText cells) "," ++ NL)%string.

Definition rowOk (cells : list Cell) : Prop :=
  Forall cellOk cells /\ Join (map cellText cells) "," <> "".

(** What follows a field in its line: the newline, or a comma and the
    other fields. *)
Definition tailOf (cs : list Cell) : string :=
  match cs with
  | [] => NL
  | _ => String Csv.comma (rowText cs)
  end.

(** What strict mode makes of a line: it stops at the first field with a
    bare quote. *)
Fixpoint strictOutcome (cs : list Cell) (acc : list string)
  : list string * error :=
  match cs with
  | [] => (acc, None)
  | Plain text :: cs' =>
      if contains text Csv.dquote then (acc, Some (CsvError ErrBareQuote))
      else strictOutcome cs' (acc ++ [text])
  | Quoted first [] :: cs' => strictOutcome cs' (acc ++ [first])
  | Quoted first (_ :: _) :: cs' => (acc, Some (CsvError ErrQuote))
  end.

(** A field with a quote that strict mode rejects: a quote inside an
    unquoted field, or a bare quote inside a quoted one. *)
Definition hasBareQuote (c : Cell) : bool :=
  match c with
  | Plain text => contains text Csv.dquote
  | Quoted _ [] => false
  | Quoted _ (_ :: _) => true
  end.

Definition quoteError (k : ParseError) : bool :=
  match k with
  | ErrBareQuote | ErrQuote => true
  | ErrFieldCount => false
  end.

(** A file: its lines, one after the other. *)
Fixpoint fileText (rows : list (list Cell)) : string :=
  match rows with
  | [] => ""
  | cs :: rows' => (rowText cs ++ fileText rows')%string
  end.


(* ================================================================== *)
(** ** Header fields *)

Definition commaFree (s : string) : Prop := contains s Csv.comma = false.

(* ================================================================== *)
(** ** Sample engines and files *)

(** An engine that accepts everything. *)
Definition acceptAll : Engine :=
  mkEngine (fun _ => None) (fun _ _ _ _ => None) (fun _ _ => None).

Fixpoint distinct (l : list string) : bool :=
  match l with
  | [] => true
  | x :: l' => negb (existsb (String.eqb x) l') && distinct l'
  end.

(** An engine that enforces the primary key of [movies]: an insert that
    repeats an id (the first column) is rejected. *)
Definition primaryKey : Engine :=
  mkEngine
    (fun _ => None)
    (fun db pend _ vals =>
       if distinct (map (hd "") (movies db ++ pend ++ rows 4 vals))
       then None
       else Some (ErrSQL "UNIQUE constraint failed: movies.id"))
    (fun _ _ => None).

(** An engine whose commit fails. *)
Definition commitFails : Engine :=
  mkEngine (fun _ => None) (fun _ _ _ _ => None)
           (fun _ _ => Some (ErrSQL "disk I/O error")).

Definition emptyDB : DB := mkDB [] [].

Definition decimal (n : nat) : string :=
  NilZero.string_of_uint (Nat.to_uint n).

(** A line of [movies.csv] and a file with the given ids. *)
Definition movieLine (id : nat) : string :=
  (Join [decimal id; "Movie"; "1999"; "6.5"] "," ++ NL)%string.

Definition moviesFile (ids : list nat) : string :=
  ("id,name,year,rank" ++ NL ++ String.concat "" (map movieLine ids))%string.

(** An engine that rejects every insert. *)
Definition rejectAll : Engine :=
  mkEngine (fun _ => None)
           (fun _ _ _ _ => Some (ErrSQL "database is locked"))
           (fun _ _ => None).

(** The records of a file of [movies.csv] lines, after the header. *)
Definition sampleStream (ids : list nat) : list ReadResult :=
  tl (Csv.records (Csv.setLazyQuotes (Csv.NewReader (moviesFile ids)) true)).

(** Sample lines: a header, a quoted name with two bare quotes inside, an
    unquoted name with a quote, and a quoted name without one. *)
Definition hdr0 : list Cell :=
  [Plain "id"; Plain "name"; Plain "year"; Plain "rank"].

Definition row37 : list Cell :=
  [Plain "37"; Quoted "The " ["Best"; " Movie"]; Plain "1999"; Plain "6.5"].

Definition row38 : list Cell :=
  [Plain "38"; Plain ("Say " ++ QT ++ "hi")%string; Plain "2000"; Plain "7.0"].

Definition row39 : list Cell :=
  [Plain "39"; Quoted "Plain, quoted" []; Plain "2001"; Plain "NULL"].



(* ================================================================== *)
(** ** Skipped rows and insert statements *)

(** The rows reported as skipped in a trace: row number and cause. *)
Fixpoint skips (tr : list Event) : list (nat * ParseError) :=
  match tr with
  | [] => []
  | EvSkip n k :: tr' => (n, k) :: skips tr'
  | _ :: tr' => skips tr'
  end.

(** The records of a stream that failed to decode, numbered from [n]. *)
Fixpoint badRows (n : nat) (stream : list ReadResult)
  : list (nat * ParseError) :=
  match stream with
  | [] => []
  | Bad k :: s => (n, k) :: badRows (S n) s
  | Rec _ :: s => badRows (S n) s
  end.

(** How many times the byte [c] occurs in [s]. *)
Fixpoint countByte (c : ascii) (s : string) : nat :=
  match s with
  | EmptyString => 0
  | String a s' => (if Ascii.eqb a c then 1 else 0) + countByte c s'
  end.

(** A well-built insert: the text [ins], then [n] groups [g] of
    placeholders with commas between them, for [1 <= n <= batchSize],
    bound to [ncols] values per group - as many values as the statement
    has placeholders. *)
Definition stmtOk (ins g : string) (ncols : nat) (ev : Event) : Prop :=
  match ev with
  | EvExec _ stmt vals _ =>
      exists n,
        1 <= n <= batchSize /\
        stmt = (ins ++ Join (repeat g n) ",")%string /\
        List.length vals = ncols * n /\
        countByte "?" stmt = List.length vals
  | _ => True
  end.

(** [n] groups, each followed by its comma, as the loop appends them. *)
Fixpoint groups (g : string) (n : nat) : string :=
  match n with
  | 0 => ""
  | S n' => (groups g n' ++ g ++ ",")%string
  end.

(** Between two iterations the statement holds one group per row
    buffered. *)
Definition Building (L : Loader) (g : string) (st : LoopState) : Prop :=
  insertStmt (vars st)
  = (l_insert L ++ groups g (validRowCount (vars st)))%string /\
  List.length (values (vars st))
  = columns (l_table L) * validRowCount (vars st) /\
  validRowCount (vars st) < batchSize.

(* ================================================================== *)
(** ** Traces of the first version *)

(** The rows of the inserts of a first-version trace that the engine
    accepted, in order. *)
Fixpoint accepted (tr : list V1.Event) : list Row :=
  match tr with
  | [] => []
  | V1.EvExec _ vals None :: tr' => vals :: accepted tr'
  | _ :: tr' => accepted tr'
  end.

(** The rows a first-version trace reports as skipped. *)
Fixpoint skips1 (tr : list V1.Event) : list (nat * ParseError) :=
  match tr with
  | [] => []
  | V1.EvSkip n k :: tr' => (n, k) :: skips1 tr'
  | _ :: tr' => skips1 tr'
  end.

(* ================================================================== *)
(** ** Groups of rows *)

(** [gs] are the groups of [l] under [key]: each group holds, in order,
    the rows of [l] whose key equals the group's; the group's key is the
    key of its first row; no two groups have equal keys; and every row is
    in a group. *)
Definition Grouped {K A : Type} (eqb : K -> K -> bool) (key : A -> K)
           (l : list A) (gs : list (K * list A)) : Prop :=
  Forall (fun g =>
            (exists a rest, snd g = a :: rest /\ fst g = key a) /\
            snd g = filter (fun a => eqb (key a) (fst g)) l) gs /\
  ForallOrdPairs (fun k1 k2 => eqb k2 k1 = false) (map fst gs) /\
  (forall a, In a l -> exists g, In g gs /\ eqb (key a) (fst g) = true).

(** The joined rows of a genre. *)
Definition ofGenre (db : Query.Tables) (g : string)
  : list (Query.MovieGenre * Query.Movie) :=
  filter (fun x => String.eqb (Query.mg_genre (fst x)) g) (Query.joined db).

(** The joined rows with a rating, of a genre and with a given rating. *)
Definition ofGenreAndRating (db : Query.Tables) (g : string)
           (r : Query.Value) : list (Query.MovieGenre * Query.Movie) :=
  filter (fun x => String.eqb (Query.mg_genre (fst x)) g
                   && Query.valueEqb (Query.m_rank (snd x)) r)
         (filter (fun x => Query.rated (Query.m_rank (snd x)))
                 (Query.joined db)).

(* ================================================================== *)
(** ** The steps of [main] *)

(** Giving back what was acquired: closing the database, removing the
    directory. *)
Definition isRelease (s : Step) : bool :=
  match s with
  | RemoveAll _ | Close _ | CloseNew => true
  | _ => false
  end.

(** A call on the database. *)
Definition usesDB (s : Step) : bool :=
  match s with
  | ExecSchema _ | PopulateMovies _ | PopulateMoviesGenres _
  | QueryHighestRated _ _ | QueryMovieCount _ _ => true
  | _ => false
  end.

(** A call whose result [main] tests. *)
Definition operation (s : Step) : bool :=
  match s with
  | MkdirTemp _ | SqlOpen _ | ExecSchema _
  | PopulateMovies _ | PopulateMoviesGenres _
  | QueryHighestRated _ _ | QueryMovieCount _ _ => true
  | _ => false
  end.

(** The call returned nil (the other steps have no result). *)
Definition succeeded (s : Step) : bool :=
  match s with
  | MkdirTemp (inl _) | SqlOpen (Some _) | ExecSchema (Some _) => false
  | PopulateMovies o | PopulateMoviesGenres o =>
      match ret o with Returned None => true | _ => false end
  | QueryHighestRated r _ | QueryMovieCount r _ =>
      match r with Ends None => true | _ => false end
  | _ => true
  end.

(** No call follows a call that failed. *)
Fixpoint inOrder (l : list Step) : bool :=
  match l with
  | [] => true
  | x :: l' =>
      (succeeded x || forallb (fun y => negb (operation y)) l')
      && inOrder l'
  end.

(** A world in which everything succeeds but the file of [movies] has
    its first two columns exchanged. *)
Definition swappedWorld : World :=
  {| mkdirTemp := inr "/tmp/moviedb-1";
     sqlOpen := None;
     execSchema := None;
     engine := acceptAll;
     moviesCSV := inr ("name,id,year,rank" ++ NL ++ "A,1,1999,5" ++ NL)%string;
     moviesGenresCSV := inr ("movie_id,genre" ++ NL ++ "1,Drama" ++ NL)%string;
     answerHighestRated := fun _ => inr (Report.mkCursor [] None);
     answerMovieCount := fun _ => inr (Report.mkCursor [] None) |}.

(** A world in which the file of [movies_genres] cannot be opened. *)
Definition noGenresWorld : World :=
  {| mkdirTemp := inr "/tmp/moviedb-2";
     sqlOpen := None;
     execSchema := None;
     engine := acceptAll;
     moviesCSV := inr (moviesFile [1; 2]);
     moviesGenresCSV := inl (ErrOpen "no such file or directory");
     answerHighestRated := fun _ => inr (Report.mkCursor [] None);
     answerMovieCount := fun _ => inr (Report.mkCursor [] None) |}.


(** Every record of the stream has at least [n] fields. *)
Definition fieldsAtLeast (n : nat) (stream : list ReadResult) : Prop :=
  Forall (fun x => match x with
                   | Rec record => n <= List.length record
                   | Bad _ => True
                   end) stream.

(** The records of a file of 120 movies, with its header. *)
Definition sampleRecords : list ReadResult :=
  Csv.records (Csv.setLazyQuotes (Csv.NewReader (moviesFile (seq 1 120)))
                                 true).

(* ================================================================== *)
(** ** The pairs of genre and rating *)

(** The keys of a list, each once, in the order in which they are first
    met; two keys are the same when [eqb] says so. *)
Definition distinctKeys {K : Type} (eqb : K -> K -> bool) (l : list K)
  : list K :=
  fold_left (fun acc k => if existsb (eqb k) acc then acc else acc ++ [k])
            l [].

(** The joined rows that pass the WHERE clause of the first query. *)
Definition ratedRows (db : Query.Tables)
  : list (Query.MovieGenre * Query.Movie) :=
  filter (fun x => Query.rated (Query.m_rank (snd x))) (Query.joined db).

(** Same genre and same rating. *)
Definition pairEqb (a b : string * Query.Value) : bool :=
  String.eqb (fst a) (fst b) && Query.valueEqb (snd a) (snd b).

(** The different pairs of genre and rating among the rated rows. *)
Definition ratedPairs (db : Query.Tables) : list (string * Query.Value) :=
  distinctKeys pairEqb
    (map (fun x => (Query.mg_genre (fst x), Query.m_rank (snd x)))
         (ratedRows db)).

(* ================================================================== *)
(** ** What the first report prints *)

(** A row that scans, with NULL for its average. *)
Definition nullAverage (x : GoError + Report.RatedRow) : bool :=
  match x with
  | inr (_, None, _) => true
  | _ => false
  end.

Definition scans {A : Type} (x : GoError + A) : bool :=
  match x with
  | inr _ => true
  | inl _ => false
  end.

(** What the loop prints for a row: the scan error, or the row. *)
Definition ratedPrint (x : GoError + Report.RatedRow) : list Report.Print :=
  match x with
  | inl e =>
      [Report.Printf "error scanning row: %v" [Report.AError (Passed e)]]
  | inr (genre, Some avg, movieCount) =>
      [Report.Printf ("%-20s %-10.2f %-10d" ++ Report.LF)%string
                     [Report.AString genre; Report.AFloat avg;
                      Report.AInt movieCount]]
  | inr (_, None, _) => []
  end.

(** What is printed before the loop. *)
Definition ratedTitles : list Report.Print :=
  [Report.Println [Report.AString "Executing query..."];
   Report.Printf ("Top 20 highest rated genres:" ++ Report.LF)%string [];
   Report.Printf ("%-20s %-10s %-10s" ++ Report.LF)%string
                 [Report.AString "Genre"; Report.AString "Avg Rating";
                  Report.AString "Movie Count"];
   Report.Println [Report.AString (Report.Repeat "-" 40)]].

(** What is printed after the loop, for [n] rows printed. *)
Definition reportTotal (n : nat) : Report.Print :=
  if n =? 0 then Report.Println [Report.AString "No rows found"]
  else Report.Printf ("Total rows processed: %d" ++ Report.LF)%string
                     [Report.AInt n].

(* ################################################################## *)
(** * Part III: lemmas and theorems *)

(* ================================================================== *)
(** ** The header check on the expected headers *)

Example validateHeaders_movies :
  validateHeaders "movies" ["id"; "name"; "year"; "rank"] = true.
Proof. reflexivity. Qed.

Example validateHeaders_swapped :
  validateHeaders "movies" ["name"; "id"; "year"; "rank"] = false.
Proof. reflexivity. Qed.

Example validateHeaders_joined :
  validateHeaders "movies" ["id,name"; "year"; "rank"] = true.
Proof. reflexivity. Qed.

(* ================================================================== *)
(** ** Lemmas on the engine model *)

Lemma rowsFrom_fill (ncols : nat) (r : list string) :
  forall (cur : Row) (rest : list string),
    r <> [] ->
    List.length cur + List.length r = ncols ->
    rowsFrom ncols cur (r ++ rest) = (cur ++ r) :: rowsFrom ncols [] rest.
Proof.
  induction r as [|v r IH]; intros cur rest Hne Hlen; [congruence|].
  simpl. destruct r as [|w r'].
  - simpl in *. rewrite length_app. simpl.
    replace (List.length cur + 1 =? ncols) with true
      by (symmetry; apply Nat.eqb_eq; lia).
    reflexivity.
  - replace (List.length (cur ++ [v]) =? ncols) with false.
    + rewrite IH.
      * now rewrite <- app_assoc.
      * discriminate.
      * rewrite length_app. simpl in *. lia.
    + symmetry. apply Nat.eqb_neq. rewrite length_app. simpl in *. lia.
Qed.

Lemma rows_concat (ncols : nat) (rs : list Row) :
  0 < ncols ->
  Forall (fun r => List.length r = ncols) rs ->
  rows ncols (List.concat rs) = rs.
Proof.
  intros Hpos Hall. unfold rows.
  induction Hall as [|r rs Hr _ IH]; [reflexivity|].
  simpl. rewrite rowsFrom_fill.
  - now rewrite IH.
  - intros ->. simpl in Hr. lia.
  - simpl. exact Hr.
Qed.

Lemma length_concat_rows (ncols : nat) (rs : list Row) :
  Forall (fun r => List.length r = ncols) rs ->
  List.length (List.concat rs) = ncols * List.length rs.
Proof.
  induction 1 as [|r rs Hr _ IH]; simpl; [lia|].
  rewrite length_app, IH, Hr. lia.
Qed.

Lemma columns_pos (t : TableId) : 0 < columns t.
Proof. destruct t; simpl; lia. Qed.

Lemma Exec_open (eng : Engine) (db : DB) (t : Tx) (stmt : string)
      (vals : list string) :
  status t = TxOpen ->
  Exec eng db t stmt vals =
    match exec_err eng db (pending t) stmt vals with
    | Some e => (t, Some e)
    | None =>
        (mkTx TxOpen (target t) (pending t ++ rows (columns (target t)) vals),
         None)
    end.
Proof. intros H. unfold Exec. now rewrite H. Qed.

Lemma skipn_block {A : Type} (X R : list A) (n : nat) :
  skipn (List.length X + n) (X ++ R) = skipn n R.
Proof.
  rewrite skipn_app, skipn_all2 by lia.
  simpl. f_equal. lia.
Qed.

Lemma firstn_block {A : Type} (X R : list A) (n : nat) :
  firstn (List.length X + n) (X ++ R) = X ++ firstn n R.
Proof.
  rewrite firstn_app, firstn_all2 by lia.
  do 2 f_equal. lia.
Qed.

Lemma execs_app (ncols : nat) (a b : list Event) :
  execs ncols (a ++ b) = execs ncols a ++ execs ncols b.
Proof.
  induction a as [|ev a IH]; [reflexivity|].
  destruct ev; simpl; rewrite ?IH; reflexivity.
Qed.

Lemma div_batch (n : nat) : (batchSize + n) / batchSize = S (n / batchSize).
Proof.
  unfold batchSize.
  replace (100 + n) with (1 * 100 + n) by lia.
  rewrite Nat.div_add_l by lia. lia.
Qed.

(* ================================================================== *)
(** ** The loop, step by step *)

Lemma moviesLoader_wellFormed : wellFormed moviesLoader.
Proof.
  intros record fields.
  destruct record as [|a [|b [|c [|d record]]]]; simpl;
    intros H; inversion H; reflexivity.
Qed.

Lemma moviesGenresLoader_wellFormed : wellFormed moviesGenresLoader.
Proof.
  intros record fields.
  destruct record as [|a [|b record]]; simpl;
    intros H; inversion H; reflexivity.
Qed.

Lemma batchSize_eq : batchSize = 100.
Proof. reflexivity. Qed.

#[local] Opaque batchSize.
#[local] Arguments Nat.div : simpl never.
#[local] Arguments Nat.mul : simpl never.

Section LoopFacts.

Variable L : Loader.
Variable eng : Engine.
Variable db : DB.
Hypothesis HL : wellFormed L.

(** Whatever the stream and the engine: the loop adds only skips and full
    batches, leaves the transaction open with the rows of the accepted
    batches, and a rejected insert is the last thing it does. *)
Lemma loop_events (stream : list ReadResult) :
  forall st buf,
    Buffered L st buf ->
    exists new,
      log (exitState (loop L eng db stream st)) = log st ++ new /\
      Forall (fun ev => loopEvent (columns (l_table L)) ev = true) new /\
      status (tx (exitState (loop L eng db stream st))) = TxOpen /\
      target (tx (exitState (loop L eng db stream st))) = l_table L /\
      pending (tx (exitState (loop L eng db stream st)))
        = pending (tx st) ++ inserted (columns (l_table L)) new /\
      match loop L eng db stream st with
      | ReturnErr e _ =>
          exists pre stmt vals,
            new = pre ++ [EvExec FullBatch stmt vals (Some e)] /\
            Forall (fun ev => failed ev = false) pre
      | Break st' =>
          Forall (fun ev => failed ev = false) new /\
          exists buf', Buffered L st' buf'
      | Panic _ => Forall (fun ev => failed ev = false) new
      end.
Proof.
  induction stream as [|item stream IH]; intros st buf HB.
  - exists []. simpl. rewrite !app_nil_r.
    pose proof HB as (_ & _ & _ & _ & Hst & Htg).
    repeat split; auto. now exists buf.
  - destruct item as [record|k]; simpl.
    + destruct (l_pick L record) as [fields|] eqn:Hpick.
      * destruct HB as (Hv & Hall & Hc & Hlt & Hst & Htg).
        assert (Hf : List.length fields = (columns (l_table L)))
          by (apply HL in Hpick; exact Hpick).
        destruct (validRowCount (vars st) + 1 =? batchSize) eqn:Hfull.
        -- apply Nat.eqb_eq in Hfull.
           rewrite (Exec_open _ _ _ _ _ Hst).
           assert (Hrows : rows (columns (l_table L)) (values (vars st) ++ fields)
                           = buf ++ [fields]).
           { rewrite Hv.
             replace (List.concat buf ++ fields)
               with (List.concat (buf ++ [fields]))
               by (rewrite concat_app; simpl; now rewrite app_nil_r).
             apply rows_concat; [apply columns_pos|].
             apply Forall_app; split; auto. }
           assert (Hev : forall err, loopEvent (columns (l_table L))
                   (EvExec FullBatch
                      (dropLast (insertStmt (vars st) ++ l_group L))
                      (values (vars st) ++ fields) err) = true).
           { intros err. simpl. rewrite Hrows, length_app. simpl.
             apply Nat.eqb_eq. lia. }
           destruct (exec_err eng db (pending (tx st)) _ _) as [e|] eqn:He.
           ++ simpl. eexists. split; [reflexivity|].
              split; [constructor; [apply Hev|constructor]|].
              simpl. rewrite app_nil_r.
              repeat split; auto.
              exists [], (dropLast (insertStmt (vars st) ++ l_group L)),
                     (values (vars st) ++ fields).
              split; [reflexivity|constructor].
           ++ rewrite Htg.
              match goal with
              | |- context [loop L eng db stream ?s] =>
                  destruct (IH s [])
                    as (new & Hlog & Hnew & Hst' & Htg' & Hpend & Hcase)
              end.
              { repeat split; simpl; auto. rewrite batchSize_eq. lia. }
              simpl in Hlog, Hpend.
              exists (EvExec FullBatch
                        (dropLast (insertStmt (vars st) ++ l_group L))
                        (values (vars st) ++ fields) None :: new).
              rewrite Hlog, Hpend, <- !app_assoc. simpl.
              repeat split; auto.
              match goal with
              | |- context [loop L eng db stream ?s] =>
                  destruct (loop L eng db stream s)
              end.
              ** destruct Hcase as (Hnf & Hbuf). split; auto.
              ** destruct Hcase as (pre & stmt & vals & -> & Hpre).
                 eexists (_ :: pre), stmt, vals. split; [reflexivity|].
                 constructor; auto.
              ** constructor; auto.
        -- apply Nat.eqb_neq in Hfull.
           match goal with
           | |- context [loop L eng db stream ?s] =>
               destruct (IH s (buf ++ [fields])) as (new & Hlog & Hrest)
           end.
           { repeat split; simpl; auto.
             - rewrite Hv, concat_app. simpl. now rewrite app_nil_r.
             - apply Forall_app; split; auto.
             - rewrite length_app. simpl. lia.
             - rewrite length_app. simpl. lia. }
           exists new. auto.
      * exists []. simpl. rewrite !app_nil_r.
        destruct HB as (_ & _ & _ & _ & Hst & Htg). repeat split; auto.
    + match goal with
      | |- context [loop L eng db stream ?s] =>
          destruct (IH s buf)
            as (new & Hlog & Hnew & Hst' & Htg' & Hpend & Hcase)
      end.
      { destruct HB as (Hv & Hall & Hc & Hlt & Hst & Htg).
        repeat split; simpl; auto. }
      simpl in Hlog, Hpend.
      exists (EvSkip (rowNumber (vars st)) k :: new).
      rewrite Hlog, Hpend, <- !app_assoc. simpl.
      repeat split; auto.
      match goal with
      | |- context [loop L eng db stream ?s] =>
          destruct (loop L eng db stream s)
      end.
      * destruct Hcase as (Hnf & Hbuf). split; auto.
      * destruct Hcase as (pre & stmt & vals & -> & Hpre).
        eexists (_ :: pre), stmt, vals. split; [reflexivity|].
        constructor; auto.
      * constructor; auto.
Qed.

Lemma block_0 (X R : list Row) :
  List.length X = batchSize -> block (X ++ R) 0 = X.
Proof.
  intros HX. unfold block. rewrite Nat.mul_0_r. simpl skipn.
  rewrite <- (Nat.add_0_r batchSize), <- HX.
  now rewrite firstn_block, app_nil_r.
Qed.

Lemma block_S (X R : list Row) (j : nat) :
  List.length X = batchSize -> block (X ++ R) (S j) = block R j.
Proof.
  intros HX. unfold block.
  rewrite Nat.mul_succ_r.
  replace (batchSize * j + batchSize) with (List.length X + batchSize * j)
    by (rewrite HX; lia).
  now rewrite skipn_block.
Qed.

Lemma fullBatches_cons (X R : list Row) (q : nat) :
  List.length X = batchSize ->
  fullBatches (X ++ R) (S q) = (FullBatch, X, None) :: fullBatches R q.
Proof.
  intros HX. unfold fullBatches.
  rewrite <- cons_seq, <- seq_shift, map_cons, map_map.
  rewrite (block_0 _ _ HX). f_equal.
  apply map_ext. intros j. now rewrite (block_S _ _ _ HX).
Qed.

(** When every record has the fields the loader indexes, the loop never
    panics.  If it reaches the end of the stream it has handed over the
    rows in full batches, in order, and holds the rest; if it returns
    early, the batch the engine rejected is the last one it handed over. *)
Lemma loop_break (stream : list ReadResult) :
  forall st buf,
    Buffered L st buf ->
    pickable L stream ->
    let R := buf ++ picked L stream in
    let q := List.length R / batchSize in
    match loop L eng db stream st with
    | Panic _ => False
    | ReturnErr e st' =>
        exists j,
          j < q /\
          execs (columns (l_table L)) (log st')
            = execs (columns (l_table L)) (log st) ++ fullBatches R j
              ++ [(FullBatch, block R j, Some e)]
    | Break st' =>
        Buffered L st' (skipn (batchSize * q) R) /\
        pending (tx st') = pending (tx st) ++ firstn (batchSize * q) R /\
        execs (columns (l_table L)) (log st')
          = execs (columns (l_table L)) (log st) ++ fullBatches R q /\
        totalMovies (vars st') = totalMovies (vars st) + 100 * q
    end.
Proof.
  induction stream as [|item stream IH]; intros st buf HB Hp.
  - simpl. rewrite app_nil_r.
    destruct HB as (Hv & Hall & Hc & Hlt & Hst & Htg).
    rewrite Nat.div_small by exact Hlt.
    rewrite Nat.mul_0_r. simpl. rewrite !app_nil_r.
    repeat split; auto; lia.
  - inversion Hp as [|? ? Hitem Hp']; subst.
    destruct item as [record|k]; simpl.
    + destruct (l_pick L record) as [fields|] eqn:Hpick; [|congruence].
      destruct HB as (Hv & Hall & Hc & Hlt & Hst & Htg).
      assert (Hf : List.length fields = (columns (l_table L)))
        by (apply HL in Hpick; exact Hpick).
      destruct (validRowCount (vars st) + 1 =? batchSize) eqn:Hfull.
      * apply Nat.eqb_eq in Hfull.
        rewrite (Exec_open _ _ _ _ _ Hst).
        assert (HX : List.length (buf ++ [fields]) = batchSize)
          by (rewrite length_app; simpl; lia).
        assert (Hrows : rows (columns (l_table L)) (values (vars st) ++ fields)
                        = buf ++ [fields]).
        { rewrite Hv.
          replace (List.concat buf ++ fields)
            with (List.concat (buf ++ [fields]))
            by (rewrite concat_app; simpl; now rewrite app_nil_r).
          apply rows_concat; [apply columns_pos|].
          apply Forall_app; split; auto. }
        replace (buf ++ fields :: picked L stream)
          with ((buf ++ [fields]) ++ picked L stream)
          by (now rewrite <- app_assoc).
        rewrite length_app, HX, div_batch.
        destruct (exec_err eng db (pending (tx st)) _ _) as [e|] eqn:He.
        { exists 0. split; [lia|].
          simpl. rewrite execs_app. simpl.
          now rewrite Hrows, (block_0 _ _ HX). }
        match goal with
        | |- context [loop L eng db stream ?s] =>
            specialize (IH s [])
        end.
        match type of IH with
        | ?P -> _ => assert (HB' : P)
        end.
        { repeat split; simpl; auto. rewrite batchSize_eq. lia. }
        specialize (IH HB' Hp').
        simpl in IH.
        match goal with
        | |- context [loop L eng db stream ?s] =>
            destruct (loop L eng db stream s) as [st'|e st'|]; auto
        end.
        -- destruct IH as (HB1 & Hpend & Hex & Htot).
           rewrite fullBatches_cons by exact HX.
           rewrite Nat.mul_succ_r.
           replace (batchSize * (List.length (picked L stream) / batchSize)
                    + batchSize)
             with (List.length (buf ++ [fields])
                   + batchSize * (List.length (picked L stream) / batchSize))
             by (rewrite HX; lia).
           rewrite skipn_block, firstn_block.
           split; [exact HB1|]. split; [|split].
           ++ rewrite Hpend. rewrite Htg, <- app_assoc.
              now rewrite Hrows.
           ++ rewrite Hex. rewrite execs_app. simpl.
              rewrite <- app_assoc. simpl. now rewrite Hrows.
           ++ rewrite Htot. lia.
        -- destruct IH as (j & Hj & Hex).
           exists (S j). split; [lia|].
           rewrite fullBatches_cons by exact HX.
           rewrite (block_S _ _ _ HX).
           rewrite Hex, execs_app. simpl.
           rewrite <- app_assoc. simpl. now rewrite Hrows.
      * apply Nat.eqb_neq in Hfull.
        match goal with
        | |- context [loop L eng db stream ?s] =>
            specialize (IH s (buf ++ [fields]))
        end.
        match type of IH with
        | ?P -> _ => assert (HB' : P)
        end.
        { repeat split; simpl; auto.
          - rewrite Hv, concat_app. simpl. now rewrite app_nil_r.
          - apply Forall_app; split; auto.
          - rewrite length_app. simpl. lia.
          - rewrite length_app. simpl. lia. }
        specialize (IH HB' Hp').
        simpl in IH. rewrite <- app_assoc in IH. exact IH.
    + match goal with
      | |- context [loop L eng db stream ?s] =>
          specialize (IH s buf)
      end.
      match type of IH with
      | ?P -> _ => assert (HB' : P)
      end.
      { destruct HB as (Hv & Hall & Hc & Hlt & Hst & Htg).
        repeat split; simpl; auto. }
      specialize (IH HB' Hp').
      simpl in IH. rewrite execs_app in IH. simpl in IH.
      rewrite app_nil_r in IH. exact IH.
Qed.

(** A loop that reaches the end of the stream met only records it could
    index. *)
Lemma loop_break_pickable (stream : list ReadResult) :
  forall st st',
    loop L eng db stream st = Break st' -> pickable L stream.
Proof.
  induction stream as [|item stream IH]; intros st st' Hloop.
  - constructor.
  - destruct item as [record|k]; simpl in Hloop.
    + destruct (l_pick L record) as [fields|] eqn:Hpick; [|discriminate].
      assert (Hrest : pickable L stream).
      { destruct (validRowCount (vars st) + 1 =? batchSize).
        - destruct (Exec eng db (tx st) _ _) as [tx' [e|]];
            [discriminate|]. eapply IH; eauto.
        - eapply IH; eauto. }
      constructor; [congruence|exact Hrest].
    + constructor; [exact I|]. eapply IH; eauto.
Qed.

End LoopFacts.

(* ================================================================== *)
(** ** Every run has one of the five shapes *)

Lemma inserted_app (ncols : nat) (a b : list Event) :
  inserted ncols (a ++ b) = inserted ncols a ++ inserted ncols b.
Proof.
  induction a as [|ev a IH]; [reflexivity|].
  destruct ev as [| | ? ? ? [e|] | | |]; simpl; rewrite ?IH;
    try reflexivity.
  now rewrite app_assoc.
Qed.

Section Runs.

Variable L : Loader.
Variable eng : Engine.
Variable db : DB.
Hypothesis HL : wellFormed L.

Lemma Buffered_init (evs : list Event) :
  Buffered L (mkLoop (mkVars [] (l_insert L) 0 0 1)
                     (mkTx TxOpen (l_table L) []) evs) [].
Proof.
  repeat split; simpl; auto. rewrite batchSize_eq. lia.
Qed.

Lemma Buffered_remainder (st : LoopState) (buf : list Row) :
  Buffered L st buf ->
  (0 <? List.length (values (vars st))) = true ->
  rows (columns (l_table L)) (values (vars st)) = buf /\
  remainderRows (columns (l_table L)) (values (vars st)).
Proof.
  intros (Hv & Hall & Hc & Hlt & Hst & Htg) Hpos.
  assert (Hrows : rows (columns (l_table L)) (values (vars st)) = buf).
  { rewrite Hv. apply rows_concat; [apply columns_pos|exact Hall]. }
  split; [exact Hrows|].
  unfold remainderRows. rewrite Hrows. split; [|exact Hlt].
  apply Nat.ltb_lt in Hpos. rewrite Hv in Hpos.
  destruct buf; simpl in *; lia.
Qed.

(** After the loop: the remainder and the commit. *)
Lemma finish_shape (st : LoopState) (buf : list Row) (new : list Event) :
  Buffered L st buf ->
  log st = EvBegin :: new ->
  loopEvents (columns (l_table L)) new ->
  pending (tx st) = inserted (columns (l_table L)) new ->
  RunShape L db (finish L eng db st).
Proof.
  intros HB Hlog Hnew Hpend.
  pose proof HB as (Hv & Hall & Hc & Hlt & Hst & Htg).
  unfold finish.
  destruct (0 <? List.length (values (vars st))) eqn:Hpos.
  - destruct (Buffered_remainder st buf HB Hpos) as (Hrows & Hrem).
    rewrite (Exec_open _ _ _ _ _ Hst).
    destruct (exec_err eng db (pending (tx st)) _ _) as [e|] eqn:He.
    + cbn [tx log]. rewrite Hlog.
      apply (RunRemainderRejected L db new); auto.
    + unfold Commit. cbn [tx log status target pending].
      rewrite Hlog, Htg, Hpend.
      set (rem := [EvExec Remainder (dropLast (insertStmt (vars st)))
                          (values (vars st)) None]).
      assert (Hins : inserted (columns (l_table L)) new
                       ++ rows (columns (l_table L)) (values (vars st))
                     = inserted (columns (l_table L)) (new ++ rem)).
      { rewrite inserted_app. subst rem. simpl. now rewrite app_nil_r. }
      assert (Hok : remainderOk (columns (l_table L)) rem).
      { right. eexists _, _. split; [reflexivity|exact Hrem]. }
      destruct (commit_err eng db _) as [e|].
      * replace ((EvBegin :: new) ++ rem) with (EvBegin :: new ++ rem)
          by reflexivity.
        cbn [app]. rewrite <- app_assoc.
        apply (RunCommitRejected L db new rem); auto.
      * rewrite Hins.
        replace (((EvBegin :: new) ++ rem)
                 ++ [EvCommit None; EvTotal _])
          with (EvBegin :: new ++ rem ++ [EvCommit None; EvTotal
                  (totalMovies (vars st)
                   + List.length (values (vars st)) / (columns (l_table L)))])
          by (cbn [app]; now rewrite <- app_assoc).
        apply (RunCommitted L db new rem); auto.
  - unfold Commit. rewrite Hst, Hlog, Htg, Hpend.
    assert (Hok : remainderOk (columns (l_table L)) []) by (now left).
    destruct (commit_err eng db _) as [e|].
    + replace ((EvBegin :: new) ++ [EvCommit (Some e)])
        with (EvBegin :: new ++ [] ++ [EvCommit (Some e)]) by reflexivity.
      apply (RunCommitRejected L db new []); auto.
    + replace (inserted (columns (l_table L)) new)
        with (inserted (columns (l_table L)) (new ++ []))
        by (now rewrite app_nil_r).
      replace ((EvBegin :: new) ++ [EvCommit None; EvTotal _])
        with (EvBegin :: new ++ [] ++ [EvCommit None;
                EvTotal (totalMovies (vars st))]) by reflexivity.
      apply (RunCommitted L db new []); auto.
Qed.

(** Every run that gets past the header and [db.Begin] has one of the
    five shapes. *)
Lemma populate_run (header : list string) (stream : list ReadResult) :
  validateHeaders (l_name L) header = true ->
  begin_err eng db = None ->
  RunShape L db (populate L eng db (inr (Rec header :: stream))).
Proof.
  intros Hvalid Hbegin.
  unfold populate, Begin. rewrite Hvalid, Hbegin.
  cbn [negb deferred].
  destruct (loop_events L eng db HL stream _ [] (Buffered_init [EvBegin]))
    as (new & Hlog & Hnew & Hst & Htg & Hpend & Hcase).
  cbn [log tx pending app] in Hlog, Hpend.
  destruct (loop L eng db stream _) as [st|e st|st]; cbn [exitState] in *.
  - destruct Hcase as (Hnf & buf & HB).
    apply (finish_shape st buf new); auto. split; auto.
  - destruct Hcase as (pre & stmt & vals & -> & Hpre).
    rewrite Hlog.
    apply Forall_app in Hnew as (Hpre' & Hlast).
    inversion Hlast as [|? ? Hev _]; subst.
    apply (RunBatchRejected L db pre); auto.
    + split; auto.
    + simpl in Hev. now apply Nat.eqb_eq in Hev.
  - rewrite Hlog. apply (RunPanic L db new); auto. split; auto.
Qed.

End Runs.

(* ================================================================== *)
(** ** The inserts of a run over well-formed records *)

Lemma concat_rows_nil (ncols : nat) (rs : list Row) :
  0 < ncols ->
  Forall (fun r => List.length r = ncols) rs ->
  List.concat rs = [] -> rs = [].
Proof.
  intros Hpos Hall Hnil. destruct rs as [|r rs]; [reflexivity|].
  inversion Hall as [|? ? Hr _]; subst.
  simpl in Hnil. apply app_eq_nil in Hnil as (-> & _). simpl in Hpos. lia.
Qed.

Lemma length_full_part (R : list Row) :
  List.length R
  = batchSize * (List.length R / batchSize) + List.length (restOf R).
Proof.
  unfold restOf. rewrite length_skipn.
  pose proof (Nat.Div0.mul_div_le (List.length R) batchSize). lia.
Qed.

Section Loads.

Variable L : Loader.
Variable eng : Engine.
Variable db : DB.
Hypothesis HL : wellFormed L.

Lemma populate_loaded (header : list string) (stream : list ReadResult) :
  validateHeaders (l_name L) header = true ->
  begin_err eng db = None ->
  pickable L stream ->
  Loaded L db (picked L stream)
         (populate L eng db (inr (Rec header :: stream))).
Proof.
  intros Hvalid Hbegin Hp.
  unfold populate, Begin. rewrite Hvalid, Hbegin.
  cbn [negb deferred].
  pose proof (loop_break L eng db HL stream _ []
                         (Buffered_init L [EvBegin]) Hp) as Hloop.
  cbn [app] in Hloop. cbv zeta in Hloop.
  set (R := picked L stream) in *.
  set (q := List.length R / batchSize) in *.
  destruct (loop L eng db stream _) as [st|e st|st]; [| |contradiction].
  - destruct Hloop as (HB & Hpend & Hex & Htot).
    cbn [tx log pending vars totalMovies app execs] in Hpend, Hex, Htot.
    change (skipn (batchSize * q) R) with (restOf R) in HB.
    pose proof HB as (Hv & Hall & Hc & Hlt & Hst & Htg).
    assert (HR : firstn (batchSize * q) R ++ restOf R = R)
      by apply firstn_skipn.
    unfold finish.
    destruct (0 <? List.length (values (vars st))) eqn:Hpos.
    + destruct (Buffered_remainder L st _ HB Hpos) as (Hrows & Hrem).
      assert (Hne : restOf R <> []).
      { intros Hnil. unfold remainderRows in Hrem.
        rewrite Hrows, Hnil in Hrem. simpl in Hrem. lia. }
      rewrite (Exec_open _ _ _ _ _ Hst).
      destruct (exec_err eng db (pending (tx st)) _ _) as [e|] eqn:He.
      * apply (LoadedRemainderRejected L db R _ e); auto.
        cbn [trace log]. rewrite execs_app, Hex. simpl.
        now rewrite Hrows.
      * assert (Hexecs :
          execs (columns (l_table L))
            (log st ++ [EvExec Remainder (dropLast (insertStmt (vars st)))
                               (values (vars st)) None])
          = batchesOf R).
        { rewrite execs_app, Hex. simpl. rewrite Hrows.
          unfold batchesOf. fold q.
          destruct (restOf R); [congruence|reflexivity]. }
        unfold Commit. cbn [tx log status target pending vars totalMovies].
        destruct (commit_err eng db _) as [e|].
        -- apply (LoadedCommitRejected L db R _ e); auto.
           ++ cbn [trace]. rewrite execs_app, Hexecs. simpl.
              now rewrite app_nil_r.
           ++ cbn [trace]. apply in_or_app. right. now left.
        -- apply LoadedCommitted; auto.
           ++ cbn [trace]. rewrite execs_app, Hexecs. simpl.
              now rewrite app_nil_r.
           ++ cbn [db_after]. rewrite Htg, Hpend.
              now rewrite Hrows, HR.
           ++ cbn [trace]. apply in_or_app. right. right. left.
              f_equal. rewrite Htot.
              rewrite Hv, (length_concat_rows (columns (l_table L))) by exact Hall.
              rewrite (Nat.mul_comm (columns (l_table L))), Nat.div_mul
                by (pose proof (columns_pos (l_table L)); lia).
              rewrite (length_full_part R). fold q.
              rewrite batchSize_eq. simpl. lia.
    + assert (Hnil : restOf R = []).
      { apply Nat.ltb_ge in Hpos.
        apply (concat_rows_nil (columns (l_table L))); [apply columns_pos|exact Hall|].
        rewrite <- Hv. destruct (values (vars st)); [reflexivity|].
        simpl in Hpos. lia. }
      assert (Hexecs : execs (columns (l_table L)) (log st) = batchesOf R).
      { rewrite Hex. unfold batchesOf. rewrite Hnil.
        now rewrite app_nil_r. }
      rewrite Hnil, app_nil_r in HR.
      unfold Commit. rewrite Hst.
      destruct (commit_err eng db _) as [e|].
      * apply (LoadedCommitRejected L db R _ e); auto.
        -- cbn [trace]. rewrite execs_app, Hexecs. simpl.
           now rewrite app_nil_r.
        -- cbn [trace]. apply in_or_app. right. now left.
      * apply LoadedCommitted; auto.
        -- cbn [trace]. rewrite execs_app, Hexecs. simpl.
           now rewrite app_nil_r.
        -- cbn [db_after]. now rewrite Htg, Hpend, HR.
        -- cbn [trace]. apply in_or_app. right. right. left.
           f_equal. rewrite Htot.
           rewrite (length_full_part R), Hnil. fold q.
           rewrite batchSize_eq. simpl. lia.
  - destruct Hloop as (j & Hj & Hex).
    cbn [log execs app] in Hex.
    apply (LoadedBatchRejected L db R _ j e); auto.
Qed.

End Loads.

(* ================================================================== *)
(** ** Runs that end before the transaction *)

(** A call either ends before [db.Begin] succeeds, with the database
    untouched and nothing done, or it is a run of one of the five shapes. *)
Lemma populate_cases (L : Loader) (eng : Engine) (db : DB)
      (file : GoError + list ReadResult) :
  wellFormed L ->
  (exists r, populate L eng db file = mkOutcome (Returned r) db None [])
  \/ RunShape L db (populate L eng db file).
Proof.
  intros HL.
  destruct file as [e|[|[header|k] stream]];
    try (left; eexists; reflexivity).
  destruct (validateHeaders (l_name L) header) eqn:Hvalid.
  - destruct (begin_err eng db) as [e|] eqn:Hbegin.
    + left. exists (Some e). unfold populate, Begin.
      now rewrite Hvalid, Hbegin.
    + right. now apply populate_run.
  - left. exists None. unfold populate. now rewrite Hvalid.
Qed.

(** A header that fails validation ends the call at once: nothing is
    read into a batch, nothing is begun or inserted, the database is as it
    was, and the result is the [err] of the header read, which is [nil]. *)
Lemma populate_invalid_header (L : Loader) (eng : Engine) (db : DB)
      (header : list string) (stream : list ReadResult) :
  validateHeaders (l_name L) header = false ->
  populate L eng db (inr (Rec header :: stream))
  = mkOutcome (Returned None) db None [].
Proof.
  intros Hvalid. unfold populate. now rewrite Hvalid.
Qed.

Lemma populate_invalid_header_witness :
  validateHeaders (l_name moviesLoader) ["name"; "id"; "year"; "rank"]
  = false /\
  populate moviesLoader acceptAll emptyDB
    (inr [Rec ["name"; "id"; "year"; "rank"]; Rec ["A"; "1"; "1999"; "5"]])
  = mkOutcome (Returned None) emptyDB None [].
Proof.
  assert (H : validateHeaders (l_name moviesLoader)
                ["name"; "id"; "year"; "rank"] = false) by reflexivity.
  exact (conj H (populate_invalid_header moviesLoader acceptAll emptyDB
                   _ [Rec ["A"; "1"; "1999"; "5"]] H)).
Defined.

Lemma loopEvent_kind (ncols : nat) (ev : Event) :
  loopEvent ncols ev = true ->
  is_commit ev = false /\ is_rollback ev = false.
Proof.
  destruct ev as [| | [|] ? ? ? | | |]; simpl; intros H;
    try discriminate; auto.
Qed.

Lemma loopEvents_commits (ncols : nat) (new : list Event) :
  loopEvents ncols new -> commits new = 0 /\ rollbacks new = 0.
Proof.
  intros (Hnew & _). unfold commits, rollbacks.
  induction Hnew as [|ev new Hev _ IH]; [auto|].
  destruct (loopEvent_kind _ _ Hev) as (Hc & Hr).
  simpl. now rewrite Hc, Hr.
Qed.

Lemma remainderOk_commits (ncols : nat) (rem : list Event) :
  remainderOk ncols rem ->
  commits rem = 0 /\ rollbacks rem = 0 /\
  Forall (fun ev => failed ev = false) rem.
Proof.
  intros [->|(stmt & vals & -> & _)]; repeat split; auto.
Qed.

Lemma commits_app (a b : list Event) :
  commits (a ++ b) = commits a + commits b.
Proof. unfold commits. now rewrite filter_app, length_app. Qed.

Lemma rollbacks_app (a b : list Event) :
  rollbacks (a ++ b) = rollbacks a + rollbacks b.
Proof. unfold rollbacks. now rewrite filter_app, length_app. Qed.

(** No shape of a run holds a call of [tx.Rollback]. *)
Lemma RunShape_rollbacks (L : Loader) (db : DB) (o : Outcome) :
  RunShape L db o -> rollbacks (trace o) = 0.
Proof.
  intros [new t Hnew _ | pre stmt vals e t Hpre _ _
          | new stmt vals e t Hnew _ _ | new rem e t Hnew Hrem _
          | new rem n t Hnew Hrem _]; cbn [trace];
    change (EvBegin :: ?l) with ([EvBegin] ++ l);
    rewrite ?rollbacks_app;
    try destruct (remainderOk_commits _ _ Hrem) as (_ & -> & _);
    try destruct (loopEvents_commits _ _ Hnew) as (_ & ->);
    try destruct (loopEvents_commits _ _ Hpre) as (_ & ->);
    reflexivity.
Qed.

Lemma populate_no_rollback (L : Loader) (eng : Engine) (db : DB)
      (file : GoError + list ReadResult) :
  wellFormed L -> rollbacks (trace (populate L eng db file)) = 0.
Proof.
  intros HL.
  destruct (populate_cases L eng db file HL) as [(r & ->)|Hrun];
    [reflexivity|].
  now apply (RunShape_rollbacks L db).
Qed.

Lemma RunShape_all_or_nothing (L : Loader) (db : DB) (o : Outcome) :
  RunShape L db o -> AllOrNothing db o.
Proof.
  intros [new t Hnew _ | pre stmt vals e t Hpre _ _
          | new stmt vals e t Hnew _ _ | new rem e t Hnew Hrem _
          | new rem n t Hnew Hrem _];
    try (split; [|split]; cbn [db_after ret trace]; auto;
         intros Hne; exfalso; apply Hne; reflexivity).
  destruct Hnew as (_ & Hnf).
  destruct (remainderOk_commits _ _ Hrem) as (_ & _ & Hrf).
  assert (Hall : forall ev,
             In ev (EvBegin :: new ++ rem ++ [EvCommit None; EvTotal n]) ->
             failed ev = false).
  { intros ev [<-|Hin]; [reflexivity|].
    apply in_app_or in Hin as [Hin|Hin];
      [eapply Forall_forall in Hnf; eauto|].
    apply in_app_or in Hin as [Hin|Hin];
      [eapply Forall_forall in Hrf; eauto|].
    destruct Hin as [<-|[<-|[]]]; reflexivity. }
  split; [|split].
  - intros (ev & Hin & Hf). cbn [trace] in Hin.
    rewrite (Hall ev Hin) in Hf. discriminate.
  - cbn [ret]. congruence.
  - intros _. cbn [ret trace]. repeat split; auto.
    right. apply in_or_app. right. apply in_or_app. right. now left.
Qed.

Lemma populate_all_or_nothing (L : Loader) (eng : Engine) (db : DB)
      (file : GoError + list ReadResult) :
  wellFormed L -> AllOrNothing db (populate L eng db file).
Proof.
  intros HL.
  destruct (populate_cases L eng db file HL) as [(r & ->)|Hrun].
  - split; [|split]; cbn [db_after trace]; auto.
    intros Hne. exfalso. apply Hne. reflexivity.
  - now apply RunShape_all_or_nothing with (L := L).
Qed.

Example moviesFile_3 :
  Csv.records (Csv.setLazyQuotes (Csv.NewReader (moviesFile [1; 2])) true)
  = [Rec ["id"; "name"; "year"; "rank"];
     Rec ["1"; "Movie"; "1999"; "6.5"];
     Rec ["2"; "Movie"; "1999"; "6.5"]].
Proof. vm_compute. reflexivity. Qed.

(* ================================================================== *)
(** ** The load transaction *)

(** C1.  The load of a table is all-or-nothing.  For every engine,
    database and file, and for both loaders: if any insert or the commit
    was rejected, the database after the call is the database before it,
    so no row of this load is in the table, the rows of the batches
    accepted earlier included; the same holds whenever the call does not
    return nil; and the table changes only in a run that returns nil,
    in which every insert and the commit succeeded. *)
Theorem load_all_or_nothing :
  forall (eng : Engine) (db : DB) (file : GoError + string),
    AllOrNothing db (populateMovies eng db file) /\
    AllOrNothing db (populateMoviesGenres eng db file).
Proof.
  intros eng db file. split.
  - apply populate_all_or_nothing, moviesLoader_wellFormed.
  - apply populate_all_or_nothing, moviesGenresLoader_wellFormed.
Qed.

(** The scenario of the spec: the insert of rows 401-500 repeats an id;
    the 400 rows inserted before it are not in the table. *)
Example rows_401_500_rejected :
  let o := populateMovies primaryKey emptyDB
             (inr (moviesFile (seq 1 449 ++ [7] ++ seq 451 80))) in
  map (fun x => (fst (fst x), List.length (snd (fst x)), snd x))
      (execs 4 (trace o))
  = [(FullBatch, 100, None); (FullBatch, 100, None);
     (FullBatch, 100, None); (FullBatch, 100, None);
     (FullBatch, 100, Some (ErrSQL "UNIQUE constraint failed: movies.id"))]
  /\ ret o = Returned (Some (ErrSQL "UNIQUE constraint failed: movies.id"))
  /\ db_after o = emptyDB.
Proof. vm_compute. repeat split. Qed.

(** A load whose inserts and commit succeed leaves its rows. *)
Example rows_committed :
  let o := populateMovies primaryKey emptyDB (inr (moviesFile [1; 2])) in
  ret o = Returned None /\
  movies (db_after o)
  = [["1"; "Movie"; "1999"; "6.5"]; ["2"; "Movie"; "1999"; "6.5"]].
Proof. vm_compute. repeat split. Qed.

(** C4.  What the code does when the engine rejects an insert or the
    commit: the call stops and returns the error, but [tx.Rollback] is
    never invoked, because the deferred closure tests the [err] of the
    function's scope, which is nil once [db.Begin] has succeeded.  No run
    of either loader holds a rollback; in the first run below the
    remainder batch repeats id 7, the error is returned, and the
    transaction is left open with the 100 rows of the first batch; in the
    second the commit fails and no rollback follows either. *)
Theorem rejected_insert_not_rolled_back :
  (forall (eng : Engine) (db : DB) (file : GoError + string),
      rollbacks (trace (populateMovies eng db file)) = 0 /\
      rollbacks (trace (populateMoviesGenres eng db file)) = 0) /\
  (let o := populateMovies primaryKey emptyDB
              (inr (moviesFile (seq 1 120 ++ [7]))) in
   ret o = Returned (Some (ErrSQL "UNIQUE constraint failed: movies.id")) /\
   map (fun x => (fst (fst x), List.length (snd (fst x)), snd x))
       (execs 4 (trace o))
   = [(FullBatch, 100, None);
      (Remainder, 21, Some (ErrSQL "UNIQUE constraint failed: movies.id"))] /\
   rollbacks (trace o) = 0 /\
   option_map status (tx_after o) = Some TxOpen /\
   option_map (fun t => List.length (pending t)) (tx_after o) = Some 100) /\
  (let o := populateMovies commitFails emptyDB (inr (moviesFile [1; 2])) in
   ret o = Returned (Some (ErrSQL "disk I/O error")) /\
   In (EvCommit (Some (ErrSQL "disk I/O error"))) (trace o) /\
   rollbacks (trace o) = 0).
Proof.
  split; [|split].
  - intros eng db file. split.
    + apply populate_no_rollback, moviesLoader_wellFormed.
    + apply populate_no_rollback, moviesGenresLoader_wellFormed.
  - vm_compute. repeat split.
  - vm_compute. repeat split. right. right. now left.
Qed.

(** C3.  What the code does when the header fails validation: no row is
    read into a batch and nothing is begun or inserted, but the call
    returns nil, the [err] left by the header read, not an error.  The
    first file has the first two columns swapped, the second one has the
    two columns of [movies_genres] swapped. *)
Theorem invalid_header_returns_nil :
  validateHeaders "movies" ["name"; "id"; "year"; "rank"] = false /\
  populateMovies acceptAll emptyDB
    (inr ("name,id,year,rank" ++ NL ++ "Movie,1,1999,6.5" ++ NL)%string)
  = mkOutcome (Returned None) emptyDB None [] /\
  validateHeaders "movies_genres" ["genre"; "movie_id"] = false /\
  populateMoviesGenres acceptAll emptyDB
    (inr ("genre,movie_id" ++ NL ++ "Drama,1" ++ NL)%string)
  = mkOutcome (Returned None) emptyDB None [].
Proof. vm_compute. repeat split. Qed.

(* ================================================================== *)
(** ** Loads that succeed *)

Lemma picked_skipped (L : Loader) (stream : list ReadResult) :
  pickable L stream ->
  List.length (picked L stream) + skipped stream = List.length stream.
Proof.
  unfold skipped.
  induction 1 as [|[record|k] stream Hx _ IH]; simpl; [reflexivity| |].
  - destruct (l_pick L record); [|congruence]. simpl. now rewrite IH.
  - rewrite <- IH. lia.
Qed.

Lemma picked_length (L : Loader) (stream : list ReadResult) :
  pickable L stream ->
  List.length (picked L stream) = List.length stream - skipped stream.
Proof. intros Hp. pose proof (picked_skipped L stream Hp). lia. Qed.

(** A call that returns nil after an accepted header began its
    transaction and met only records it could index. *)
Lemma populate_returned_nil (L : Loader) (eng : Engine) (db : DB)
      (header : list string) (stream : list ReadResult) :
  validateHeaders (l_name L) header = true ->
  ret (populate L eng db (inr (Rec header :: stream))) = Returned None ->
  begin_err eng db = None /\ pickable L stream.
Proof.
  intros Hvalid. unfold populate, Begin. rewrite Hvalid.
  destruct (begin_err eng db) as [e|]; [discriminate|].
  cbn [negb deferred].
  destruct (loop L eng db stream _) as [st|e st|st] eqn:Hloop;
    [|discriminate|discriminate].
  intros _. split; [reflexivity|].
  eapply loop_break_pickable; eauto.
Qed.

Lemma RunShape_commits (L : Loader) (db : DB) (o : Outcome) :
  RunShape L db o -> ret o = Returned None -> commits (trace o) = 1.
Proof.
  intros [new t Hnew _ | pre stmt vals e t Hpre _ _
          | new stmt vals e t Hnew _ _ | new rem e t Hnew Hrem _
          | new rem n t Hnew Hrem _]; cbn [ret trace]; try discriminate.
  intros _.
  change (EvBegin :: ?l) with ([EvBegin] ++ l).
  rewrite !commits_app.
  destruct (remainderOk_commits _ _ Hrem) as (-> & _).
  destruct (loopEvents_commits _ _ Hnew) as (-> & _).
  reflexivity.
Qed.

(** What a successful load did. *)
Lemma populate_success (L : Loader) (eng : Engine) (db : DB)
      (header : list string) (stream : list ReadResult) :
  wellFormed L ->
  validateHeaders (l_name L) header = true ->
  let o := populate L eng db (inr (Rec header :: stream)) in
  ret o = Returned None ->
  pickable L stream /\
  execs (columns (l_table L)) (trace o) = batchesOf (picked L stream) /\
  db_after o = addRows (l_table L) (picked L stream) db /\
  In (EvTotal (List.length (picked L stream))) (trace o) /\
  commits (trace o) = 1.
Proof.
  intros HL Hvalid o Hret.
  destruct (populate_returned_nil L eng db header stream Hvalid Hret)
    as (Hbegin & Hp).
  pose proof (populate_run L eng db HL header stream Hvalid Hbegin) as Hrun.
  pose proof (populate_loaded L eng db HL header stream Hvalid Hbegin Hp)
    as Hload.
  fold o in Hrun, Hload.
  split; [exact Hp|].
  destruct Hload as [j e _ _ Hr _ | e _ _ Hr _ | e _ Hr _ _ | Hex _ Hdb Htot];
    try (rewrite Hr in Hret; discriminate).
  repeat split; auto.
  now apply (RunShape_commits L db).
Qed.

Lemma tableOf_addRows (t : TableId) (rs : list Row) (db : DB) :
  tableOf t (addRows t rs db) = tableOf t db ++ rs.
Proof. destruct t; reflexivity. Qed.

Lemma batchesOf_250 (R : list Row) :
  List.length R = 250 ->
  batchesOf R
  = [(FullBatch, firstn 100 R, None);
     (FullBatch, firstn 100 (skipn 100 R), None);
     (Remainder, skipn 200 R, None)].
Proof.
  intros HR. unfold batchesOf, restOf, fullBatches, block.
  rewrite HR, batchSize_eq.
  change (250 / 100) with 2.
  change (100 * 2) with 200. change (100 * 1) with 100.
  change (100 * 0) with 0.
  cbn [seq map app]. change (skipn 0 R) with R.
  destruct (skipn 200 R) as [|r rest] eqn:Hrest; [|reflexivity].
  apply (f_equal (@List.length Row)) in Hrest.
  rewrite length_skipn, HR in Hrest. simpl in Hrest. lia.
Qed.

(** C5.  Round trip.  For every load that succeeds (the header is
    accepted and the call returns nil, so every insert and the commit
    succeeded): the table holds afterwards the rows it held before
    followed by one row per record read, in order; their number is the
    number of records read minus the number skipped for a decode
    failure; and the transaction is committed exactly once.  With 250
    records and none skipped, the inserts are two full batches of rows
    1-100 and 101-200 and one remainder batch of rows 201-250, and the
    total reported is 250. *)
Theorem load_round_trip :
  forall (L : Loader) (eng : Engine) (db : DB)
         (header : list string) (stream : list ReadResult),
    wellFormed L ->
    validateHeaders (l_name L) header = true ->
    let o := populate L eng db (inr (Rec header :: stream)) in
    let R := picked L stream in
    ret o = Returned None ->
    tableOf (l_table L) (db_after o) = tableOf (l_table L) db ++ R /\
    List.length (tableOf (l_table L) (db_after o))
    = List.length (tableOf (l_table L) db)
      + (List.length stream - skipped stream) /\
    commits (trace o) = 1 /\
    (List.length stream = 250 -> skipped stream = 0 ->
     execs (columns (l_table L)) (trace o)
     = [(FullBatch, firstn 100 R, None);
        (FullBatch, firstn 100 (skipn 100 R), None);
        (Remainder, skipn 200 R, None)] /\
     List.length (firstn 100 R) = 100 /\
     List.length (firstn 100 (skipn 100 R)) = 100 /\
     List.length (skipn 200 R) = 50 /\
     In (EvTotal 250) (trace o)).
Proof.
  intros L eng db header stream HL Hvalid o R Hret.
  destruct (populate_success L eng db header stream HL Hvalid Hret)
    as (Hp & Hex & Hdb & Htot & Hc).
  fold o in Hex, Hdb, Htot, Hc. fold R in Hex, Hdb, Htot.
  pose proof (picked_length L stream Hp) as Hlen. fold R in Hlen.
  split; [|split; [|split]].
  - rewrite Hdb. apply tableOf_addRows.
  - rewrite Hdb, tableOf_addRows, length_app. lia.
  - exact Hc.
  - intros H250 Hskip.
    assert (HR : List.length R = 250) by lia.
    rewrite Hex, (batchesOf_250 R HR).
    rewrite length_firstn, length_firstn, !length_skipn, HR.
    rewrite HR in Htot.
    repeat split; auto.
Qed.

Lemma load_round_trip_witness :
  let stream := sampleStream (seq 1 250) in
  let o := populate moviesLoader primaryKey emptyDB
             (inr (Rec ["id"; "name"; "year"; "rank"] :: stream)) in
  validateHeaders "movies" ["id"; "name"; "year"; "rank"] = true /\
  ret o = Returned None /\
  List.length (tableOf Movies (db_after o))
  = List.length (tableOf Movies emptyDB)
    + (List.length stream - skipped stream) /\
  commits (trace o) = 1 /\
  In (EvTotal 250) (trace o).
Proof.
  intros stream o.
  assert (Hvalid : validateHeaders "movies" ["id"; "name"; "year"; "rank"]
                   = true) by reflexivity.
  assert (Hret : ret o = Returned None) by (vm_compute; reflexivity).
  pose proof (load_round_trip moviesLoader primaryKey emptyDB
                ["id"; "name"; "year"; "rank"] stream
                moviesLoader_wellFormed Hvalid Hret) as H.
  destruct H as (_ & Hn & Hc & H250).
  assert (H1 : List.length stream = 250) by (vm_compute; reflexivity).
  assert (H2 : skipped stream = 0) by (vm_compute; reflexivity).
  destruct (H250 H1 H2) as (_ & _ & _ & _ & Htot).
  exact (conj Hvalid (conj Hret (conj Hn (conj Hc Htot)))).
Defined.

(* ================================================================== *)
(** ** The batches *)

Lemma remainderRows_sized (ncols : nat) (site : ExecSite)
      (vals : list string) (err : error) :
  remainderRows ncols vals -> sized (site, rows ncols vals, err).
Proof. unfold remainderRows, sized, batchRows. cbn [fst snd]. lia. Qed.

Lemma loopEvents_sized (ncols : nat) (new : list Event) :
  Forall (fun ev => loopEvent ncols ev = true) new ->
  Forall sized (execs ncols new).
Proof.
  induction 1 as [|ev new Hev _ IH]; [constructor|].
  destruct ev as [| | [|] stmt vals err | | |]; simpl in *;
    try discriminate; auto.
  constructor; [|exact IH].
  apply Nat.eqb_eq in Hev. unfold sized, batchRows. simpl.
  rewrite Hev, batchSize_eq. lia.
Qed.

Lemma remainderOk_sized (ncols : nat) (rem : list Event) :
  remainderOk ncols rem -> Forall sized (execs ncols rem).
Proof.
  intros [->|(stmt & vals & -> & Hrows)]; [constructor|].
  constructor; [|constructor]. now apply remainderRows_sized.
Qed.

Lemma RunShape_sized (L : Loader) (db : DB) (o : Outcome) :
  RunShape L db o -> Forall sized (execs (columns (l_table L)) (trace o)).
Proof.
  intros [new t (Hnew & _) _ | pre stmt vals e t (Hpre & _) Hfull _
          | new stmt vals e t (Hnew & _) Hrem _ | new rem e t (Hnew & _) Hrem _
          | new rem n t (Hnew & _) Hrem _]; cbn [trace execs].
  - now apply loopEvents_sized.
  - rewrite execs_app. apply Forall_app. split.
    + now apply loopEvents_sized.
    + constructor; [|constructor].
      unfold sized, batchRows. cbn [fst snd]. rewrite Hfull, batchSize_eq. lia.
  - rewrite execs_app. apply Forall_app. split.
    + now apply loopEvents_sized.
    + constructor; [|constructor]. now apply remainderRows_sized.
  - rewrite !execs_app. apply Forall_app. split.
    + now apply loopEvents_sized.
    + apply Forall_app. split.
      * now apply remainderOk_sized.
      * constructor.
  - rewrite !execs_app. apply Forall_app. split.
    + now apply loopEvents_sized.
    + apply Forall_app. split.
      * now apply remainderOk_sized.
      * constructor.
Qed.

Lemma fullBatches_length (R : list Row) (q : nat) :
  List.length (fullBatches R q) = q.
Proof. unfold fullBatches. now rewrite length_map, length_seq. Qed.

Lemma fullBatches_site (R : list Row) (q : nat) :
  Forall (fun x => batchSite x = FullBatch /\ batchErr x = None)
         (fullBatches R q).
Proof.
  unfold fullBatches. apply Forall_forall. intros x Hin.
  apply in_map_iff in Hin as (j & <- & _). now split.
Qed.

Lemma restOf_length (R : list Row) :
  List.length (restOf R) = List.length R mod batchSize.
Proof.
  pose proof (length_full_part R) as H1.
  pose proof (Nat.div_mod_eq (List.length R) batchSize) as H2.
  lia.
Qed.

(** C6.  Every batch handed to the transaction has between 1 and 100
    rows, in every run of a loader, whatever the file and the engine: a
    batch without rows is never executed.  And when the stream ends with
    a partly filled buffer (the number of rows is not a multiple of 100
    and no full batch was rejected on the way), that buffer is handed
    over exactly once, as the last insert, with its 1 to 99 rows. *)
Theorem batch_sizes :
  forall (L : Loader) (eng : Engine) (db : DB),
    wellFormed L ->
    (forall file,
        Forall (fun x => 1 <= List.length (batchRows x) <= 100)
               (execs (columns (l_table L)) (trace (populate L eng db file))))
    /\
    (forall header stream,
        validateHeaders (l_name L) header = true ->
        begin_err eng db = None ->
        pickable L stream ->
        let R := picked L stream in
        let E := execs (columns (l_table L))
                       (trace (populate L eng db (inr (Rec header :: stream)))) in
        (forall x, In x E -> batchSite x = FullBatch -> batchErr x = None) ->
        0 < List.length R mod 100 ->
        1 <= List.length (restOf R) <= 99 /\
        List.length (restOf R) = List.length R mod 100 /\
        exists err,
          E = fullBatches R (List.length R / 100)
              ++ [(Remainder, restOf R, err)]).
Proof.
  intros L eng db HL. split.
  - intros file.
    destruct (populate_cases L eng db file HL) as [(r & ->)|Hrun];
      [constructor|].
    apply RunShape_sized in Hrun.
    eapply Forall_impl; [|exact Hrun].
    intros x. unfold sized. rewrite batchSize_eq. auto.
  - intros header stream Hvalid Hbegin Hp R E Hfull Hmod.
    rewrite <- batchSize_eq in *.
    pose proof (restOf_length R) as Hlen.
    pose proof (Nat.mod_upper_bound (List.length R) batchSize) as Hub.
    assert (Hne : restOf R <> []).
    { intros Hnil. rewrite Hnil in Hlen. simpl in Hlen. lia. }
    split; [rewrite batchSize_eq in *; lia|]. split; [exact Hlen|].
    destruct (populate_loaded L eng db HL header stream Hvalid Hbegin Hp)
      as [j e _ Hex _ _ | e _ Hex _ _ | e Hex _ _ _ | Hex _ _ _];
      fold R in Hex; fold E in Hex.
    + exfalso.
      assert (Hin : In (FullBatch, block R j, Some e) E)
        by (rewrite Hex; apply in_or_app; right; now left).
      specialize (Hfull _ Hin eq_refl). discriminate.
    + now exists (Some e).
    + exists None. rewrite Hex. unfold batchesOf.
      destruct (restOf R); [congruence|reflexivity].
    + exists None. rewrite Hex. unfold batchesOf.
      destruct (restOf R); [congruence|reflexivity].
Qed.

Lemma pickableb_spec (L : Loader) (stream : list ReadResult) :
  pickableb L stream = true -> pickable L stream.
Proof.
  unfold pickableb, pickable. rewrite forallb_forall, Forall_forall.
  intros H x Hin. specialize (H x Hin).
  destruct x as [record|k]; [|exact I].
  destruct (l_pick L record); [discriminate|discriminate].
Qed.

Lemma fullAcceptedb_spec (E : list (ExecSite * list Row * error)) :
  fullAcceptedb E = true ->
  forall x, In x E -> batchSite x = FullBatch -> batchErr x = None.
Proof.
  unfold fullAcceptedb. rewrite forallb_forall.
  intros H x Hin Hsite. specialize (H x Hin).
  destruct x as [[site rs] [e|]]; [|reflexivity].
  unfold batchSite in Hsite. simpl in Hsite. subst site. discriminate.
Qed.

Lemma batch_sizes_witness :
  let stream := sampleStream (seq 1 120) in
  let R := picked moviesLoader stream in
  let E := execs 4 (trace (populate moviesLoader primaryKey emptyDB
                             (inr (Rec ["id"; "name"; "year"; "rank"]
                                       :: stream)))) in
  wellFormed moviesLoader /\
  validateHeaders "movies" ["id"; "name"; "year"; "rank"] = true /\
  begin_err primaryKey emptyDB = None /\
  pickable moviesLoader stream /\
  0 < List.length R mod 100 /\
  Forall (fun x => 1 <= List.length (batchRows x) <= 100) E /\
  List.length (restOf R) = List.length R mod 100 /\
  exists err,
    E = fullBatches R (List.length R / 100) ++ [(Remainder, restOf R, err)].
Proof.
  intros stream R E.
  pose proof (batch_sizes moviesLoader primaryKey emptyDB
                          moviesLoader_wellFormed) as (Hall & Hrem).
  assert (Hvalid : validateHeaders "movies" ["id"; "name"; "year"; "rank"]
                   = true) by reflexivity.
  assert (Hbegin : begin_err primaryKey emptyDB = None) by reflexivity.
  assert (Hp : pickable moviesLoader stream)
    by (apply pickableb_spec; vm_compute; reflexivity).
  assert (Hfull : forall x, In x E -> batchSite x = FullBatch ->
                            batchErr x = None)
    by (apply fullAcceptedb_spec; vm_compute; reflexivity).
  assert (Hmod : 0 < List.length R mod 100)
    by (vm_compute; repeat constructor).
  pose proof (Hrem ["id"; "name"; "year"; "rank"] stream
                   Hvalid Hbegin Hp Hfull Hmod) as (_ & Hlen & Hex).
  exact (conj moviesLoader_wellFormed
           (conj Hvalid (conj Hbegin (conj Hp (conj Hmod
              (conj (Hall _) (conj Hlen Hex))))))).
Defined.

(* ================================================================== *)
(** ** Batches by the number of rows *)

(** C7, as stated, fails.  A file with a header and no data row has
    n = 0 <= 100 valid rows, and no insert is executed, not exactly one.
    And with n = 200 rows and an engine that rejects the first insert,
    one full batch is executed, not n / 100 = 2. *)
Lemma one_batch_per_small_input_fails :
  (let stream := sampleStream [] in
   let o := populate moviesLoader acceptAll emptyDB
              (inr (Rec ["id"; "name"; "year"; "rank"] :: stream)) in
   List.length (picked moviesLoader stream) = 0 /\
   ret o = Returned None /\
   List.length (execs 4 (trace o)) = 0) /\
  (let stream := sampleStream (seq 1 200) in
   let o := populate moviesLoader rejectAll emptyDB
              (inr (Rec ["id"; "name"; "year"; "rank"] :: stream)) in
   List.length (picked moviesLoader stream) = 200 /\
   map batchSite (execs 4 (trace o)) = [FullBatch]).
Proof. vm_compute. repeat split. Qed.

Lemma block_0_all (R : list Row) :
  List.length R = batchSize -> block R 0 = R.
Proof.
  intros HR. unfold block. rewrite Nat.mul_0_r.
  change (skipn 0 R) with R. apply firstn_all2. lia.
Qed.

(** C7, amended.  For every load whose header is accepted, whose
    transaction has begun ([db.Begin] returned no error) and whose
    records read without error all have the fields the loader indexes,
    with n the number of those records:
    - if n = 0, no insert is executed;
    - if 0 < n < 100, exactly one insert is executed, the remainder, and
      it holds all n rows in their order;
    - if n = 100, exactly one insert is executed, a full batch with all
      the rows in their order, and no remainder;
    - if n = 100 k with k > 0, every insert executed is a full batch,
      there are at most k of them, and when the engine rejects none
      there are exactly k: the k blocks of 100 rows, in order. *)
Theorem batches_by_row_count :
  forall (L : Loader) (eng : Engine) (db : DB)
         (header : list string) (stream : list ReadResult),
    wellFormed L ->
    validateHeaders (l_name L) header = true ->
    begin_err eng db = None ->
    pickable L stream ->
    let R := picked L stream in
    let n := List.length R in
    let E := execs (columns (l_table L))
                   (trace (populate L eng db (inr (Rec header :: stream)))) in
    (n = 0 -> E = []) /\
    (0 < n < 100 -> exists err, E = [(Remainder, R, err)]) /\
    (n = 100 -> exists err, E = [(FullBatch, R, err)]) /\
    (forall k, 0 < k -> n = 100 * k ->
       Forall (fun x => batchSite x = FullBatch) E /\
       List.length E <= k /\
       ((forall x, In x E -> batchErr x = None) -> E = fullBatches R k)).
Proof.
  intros L eng db header stream HL Hvalid Hbegin Hp R n E.
  pose proof (populate_loaded L eng db HL header stream Hvalid Hbegin Hp)
    as Hload.
  fold R in Hload. fold E in Hload.
  rewrite <- batchSize_eq.
  pose proof batchSize_eq as HB.
  split; [|split; [|split]].
  - intros Hn.
    assert (HR : R = []) by (destruct R; [reflexivity|discriminate]).
    assert (Hq : List.length R / batchSize = 0)
      by (apply Nat.div_small; fold n; lia).
    assert (Hrest : restOf R = []) by (now rewrite HR).
    destruct Hload as [j e Hj Hex _ _ | e Hne Hex _ _ | e Hex _ _ _
                       | Hex _ _ _]; fold E in Hex.
    + lia.
    + congruence.
    + rewrite Hex. unfold batchesOf. now rewrite Hrest, Hq.
    + rewrite Hex. unfold batchesOf. now rewrite Hrest, Hq.
  - intros Hn.
    assert (Hq : List.length R / batchSize = 0)
      by (apply Nat.div_small; fold n; lia).
    assert (Hrest : restOf R = R)
      by (unfold restOf; rewrite Hq, Nat.mul_0_r; reflexivity).
    assert (HR : R <> []) by (intros HR; unfold n in Hn; rewrite HR in Hn;
                              simpl in Hn; lia).
    destruct Hload as [j e Hj Hex _ _ | e Hne Hex _ _ | e Hex _ _ _
                       | Hex _ _ _]; fold E in Hex.
    + lia.
    + exists (Some e). now rewrite Hex, Hq, Hrest.
    + exists None. rewrite Hex. unfold batchesOf. rewrite Hrest, Hq.
      destruct R; [congruence|reflexivity].
    + exists None. rewrite Hex. unfold batchesOf. rewrite Hrest, Hq.
      destruct R; [congruence|reflexivity].
  - intros Hn.
    assert (Hq : List.length R / batchSize = 1)
      by (fold n; rewrite Hn; apply Nat.div_same; lia).
    assert (Hrest : restOf R = [])
      by (unfold restOf; apply skipn_all2; rewrite Hq; fold n; lia).
    assert (Hb : block R 0 = R) by (apply block_0_all; exact Hn).
    destruct Hload as [j e Hj Hex _ _ | e Hne Hex _ _ | e Hex _ _ _
                       | Hex _ _ _]; fold E in Hex.
    + exists (Some e). assert (j = 0) by lia. subst j.
      now rewrite Hex, Hb.
    + congruence.
    + exists None. rewrite Hex. unfold batchesOf.
      rewrite Hrest, Hq, app_nil_r. unfold fullBatches. simpl.
      now rewrite Hb.
    + exists None. rewrite Hex. unfold batchesOf.
      rewrite Hrest, Hq, app_nil_r. unfold fullBatches. simpl.
      now rewrite Hb.
  - intros k Hk Hn.
    assert (Hq : List.length R / batchSize = k)
      by (fold n; rewrite Hn, Nat.mul_comm; apply Nat.div_mul; lia).
    assert (Hrest : restOf R = [])
      by (unfold restOf; apply skipn_all2; rewrite Hq; fold n; lia).
    assert (Hsites : forall j,
               Forall (fun x => batchSite x = FullBatch) (fullBatches R j)).
    { intros j. eapply Forall_impl; [|apply fullBatches_site].
      intros x (Hs & _). exact Hs. }
    destruct Hload as [j e Hj Hex _ _ | e Hne Hex _ _ | e Hex _ _ _
                       | Hex _ _ _]; fold E in Hex.
    + rewrite Hex. split; [|split].
      * apply Forall_app. split; [apply Hsites|].
        constructor; [reflexivity|constructor].
      * rewrite length_app, fullBatches_length. simpl. lia.
      * intros Hacc. exfalso.
        assert (Hin : In (FullBatch, block R j, Some e)
                         (fullBatches R j ++ [(FullBatch, block R j, Some e)]))
          by (apply in_or_app; right; now left).
        specialize (Hacc _ Hin). discriminate.
    + congruence.
    + rewrite Hex. unfold batchesOf. rewrite Hrest, Hq, app_nil_r.
      split; [apply Hsites|]. split; [|reflexivity].
      rewrite fullBatches_length. lia.
    + rewrite Hex. unfold batchesOf. rewrite Hrest, Hq, app_nil_r.
      split; [apply Hsites|]. split; [|reflexivity].
      rewrite fullBatches_length. lia.
Qed.

Lemma batches_by_row_count_witness :
  let stream := sampleStream (seq 1 200) in
  let R := picked moviesLoader stream in
  let E := execs 4 (trace (populate moviesLoader primaryKey emptyDB
                             (inr (Rec ["id"; "name"; "year"; "rank"]
                                       :: stream)))) in
  wellFormed moviesLoader /\
  validateHeaders "movies" ["id"; "name"; "year"; "rank"] = true /\
  begin_err primaryKey emptyDB = None /\
  pickable moviesLoader stream /\
  List.length R = 100 * 2 /\
  Forall (fun x => batchSite x = FullBatch) E /\
  List.length E <= 2.
Proof.
  intros stream R E.
  assert (Hvalid : validateHeaders "movies" ["id"; "name"; "year"; "rank"]
                   = true) by reflexivity.
  assert (Hbegin : begin_err primaryKey emptyDB = None) by reflexivity.
  assert (Hp : pickable moviesLoader stream)
    by (apply pickableb_spec; vm_compute; reflexivity).
  assert (Hn : List.length R = 100 * 2) by (vm_compute; reflexivity).
  pose proof (batches_by_row_count moviesLoader primaryKey emptyDB
                ["id"; "name"; "year"; "rank"] stream
                moviesLoader_wellFormed Hvalid Hbegin Hp)
    as (_ & _ & _ & Hk).
  pose proof (Hk 2 (Nat.lt_0_succ 1) Hn) as (Hsites & Hlen & _).
  exact (conj moviesLoader_wellFormed
           (conj Hvalid (conj Hbegin (conj Hp (conj Hn (conj Hsites Hlen)))))).
Defined.

(* ================================================================== *)
(** ** Lemmas on strings *)

Module StringFacts.

Lemma length_app (s t : string) :
  String.length (s ++ t) = String.length s + String.length t.
Proof. induction s as [|a s IH]; simpl; [reflexivity|now rewrite IH]. Qed.

Lemma app_assoc (s t u : string) : ((s ++ t) ++ u = s ++ (t ++ u))%string.
Proof. induction s as [|a s IH]; simpl; [reflexivity|now rewrite IH]. Qed.

Lemma app_nil_r (s : string) : (s ++ "")%string = s.
Proof. induction s as [|a s IH]; simpl; [reflexivity|now rewrite IH]. Qed.

Lemma contains_cons (a c : ascii) (s : string) :
  contains (String a s) c = false ->
  Ascii.eqb a c = false /\ contains s c = false.
Proof.
  unfold contains. simpl.
  destruct (Ascii.eqb a c); [discriminate|].
  destruct (IndexByte s c); [discriminate|auto].
Qed.

Lemma contains_app (s t : string) (c : ascii) :
  contains (s ++ t) c = contains s c || contains t c.
Proof.
  unfold contains. induction s as [|a s IH]; simpl; [reflexivity|].
  destruct (Ascii.eqb a c); [reflexivity|].
  destruct (IndexByte (s ++ t) c), (IndexByte s c); simpl in *; auto.
Qed.

Lemma IndexByte_here (s t : string) (c : ascii) :
  contains s c = false ->
  IndexByte (s ++ String c t) c = Some (String.length s).
Proof.
  induction s as [|a s IH]; simpl; intros H.
  - now rewrite Ascii.eqb_refl.
  - apply contains_cons in H as (Ha & Hs).
    now rewrite Ha, (IH Hs).
Qed.

Lemma IndexByte_none (s : string) (c : ascii) :
  contains s c = false -> IndexByte s c = None.
Proof. unfold contains. destruct (IndexByte s c); [discriminate|auto]. Qed.

Lemma take_app (s t : string) : take (String.length s) (s ++ t) = s.
Proof.
  induction s as [|a s IH]; simpl; [now destruct t|now rewrite IH].
Qed.

Lemma drop_app (s t : string) : drop (String.length s) (s ++ t) = t.
Proof. induction s as [|a s IH]; simpl; [reflexivity|exact IH]. Qed.

Lemma drop_app_1 (s t : string) (c : ascii) :
  drop (String.length s + 1) (s ++ String c t) = t.
Proof. induction s as [|a s IH]; simpl; [reflexivity|exact IH]. Qed.

Lemma lastByte_app (s : string) (c : ascii) :
  lastByte (s ++ String c "") = Some c.
Proof.
  induction s as [|a s IH]; [reflexivity|].
  simpl. destruct (s ++ String c "")%string eqn:E; [|exact IH].
  destruct s; discriminate.
Qed.

Lemma get_contains (s : string) (c : ascii) :
  contains s c = false ->
  forall i a, get i s = Some a -> Ascii.eqb a c = false.
Proof.
  induction s as [|b s IH]; intros H i a Hget; [discriminate|].
  apply contains_cons in H as (Hb & Hs).
  destruct i as [|i]; simpl in Hget.
  - now inversion Hget; subst.
  - eapply IH; eauto.
Qed.

Lemma drop_length (n : nat) (s : string) :
  String.length (drop n s) = String.length s - n.
Proof.
  revert s. induction n as [|n IH]; intros s.
  - simpl. lia.
  - destruct s as [|a s]; simpl; [reflexivity|apply IH].
Qed.

Lemma take_length (n : nat) (s : string) :
  String.length (take n s) <= String.length s.
Proof.
  revert s. induction n as [|n IH]; intros s; [simpl; lia|].
  destruct s as [|a s]; simpl; [lia|]. specialize (IH s). lia.
Qed.

Lemma take_length_le (n : nat) (s : string) :
  String.length (take n s) <= n.
Proof.
  revert s. induction n as [|n IH]; intros s; [simpl; lia|].
  destruct s as [|a s]; simpl; [lia|]. specialize (IH s). lia.
Qed.

Lemma IndexByte_lt (s : string) (c : ascii) (i : nat) :
  IndexByte s c = Some i -> i < String.length s.
Proof.
  revert i. induction s as [|a s IH]; intros i; simpl; [discriminate|].
  destruct (Ascii.eqb a c).
  - intros [= <-]. lia.
  - destruct (IndexByte s c) as [j|]; [|discriminate].
    intros [= <-]. specialize (IH j eq_refl). lia.
Qed.

End StringFacts.

(* ================================================================== *)
(** ** Lemmas on the record reader *)

Module CsvFacts.
Import Csv StringFacts.

Lemma ReadSlice_line (s t : string) :
  contains s nl = false ->
  ReadSlice (s ++ String nl t) = ((s ++ String nl "")%string, t, true).
Proof.
  induction s as [|a s IH]; simpl; intros H.
  - reflexivity.
  - apply contains_cons in H as (Ha & Hs).
    now rewrite Ha, (IH Hs).
Qed.

Lemma normalizeCRLF_id (s : string) :
  contains s cr = false ->
  normalizeCRLF (s ++ String nl "") = (s ++ String nl "")%string.
Proof.
  intros Hcr. unfold normalizeCRLF.
  rewrite length_app. cbn [String.length].
  destruct (2 <=? String.length s + 1) eqn:Hn; [|reflexivity].
  apply Nat.leb_le in Hn.
  replace (String.length s + 1 - 2) with (String.length s - 1) by lia.
  rewrite <- (append_correct1 s (String nl "")) by lia.
  destruct (get (String.length s - 1) s) as [a|] eqn:Hget; [|reflexivity].
  now rewrite (get_contains s cr Hcr _ _ Hget).
Qed.

Lemma lengthNL_line (s : string) : lengthNL (s ++ String nl "") = 1.
Proof. unfold lengthNL. now rewrite lastByte_app, Ascii.eqb_refl. Qed.

Lemma readLine_row (s rest : string) :
  noLineEnd s ->
  readLine (s ++ NL ++ rest) = ((s ++ NL)%string, None, rest).
Proof.
  intros (Hnl & Hcr). unfold readLine, NL. cbn [append].
  rewrite (ReadSlice_line s rest Hnl).
  now rewrite (normalizeCRLF_id s Hcr).
Qed.

Lemma nextLine_row (fuel : nat) (s rest : string) :
  noLineEnd s -> s <> "" ->
  nextLine (S fuel) (s ++ NL ++ rest) = Some ((s ++ NL)%string, None, rest).
Proof.
  intros Hs Hne. cbn [nextLine]. rewrite (readLine_row s rest Hs).
  unfold NL. rewrite lengthNL_line, length_app. cbn [String.length].
  destruct s; [congruence|]. cbn [String.length].
  replace (S (String.length s) + 1 =? 1) with false
    by (symmetry; apply Nat.eqb_neq; lia).
  reflexivity.
Qed.

Lemma lengthNL_le_1 (s : string) : lengthNL s <= 1.
Proof.
  unfold lengthNL. destruct (lastByte s) as [c|]; [|lia].
  destruct (Ascii.eqb c nl); lia.
Qed.

Lemma rowText_cons (c : Cell) (cs : list Cell) :
  rowText (c :: cs) = (cellText c ++ tailOf cs)%string.
Proof.
  unfold rowText. destruct cs as [|c' cs]; [reflexivity|].
  cbn [map Join tailOf]. rewrite app_assoc. cbn [append].
  reflexivity.
Qed.

Section ParseRow.

Variable lazy : bool.
Variable rest : string.
Variable cs : list Cell.

(** How the reading goes on after the current field. *)
Variable K : list string -> option (list string * error * string).

Hypothesis Kend : cs = [] -> forall acc, K acc = Some (acc, None, rest).

Hypothesis Kmore :
  cs <> [] ->
  forall fuel acc,
    String.length (rowText cs) < fuel ->
    parseField fuel lazy (rowText cs) rest acc = K acc.

Lemma plain_field (text : string) (fuel : nat) (acc : list string) :
  cellOk (Plain text) ->
  lazy = true \/ contains text dquote = false ->
  String.length (text ++ tailOf cs) < fuel ->
  parseField fuel lazy (text ++ tailOf cs) rest acc = K (acc ++ [text]).
Proof.
  intros ((Hnl & Hcr) & Hcomma & Hq) Hlazy Hfuel.
  destruct fuel as [|fuel]; [lia|]. cbn [parseField].
  assert (Hstart : startsWithQuote (text ++ tailOf cs) = false).
  { destruct text; [|exact Hq]. destruct cs; reflexivity. }
  rewrite Hstart. cbn [negb].
  assert (Hquote : negb lazy && contains text dquote = false)
    by (destruct Hlazy as [->| ->]; [reflexivity|apply andb_false_r]).
  destruct cs as [|c' cs'] eqn:Ecs.
  - cbn [tailOf]. unfold NL.
    rewrite IndexByte_none
      by (rewrite contains_app, Hcomma; reflexivity).
    rewrite lengthNL_line, length_app. cbn [String.length].
    replace (String.length text + 1 - 1) with (String.length text) by lia.
    rewrite take_app, Hquote. now rewrite Kend.
  - cbn [tailOf].
    rewrite (IndexByte_here text _ comma Hcomma).
    rewrite take_app, drop_app_1, Hquote.
    apply Kmore; [discriminate|].
    cbn [tailOf] in Hfuel. rewrite length_app in Hfuel.
    cbn [String.length] in Hfuel. lia.
Qed.

Lemma quoted_close (seg cur : string) (fuel : nat) (acc : list string) :
  contains seg dquote = false ->
  String.length (seg ++ QT ++ tailOf cs) < fuel ->
  quotedField fuel lazy (seg ++ QT ++ tailOf cs) rest acc cur
  = K (acc ++ [(cur ++ seg)%string]).
Proof.
  intros Hq Hfuel.
  destruct fuel as [|fuel]; [lia|]. cbn [quotedField].
  unfold QT in *. cbn [append] in *.
  rewrite (IndexByte_here seg _ dquote Hq).
  rewrite take_app, drop_app_1.
  destruct cs as [|c' cs'] eqn:Ecs.
  - cbn. now rewrite Kend.
  - cbn [tailOf]. cbn.
    apply Kmore; [discriminate|].
    cbn [tailOf] in Hfuel. rewrite length_app in Hfuel.
    cbn [String.length] in Hfuel. lia.
Qed.

(** A bare quote inside a quoted field, in strict mode. *)
Lemma quoted_bare_strict (seg m cur tail : string) (fuel : nat)
      (acc : list string) :
  lazy = false ->
  contains seg dquote = false ->
  afterBareQuote m ->
  contains m nl = false ->
  0 < fuel ->
  quotedField fuel lazy (seg ++ QT ++ m ++ tail) rest acc cur
  = Some (acc, Some (CsvError ErrQuote), rest).
Proof.
  intros Hlazy Hq Hm Hmnl Hfuel.
  destruct fuel as [|fuel]; [lia|]. cbn [quotedField]. rewrite Hlazy.
  unfold QT. cbn [append].
  rewrite (IndexByte_here seg _ dquote Hq).
  rewrite take_app, drop_app_1.
  destruct m as [|c m']; [contradiction|].
  destruct Hm as (Hc1 & Hc2).
  cbn [append]. rewrite Hc1, Hc2.
  set (line := String c (m' ++ tail)).
  destruct (lengthNL line =? String.length line) eqn:E; [|reflexivity].
  apply Nat.eqb_eq in E. exfalso.
  assert (Hline : line = String nl "").
  { subst line. unfold lengthNL in E.
    destruct (lastByte (String c (m' ++ tail))) as [a|] eqn:El.
    - destruct (Ascii.eqb a nl) eqn:Ea.
      + cbn [String.length] in E.
        destruct (m' ++ tail)%string; [|discriminate].
        cbn in El. inversion El; subst.
        apply Ascii.eqb_eq in Ea. now subst.
      + discriminate.
    - discriminate. }
  subst line. injection Hline as Hc _.
  apply contains_cons in Hmnl as (Hnl & _).
  rewrite Hc in Hnl. now rewrite Ascii.eqb_refl in Hnl.
Qed.

Lemma quoted_run (more : list string) :
  forall (seg cur : string) (fuel : nat) (acc : list string),
    lazy = true ->
    contains seg dquote = false ->
    Forall (fun m => noLineEnd m /\ contains m dquote = false /\
                     afterBareQuote m) more ->
    String.length (seg ++ inner more ++ QT ++ tailOf cs) < fuel ->
    quotedField fuel lazy (seg ++ inner more ++ QT ++ tailOf cs) rest acc cur
    = K (acc ++ [(cur ++ seg ++ inner more)%string]).
Proof.
  induction more as [|m ms IH]; intros seg cur fuel acc Hlazy Hq Hmore Hfuel.
  - cbn [inner append] in *. rewrite app_nil_r.
    now apply quoted_close.
  - inversion Hmore as [|? ? (_ & Hmq & Hm) Hms]; subst.
    destruct fuel as [|fuel]; [lia|]. cbn [quotedField].
    cbn [inner] in *. unfold QT in *. cbn [append] in *.
    rewrite ?app_assoc in Hfuel. rewrite ?app_assoc.
    rewrite (IndexByte_here seg _ dquote Hq).
    rewrite take_app, drop_app_1.
    destruct m as [|c m']; [contradiction|].
    destruct Hm as (Hc1 & Hc2).
    cbn [append]. rewrite Hc1, Hc2.
    set (line := String c (m' ++ inner ms ++ String dquote (tailOf cs))).
    assert (Hlen : 2 <= String.length line).
    { subst line. cbn [String.length]. rewrite !length_app.
      cbn [String.length]. lia. }
    replace (lengthNL line =? String.length line) with false
      by (symmetry; apply Nat.eqb_neq;
          pose proof (lengthNL_le_1 line); lia).
    subst line.
    change (String c (m' ++ inner ms ++ String dquote (tailOf cs)))
      with (String c m' ++ inner ms ++ String dquote (tailOf cs))%string.
    rewrite (IH (String c m')); auto.
    + do 3 f_equal. rewrite !app_assoc. reflexivity.
    + cbn [append String.length] in *.
      rewrite ?length_app in *. cbn [String.length] in *.
      rewrite ?length_app in *. cbn [String.length] in *. lia.
Qed.

Lemma quoted_field (first : string) (more : list string) (fuel : nat)
      (acc : list string) :
  cellOk (Quoted first more) ->
  lazy = true \/ more = [] ->
  String.length (cellText (Quoted first more) ++ tailOf cs) < fuel ->
  parseField fuel lazy (cellText (Quoted first more) ++ tailOf cs) rest acc
  = K (acc ++ [cellValue (Quoted first more)]).
Proof.
  intros (_ & Hq & Hmore) Hlazy Hfuel.
  assert (Hline : (cellText (Quoted first more) ++ tailOf cs)%string
                  = String dquote (first ++ inner more ++ QT ++ tailOf cs))
    by (cbn [cellText]; rewrite !app_assoc; reflexivity).
  rewrite Hline in *. clear Hline.
  destruct fuel as [|fuel]; [lia|].
  cbn [parseField startsWithQuote cellValue].
  rewrite Ascii.eqb_refl. cbn [negb drop].
  cbn [String.length] in Hfuel.
  destruct Hlazy as [Hlazy| ->].
  - rewrite (quoted_run more first "" fuel acc Hlazy Hq Hmore);
      [reflexivity|lia].
  - cbn [inner append] in *. rewrite app_nil_r.
    rewrite quoted_close; [reflexivity|exact Hq|lia].
Qed.

Lemma quoted_field_strict (first m : string) (ms : list string) (fuel : nat)
      (acc : list string) :
  lazy = false ->
  cellOk (Quoted first (m :: ms)) ->
  1 < fuel ->
  parseField fuel lazy (cellText (Quoted first (m :: ms)) ++ tailOf cs)
             rest acc
  = Some (acc, Some (CsvError ErrQuote), rest).
Proof.
  intros Hlazy (_ & Hq & Hmore) Hfuel.
  apply Forall_inv in Hmore as ((Hmnl & _) & _ & Hm).
  assert (Hline : (cellText (Quoted first (m :: ms)) ++ tailOf cs)%string
                  = String dquote
                      (first ++ QT ++ m ++ inner ms ++ QT ++ tailOf cs))
    by (cbn [cellText inner]; rewrite !app_assoc; reflexivity).
  rewrite Hline. clear Hline.
  destruct fuel as [|fuel]; [lia|].
  cbn [parseField startsWithQuote].
  rewrite Ascii.eqb_refl. cbn [negb drop].
  apply quoted_bare_strict; auto. lia.
Qed.

End ParseRow.


Lemma parse_row_strict (rest : string) (cs : list Cell) :
  cs <> [] ->
  Forall cellOk cs ->
  forall fuel acc,
    String.length (rowText cs) < fuel ->
    parseField fuel false (rowText cs) rest acc
    = Some (fst (strictOutcome cs acc), snd (strictOutcome cs acc), rest).
Proof.
  induction cs as [|c cs IH]; [congruence|].
  intros _ Hall fuel acc Hfuel.
  inversion Hall as [|? ? Hc Hcs]; subst.
  set (K := fun acc' : list string =>
              Some (fst (strictOutcome cs acc'),
                    snd (strictOutcome cs acc'), rest)).
  assert (Kend : cs = [] -> forall acc', K acc' = Some (acc', None, rest))
    by (intros -> acc'; reflexivity).
  assert (Kmore : cs <> [] ->
                  forall fuel acc,
                    String.length (rowText cs) < fuel ->
                    parseField fuel false (rowText cs) rest acc = K acc)
    by (intros Hne; apply IH; auto).
  rewrite rowText_cons in *.
  destruct c as [text|first [|m ms]]; cbn [strictOutcome].
  - destruct (contains text dquote) eqn:Hq.
    + destruct Hc as ((Hnl & Hcr) & Hcomma & Hstart).
      destruct fuel as [|fuel]; [lia|]. cbn [parseField cellText].
      assert (Hs : startsWithQuote (text ++ tailOf cs) = false).
      { destruct text; [|exact Hstart]. destruct cs; reflexivity. }
      rewrite Hs. cbn [negb].
      destruct cs as [|c' cs'].
      * cbn [tailOf]. unfold NL.
        rewrite IndexByte_none
          by (rewrite contains_app, Hcomma; reflexivity).
        rewrite lengthNL_line, length_app. cbn [String.length].
        replace (String.length text + 1 - 1) with (String.length text)
          by lia.
        now rewrite take_app, Hq.
      * cbn [tailOf].
        rewrite (IndexByte_here text _ comma Hcomma).
        now rewrite take_app, Hq.
    + apply (plain_field false rest cs K Kend Kmore); auto.
  - rewrite (quoted_field false rest cs K Kend Kmore first [] fuel acc Hc
                          (or_intror eq_refl) Hfuel).
    cbn [cellValue inner]. now rewrite app_nil_r.
  - eapply quoted_field_strict; eauto.
    cbn [cellText String.length append] in Hfuel.
    unfold QT in Hfuel. cbn [append String.length] in Hfuel. lia.
Qed.

Lemma noLineEnd_app (s t : string) :
  noLineEnd s -> noLineEnd t -> noLineEnd (s ++ t).
Proof.
  intros (H1 & H2) (H3 & H4). unfold noLineEnd.
  now rewrite !contains_app, H1, H2, H3, H4.
Qed.

Lemma noLineEnd_inner (more : list string) :
  Forall (fun m => noLineEnd m /\ contains m dquote = false /\
                   afterBareQuote m) more ->
  noLineEnd (inner more).
Proof.
  induction 1 as [|m ms (Hm & _) _ IH]; [now split|].
  cbn [inner]. repeat apply noLineEnd_app; auto. now split.
Qed.

Lemma noLineEnd_cellText (c : Cell) : cellOk c -> noLineEnd (cellText c).
Proof.
  destruct c as [text|first more]; cbn [cellOk cellText].
  - now intros (H & _).
  - intros (Hf & _ & Hmore).
    repeat apply noLineEnd_app; auto;
      try (now split); now apply noLineEnd_inner.
Qed.

Lemma noLineEnd_row (cs : list Cell) :
  Forall cellOk cs -> noLineEnd (Join (map cellText cs) ",").
Proof.
  induction 1 as [|c cs Hc Hcs IH]; [now split|].
  cbn [map]. destruct cs as [|c' cs'].
  - now apply noLineEnd_cellText.
  - cbn [map Join] in *.
    repeat apply noLineEnd_app; auto;
      try (now split); now apply noLineEnd_cellText.
Qed.


Lemma strictOutcome_bare (cs : list Cell) :
  existsb hasBareQuote cs = true ->
  forall acc,
    exists dst k,
      strictOutcome cs acc = (dst, Some (CsvError k)) /\ quoteError k = true.
Proof.
  induction cs as [|c cs IH]; [discriminate|].
  intros Hex acc. cbn [existsb] in Hex.
  destruct c as [text|first [|m ms]]; cbn [strictOutcome hasBareQuote] in *.
  - destruct (contains text dquote).
    + now exists acc, ErrBareQuote.
    + apply IH. exact Hex.
  - apply IH. exact Hex.
  - now exists acc, ErrQuote.
Qed.

(** In strict mode, a line of well-formed fields one of which holds a bare
    quote is returned with a quote error. *)
Lemma Read_row_strict (cs : list Cell) (rest : string) (n : nat) :
  rowOk cs ->
  existsb hasBareQuote cs = true ->
  exists dst k n',
    Read (mkReader (rowText cs ++ rest) false n)
    = (dst, Some (CsvError k), mkReader rest false n') /\
    quoteError k = true.
Proof.
  intros (Hall & Hne) Hbare.
  assert (Hcs : cs <> []) by (intros ->; now apply Hne).
  assert (Hin : (rowText cs ++ rest)%string
                = (Join (map cellText cs) "," ++ NL ++ rest)%string)
    by (unfold rowText; apply app_assoc).
  assert (Hlen : String.length (rowText cs)
                 < S (S (String.length (rowText cs ++ rest))))
    by (rewrite length_app; lia).
  destruct (strictOutcome_bare cs Hbare []) as (dst & k & Hout & Hk).
  exists dst, k, (if 0 <? n then n else List.length dst).
  split; [|exact Hk].
  unfold Read, readRecord, fuelFor.
  cbn [input LazyQuotes FieldsPerRecord].
  change (2 + String.length (rowText cs ++ rest))
    with (S (S (String.length (rowText cs ++ rest)))).
  rewrite Hin at 2.
  rewrite nextLine_row; [|now apply noLineEnd_row|exact Hne].
  change (Join (map cellText cs) "," ++ NL)%string with (rowText cs).
  rewrite (parse_row_strict rest cs Hcs Hall _ [] Hlen), Hout.
  cbn [fst snd].
  now destruct (0 <? n).
Qed.


Lemma nextLine_error (fuel : nat) :
  forall inp line e rest,
    nextLine fuel inp = Some (line, Some e, rest) -> e = EOF.
Proof.
  induction fuel as [|fuel IH]; [discriminate|].
  intros inp line e rest. cbn [nextLine].
  unfold readLine. destruct (ReadSlice inp) as [[l r] found].
  destruct found.
  - destruct (String.length (normalizeCRLF l) =? lengthNL (normalizeCRLF l));
      [apply IH|discriminate].
  - destruct (0 <? String.length l).
    + destruct (String.length (normalizeCRLF (dropCRatEOF l))
                =? lengthNL (normalizeCRLF (dropCRatEOF l)));
        [apply IH|discriminate].
    + now intros [= _ <- _].
Qed.


(* ------------------------------------------------------------------ *)
(** *** The fuel given to [Read] is enough *)

Lemma ReadSlice_length (s : string) :
  forall l r f,
    ReadSlice s = (l, r, f) ->
    String.length l + String.length r = String.length s /\
    (f = true -> 0 < String.length l) /\
    (f = false -> r = "").
Proof.
  induction s as [|a s IH]; intros l r f; simpl.
  - intros [= <- <- <-]. repeat split; auto; try discriminate.
  - destruct (Ascii.eqb a nl).
    + intros [= <- <- <-]. simpl.
      repeat split; auto; try lia; try discriminate.
    + destruct (ReadSlice s) as [[l' r'] f'].
      intros [= <- <- <-].
      destruct (IH l' r' f' eq_refl) as (H1 & H2 & H3).
      simpl. repeat split; auto; try lia.
Qed.

Lemma normalizeCRLF_length (l : string) :
  String.length (normalizeCRLF l) <= String.length l.
Proof.
  unfold normalizeCRLF.
  destruct (2 <=? String.length l) eqn:Hn; [|cbn [andb]; lia].
  apply Nat.leb_le in Hn.
  match goal with
  | |- context [if ?c then _ else _] => destruct c
  end; [|lia].
  rewrite length_app. cbn [String.length].
  pose proof (take_length_le (String.length l - 2) l). lia.
Qed.

Lemma dropCRatEOF_length (l : string) :
  String.length (dropCRatEOF l) <= String.length l.
Proof.
  unfold dropCRatEOF. destruct (lastByte l) as [c|]; [|lia].
  destruct (Ascii.eqb c cr); [apply take_length|lia].
Qed.

Lemma readLine_length (inp : string) :
  forall line e rest,
    readLine inp = (line, e, rest) ->
    String.length line + String.length rest <= String.length inp /\
    (e = None -> String.length rest < String.length inp).
Proof.
  intros line e rest. unfold readLine.
  destruct (ReadSlice inp) as [[l r] f] eqn:Hs.
  destruct (ReadSlice_length inp l r f Hs) as (Hlen & Hfound & Hnot).
  destruct f.
  - intros [= <- <- <-].
    pose proof (normalizeCRLF_length l). specialize (Hfound eq_refl).
    split; [lia|intros _; lia].
  - destruct (0 <? String.length l) eqn:Hl.
    + intros [= <- <- <-]. apply Nat.ltb_lt in Hl.
      pose proof (normalizeCRLF_length (dropCRatEOF l)).
      pose proof (dropCRatEOF_length l).
      rewrite (Hnot eq_refl) in *. simpl in *.
      split; [lia|intros _; lia].
    + intros [= <- <- <-]. simpl. split; [lia|discriminate].
Qed.

Lemma nextLine_total (fuel : nat) :
  forall inp,
    String.length inp < fuel ->
    exists line e rest,
      nextLine fuel inp = Some (line, e, rest) /\
      String.length line + String.length rest <= String.length inp /\
      (e = None -> String.length rest < String.length inp).
Proof.
  induction fuel as [|fuel IH]; intros inp Hfuel; [lia|].
  cbn [nextLine].
  destruct (readLine inp) as [[line e] rest] eqn:Hline.
  destruct (readLine_length inp line e rest Hline) as (Hlen & Hprog).
  destruct e as [e|].
  - exists line, (Some e), rest. repeat split; auto.
  - specialize (Hprog eq_refl).
    destruct (String.length line =? lengthNL line).
    + destruct (IH rest) as (line' & e' & rest' & -> & Hlen' & Hprog');
        [lia|].
      exists line', e', rest'. split; [reflexivity|]. split; [lia|].
      intros He. specialize (Hprog' He). lia.
    + exists line, None, rest. repeat split; auto.
Qed.

Lemma parse_total (lazy : bool) (fuel : nat) :
  (forall line rest fields,
      String.length line + String.length rest < fuel ->
      exists dst err rest',
        parseField fuel lazy line rest fields = Some (dst, err, rest') /\
        String.length rest' <= String.length rest) /\
  (forall line rest fields cur,
      String.length line + String.length rest < fuel ->
      exists dst err rest',
        quotedField fuel lazy line rest fields cur = Some (dst, err, rest') /\
        String.length rest' <= String.length rest).
Proof.
  induction fuel as [|fuel (IHp & IHq)]; [split; intros; lia|].
  split.
  - intros line rest fields Hfuel. cbn [parseField].
    destruct (negb (startsWithQuote line)) eqn:Hstart.
    + destruct (IndexByte line comma) as [i|] eqn:Hi.
      * destruct (negb lazy && contains (take i line) dquote);
          [now eexists _, _, _|].
        apply IHp. apply IndexByte_lt in Hi.
        rewrite drop_length. lia.
      * destruct (negb lazy && contains _ dquote); now eexists _, _, _.
    + apply IHq. rewrite drop_length.
      destruct line; [discriminate|]. cbn [String.length] in *. lia.
  - intros line rest fields cur Hfuel. cbn [quotedField].
    destruct (IndexByte line dquote) as [i|] eqn:Hi.
    + apply IndexByte_lt in Hi.
      pose proof (drop_length (i + 1) line) as Hd.
      destruct (drop (i + 1) line) as [|c line'] eqn:Hline.
      * now eexists _, _, _.
      * cbn [String.length] in Hd.
        destruct (Ascii.eqb c dquote); [apply IHq; lia|].
        destruct (Ascii.eqb c comma); [apply IHp; lia|].
        destruct (lengthNL (String c line') =? String.length (String c line'));
          [now eexists _, _, _|].
        destruct lazy; [|now eexists _, _, _].
        apply IHq. cbn [String.length]. lia.
    + destruct (0 <? String.length line) eqn:Hl.
      * apply Nat.ltb_lt in Hl.
        destruct (readLine rest) as [[line' e] rest''] eqn:Hr.
        destruct (readLine_length rest line' e rest'' Hr) as (Hlen & _).
        destruct (IHq line' rest'' fields (cur ++ line)%string)
          as (dst & err & rest' & -> & Hrest); [lia|].
        exists dst, err, rest'. split; [reflexivity|lia].
      * destruct (negb lazy); now eexists _, _, _.
Qed.

(** [Read] never runs out of fuel, and unless it returns [io.EOF] it uses
    up some of the file. *)
Lemma readRecord_total (r : Reader) :
  exists record err r',
    readRecord (fuelFor r) r = Some (record, err, r') /\
    LazyQuotes r' = LazyQuotes r /\
    (err <> Some EOF -> String.length (input r') < String.length (input r)).
Proof.
  unfold readRecord, fuelFor.
  destruct (nextLine_total (2 + String.length (input r)) (input r))
    as (line & e & rest & Hn & Hlen & Hprog); [lia|].
  rewrite Hn.
  destruct e as [e|].
  - apply nextLine_error in Hn. subst e.
    eexists _, _, _. split; [reflexivity|]. split; [reflexivity|].
    intros Hne. congruence.
  - specialize (Hprog eq_refl).
    destruct (proj1 (parse_total (LazyQuotes r)
                                 (2 + String.length (input r)))
                    line rest [])
      as (dst & err & rest' & -> & Hrest); [lia|].
    destruct (0 <? FieldsPerRecord r);
      eexists _, _, _; (split; [reflexivity|]);
      cbn [input LazyQuotes]; (split; [reflexivity|]); intros _; lia.
Qed.

Lemma Read_total (r : Reader) :
  exists record err r',
    Read r = (record, err, r') /\
    readRecord (fuelFor r) r = Some (record, err, r') /\
    LazyQuotes r' = LazyQuotes r /\
    (err <> Some EOF -> String.length (input r') < String.length (input r)).
Proof.
  destruct (readRecord_total r) as (record & err & r' & Hr & Hl & Hp).
  exists record, err, r'. unfold Read. rewrite Hr. auto.
Qed.

(** The list of records does not depend on the fuel, once there is
    enough of it: it ends where [Read] returns [io.EOF]. *)
Lemma recordsFrom_enough (fuel : nat) :
  forall r k,
    String.length (input r) < fuel ->
    recordsFrom (fuel + k) r = recordsFrom fuel r.
Proof.
  induction fuel as [|fuel IH]; intros r k Hfuel; [lia|].
  cbn [Nat.add recordsFrom].
  destruct (Read_total r) as (record & err & r' & -> & _ & _ & Hprog).
  destruct err as [[|kind|msg|msg]|]; try reflexivity.
  - f_equal. apply IH.
    assert (H : String.length (input r') < String.length (input r))
      by (apply Hprog; discriminate). lia.
  - f_equal. apply IH.
    assert (H : String.length (input r') < String.length (input r))
      by (apply Hprog; discriminate). lia.
Qed.

(* ------------------------------------------------------------------ *)
(** *** Whole files *)



Lemma Read_empty (lazy : bool) (n : nat) :
  Read (mkReader "" lazy n) = ([], Some EOF, mkReader "" lazy n).
Proof. reflexivity. Qed.





(* ------------------------------------------------------------------ *)
(** *** The number of fields *)

(** A line read without error has at least one field. *)
Lemma parse_more_fields (lazy : bool) (fuel : nat) :
  (forall line rest fields dst rest',
      parseField fuel lazy line rest fields = Some (dst, None, rest') ->
      List.length fields < List.length dst) /\
  (forall line rest fields cur dst rest',
      quotedField fuel lazy line rest fields cur = Some (dst, None, rest') ->
      List.length fields < List.length dst).
Proof.
  induction fuel as [|fuel (IHp & IHq)]; [split; discriminate|].
  split.
  - intros line rest fields dst rest'. cbn [parseField].
    destruct (negb (startsWithQuote line)).
    + destruct (IndexByte line comma) as [i|].
      * destruct (negb lazy && contains (take i line) dquote);
          [discriminate|].
        intros H. apply IHp in H. rewrite List.length_app in H.
        simpl in H. lia.
      * destruct (negb lazy && contains _ dquote); [discriminate|].
        intros [= <- _]. rewrite List.length_app. simpl. lia.
    + apply IHq.
  - intros line rest fields cur dst rest'. cbn [quotedField].
    destruct (IndexByte line dquote) as [i|].
    + destruct (drop (i + 1) line) as [|c line'].
      * intros [= <- _]. rewrite List.length_app. simpl. lia.
      * destruct (Ascii.eqb c dquote); [apply IHq|].
        destruct (Ascii.eqb c comma).
        { intros H. apply IHp in H. rewrite List.length_app in H.
          simpl in H. lia. }
        destruct (lengthNL (String c line') =? String.length (String c line')).
        { intros [= <- _]. rewrite List.length_app. simpl. lia. }
        destruct lazy; [apply IHq|discriminate].
    + destruct (0 <? String.length line).
      * destruct (readLine rest) as [[line' e] rest'']. apply IHq.
      * destruct (negb lazy); [discriminate|].
        intros [= <- _]. rewrite List.length_app. simpl. lia.
Qed.

(** What [Read] does to the expected number of fields: a record read
    without error has it, or sets it when it was not set. *)
Lemma Read_field_count (r : Reader) :
  forall record r',
    Read r = (record, None, r') ->
    0 < List.length record /\
    FieldsPerRecord r' = List.length record /\
    (0 < FieldsPerRecord r -> List.length record = FieldsPerRecord r).
Proof.
  intros record r'. unfold Read, readRecord.
  destruct (nextLine (fuelFor r) (input r)) as [[[line [e|]] rest]|];
    try discriminate.
  destruct (parseField (fuelFor r) (LazyQuotes r) line rest [])
    as [[[dst perr] rest'']|] eqn:Hparse; [|discriminate].
  destruct (0 <? FieldsPerRecord r) eqn:Hn.
  - destruct perr as [e|]; [discriminate|].
    destruct (List.length dst =? FieldsPerRecord r) eqn:Hlen;
      [|discriminate].
    cbn [negb]. intros [= <- <-]. cbn [FieldsPerRecord].
    apply Nat.eqb_eq in Hlen. apply Nat.ltb_lt in Hn.
    repeat split; auto; lia.
  - intros H. inversion H; subst. cbn [FieldsPerRecord].
    apply (proj1 (parse_more_fields _ _)) in Hparse. simpl in Hparse.
    apply Nat.ltb_ge in Hn. repeat split; auto; lia.
Qed.

Lemma Read_keeps_count (r : Reader) :
  forall record err r',
    Read r = (record, err, r') ->
    0 < FieldsPerRecord r -> FieldsPerRecord r' = FieldsPerRecord r.
Proof.
  intros record err r' Hread Hn. unfold Read, readRecord in Hread.
  apply Nat.ltb_lt in Hn.
  destruct (nextLine (fuelFor r) (input r)) as [[[line [e|]] rest]|];
    [now inversion Hread| |now inversion Hread].
  destruct (parseField (fuelFor r) (LazyQuotes r) line rest [])
    as [[[dst perr] rest'']|]; [|now inversion Hread].
  rewrite Hn in Hread. now inversion Hread.
Qed.

(** Once the expected number of fields is set, every record of the
    stream has it. *)
Lemma recordsFrom_field_count (fuel : nat) :
  forall r,
    0 < FieldsPerRecord r ->
    Forall (fun x => match x with
                     | Rec record => List.length record = FieldsPerRecord r
                     | Bad _ => True
                     end) (recordsFrom fuel r).
Proof.
  induction fuel as [|fuel IH]; intros r Hn; [constructor|].
  cbn [recordsFrom].
  destruct (Read r) as [[record err] r'] eqn:Hread.
  pose proof (Read_keeps_count r record err r' Hread Hn) as Hkeep.
  destruct err as [[|k|msg|msg]|]; try constructor.
  - exact I.
  - rewrite <- Hkeep. apply IH. lia.
  - now apply (Read_field_count r record r').
  - rewrite <- Hkeep. apply IH. lia.
Qed.

(** Every record of a file has as many fields as the first one. *)
Lemma records_field_count (file : string) (lazy : bool)
      (header : list string) (stream : list ReadResult) :
  recordsFrom (S (String.length file)) (mkReader file lazy 0)
  = Rec header :: stream ->
  Forall (fun x => match x with
                   | Rec record => List.length record = List.length header
                   | Bad _ => True
                   end) stream.
Proof.
  cbn [recordsFrom].
  destruct (Read (mkReader file lazy 0)) as [[record err] r'] eqn:Hread.
  destruct err as [[|k|msg|msg]|]; try discriminate.
  intros [= <- <-].
  destruct (Read_field_count _ _ _ Hread) as (Hpos & Hset & _).
  rewrite <- Hset. apply recordsFrom_field_count. lia.
Qed.

End CsvFacts.

(* ================================================================== *)
(** ** Lenient and strict reading of rows with quotes *)

Import CsvFacts.









Example row37_read :
  Csv.records (Csv.setLazyQuotes
                 (Csv.NewReader (fileText [hdr0; row37; row38; row39])) true)
  = [Rec ["id"; "name"; "year"; "rank"];
     Rec ["37"; ("The " ++ QT ++ "Best" ++ QT ++ " Movie")%string;
          "1999"; "6.5"];
     Rec ["38"; ("Say " ++ QT ++ "hi")%string; "2000"; "7.0"];
     Rec ["39"; "Plain, quoted"; "2001"; "NULL"]]
  /\ Csv.records (Csv.NewReader (fileText [hdr0; row37; row38; row39]))
  = [Rec ["id"; "name"; "year"; "rank"];
     Bad ErrQuote; Bad ErrBareQuote;
     Rec ["39"; "Plain, quoted"; "2001"; "NULL"]].
Proof. vm_compute. split; reflexivity. Qed.

(* ================================================================== *)
(** ** The header check *)

(** C2.  What the code does on header fields that hold a comma: the two
    sides are compared after joining them with commas, so a sequence
    that differs from the expected list, in length and in elements, is
    accepted when its join is the same text.  The first sequence has
    three elements, the second and the third have one. *)
Theorem validateHeaders_accepts_joined_fields :
  validateHeaders "movies" ["id,name"; "year"; "rank"] = true /\
  validateHeaders "movies" ["id,name,year,rank"] = true /\
  validateHeaders "movies_genres" ["movie_id,genre"] = true /\
  ["id,name"; "year"; "rank"] <> ["id"; "name"; "year"; "rank"] /\
  ["id,name,year,rank"] <> ["id"; "name"; "year"; "rank"] /\
  ["movie_id,genre"] <> ["movie_id"; "genre"].
Proof. repeat split; try reflexivity; discriminate. Qed.

(** Any table name other than [movies] and [movies_genres] is
    refused, whatever the headers. *)
Lemma validateHeaders_other_table (tableName : string)
      (headers : list string) :
  tableName <> "movies" -> tableName <> "movies_genres" ->
  validateHeaders tableName headers = false.
Proof.
  intros H1 H2. unfold validateHeaders.
  apply String.eqb_neq in H1, H2. now rewrite H1, H2.
Qed.

Lemma validateHeaders_other_table_witness :
  "actors" <> "movies" /\ "actors" <> "movies_genres" /\
  validateHeaders "actors" ["id"; "name"; "year"; "rank"] = false.
Proof.
  assert (H1 : "actors" <> "movies") by discriminate.
  assert (H2 : "actors" <> "movies_genres") by discriminate.
  exact (conj H1 (conj H2 (validateHeaders_other_table _ _ H1 H2))).
Defined.

Lemma split_at_comma (a b x y : string) :
  commaFree a -> commaFree b ->
  (a ++ String Csv.comma x)%string = (b ++ String Csv.comma y)%string ->
  a = b /\ x = y.
Proof.
  revert b. induction a as [|c a IH]; intros b Ha Hb Heq.
  - destruct b as [|d b]; cbn in Heq.
    + now inversion Heq.
    + inversion Heq; subst d.
      apply StringFacts.contains_cons in Hb as (Hd & _).
      now rewrite Ascii.eqb_refl in Hd.
  - destruct b as [|d b]; cbn in Heq.
    + inversion Heq; subst c.
      apply StringFacts.contains_cons in Ha as (Hc & _).
      now rewrite Ascii.eqb_refl in Hc.
    + inversion Heq; subst d.
      apply StringFacts.contains_cons in Ha as (_ & Ha).
      apply StringFacts.contains_cons in Hb as (_ & Hb).
      destruct (IH b Ha Hb) as (-> & ->); auto.
Qed.

Lemma commaFree_no_split (a b y : string) :
  commaFree a -> a <> (b ++ String Csv.comma y)%string.
Proof.
  intros Ha ->. unfold commaFree in Ha.
  rewrite StringFacts.contains_app in Ha.
  apply orb_false_iff in Ha as (_ & Ha).
  unfold contains in Ha. cbn in Ha. discriminate.
Qed.

(** On sequences without commas, joining loses nothing. *)
Lemma Join_comma_inj (hs : list string) :
  forall es,
    Forall commaFree hs -> Forall commaFree es ->
    hs <> [] -> es <> [] ->
    Join hs "," = Join es "," -> hs = es.
Proof.
  induction hs as [|h hs IH]; intros es Hhs Hes Hne Hne' Heq; [congruence|].
  destruct es as [|e es]; [congruence|].
  inversion Hhs as [|? ? Hh Hhs']; subst.
  inversion Hes as [|? ? He Hes']; subst.
  destruct hs as [|h' hs], es as [|e' es]; cbn [Join] in Heq.
  - now subst.
  - exfalso. now apply (commaFree_no_split h e (Join (e' :: es) ",")).
  - exfalso. symmetry in Heq.
    now apply (commaFree_no_split e h (Join (h' :: hs) ",")).
  - cbn [append] in Heq.
    change (h ++ String Csv.comma (Join (h' :: hs) ",")
            = e ++ String Csv.comma (Join (e' :: es) ","))%string in Heq.
    destruct (split_at_comma _ _ _ _ Hh He Heq) as (-> & Hrest).
    f_equal. apply IH; auto; discriminate.
Qed.

(** X1.  On header fields without commas the check is the exact, ordered
    comparison with the expected list of the table. *)
Lemma validateHeaders_exact (headers : list string) :
  Forall commaFree headers ->
  (validateHeaders "movies" headers = true
   <-> headers = ["id"; "name"; "year"; "rank"]) /\
  (validateHeaders "movies_genres" headers = true
   <-> headers = ["movie_id"; "genre"]).
Proof.
  intros Hfree. unfold validateHeaders. cbn [String.eqb Ascii.eqb].
  split; (split; [|now intros ->]); intros H; apply String.eqb_eq in H.
  - destruct headers as [|h hs]; [discriminate|].
    apply Join_comma_inj; auto;
      [repeat constructor|discriminate|discriminate].
  - destruct headers as [|h hs]; [discriminate|].
    apply Join_comma_inj; auto;
      [repeat constructor|discriminate|discriminate].
Qed.

Lemma validateHeaders_exact_witness :
  Forall commaFree ["name"; "id"; "year"; "rank"] /\
  (validateHeaders "movies" ["name"; "id"; "year"; "rank"] = true
   <-> ["name"; "id"; "year"; "rank"] = ["id"; "name"; "year"; "rank"]).
Proof.
  assert (H : Forall commaFree ["name"; "id"; "year"; "rank"])
    by (repeat constructor).
  exact (conj H (proj1 (validateHeaders_exact _ H))).
Defined.

(* ================================================================== *)
(** ** Records shorter than the loader indexes *)

(** C10.  What the code does when the header is written with a quoted
    field that holds a comma: the reader returns a header of three fields
    whose join with commas is the expected text, [validateHeaders]
    accepts it, every later record without error has three fields as
    well, and the loader's [moviesRecord[3]] is out of range: the call
    panics.  The same happens to [populateMoviesGenres] with a header of
    one field and [moviesRecord[1]]. *)
Theorem quoted_header_record_index_panics :
  (let file := (QT ++ "id,name" ++ QT ++ ",year,rank" ++ NL
                ++ "1,Movie,1999" ++ NL)%string in
   Csv.records (Csv.setLazyQuotes (Csv.NewReader file) true)
   = [Rec ["id,name"; "year"; "rank"]; Rec ["1"; "Movie"; "1999"]] /\
   validateHeaders "movies" ["id,name"; "year"; "rank"] = true /\
   nth_error ["1"; "Movie"; "1999"] 3 = None /\
   ret (populateMovies acceptAll emptyDB (inr file)) = Panicked)
  /\
  (let file := (QT ++ "movie_id,genre" ++ QT ++ NL ++ "1" ++ NL)%string in
   Csv.records (Csv.setLazyQuotes (Csv.NewReader file) true)
   = [Rec ["movie_id,genre"]; Rec ["1"]] /\
   validateHeaders "movies_genres" ["movie_id,genre"] = true /\
   nth_error ["1"] 1 = None /\
   ret (populateMoviesGenres acceptAll emptyDB (inr file)) = Panicked).
Proof. vm_compute. repeat split. Qed.

(** The part of C10 that holds: every record the reader returns without
    error has as many fields as the header it returned first. *)
Lemma records_have_header_count (file : string) (header : list string)
      (stream : list ReadResult) :
  Csv.records (Csv.setLazyQuotes (Csv.NewReader file) true)
  = Rec header :: stream ->
  Forall (fun x => match x with
                   | Rec record => List.length record = List.length header
                   | Bad _ => True
                   end) stream.
Proof. apply records_field_count. Qed.

(** After a header of four fields, when every record read has the
    header's number of fields, the positional accesses [record[0]] to
    [record[3]] of the loader of [movies] are all in bounds. *)
Lemma four_fields_pickable (header : list string) (stream : list ReadResult) :
  List.length header = 4 ->
  Forall (fun x => match x with
                   | Rec record => List.length record = List.length header
                   | Bad _ => True
                   end) stream ->
  pickable moviesLoader stream.
Proof.
  intros H4 Hall. unfold pickable.
  eapply Forall_impl; [|exact Hall].
  intros [record|k] Hx; [|exact I].
  rewrite H4 in Hx.
  destruct record as [|a [|b [|c [|d [|e record]]]]]; discriminate.
Qed.

Lemma four_fields_pickable_witness :
  List.length ["id"; "name"; "year"; "rank"] = 4 /\
  pickable moviesLoader [Rec ["1"; "A"; "1999"; "5"]; Bad ErrFieldCount].
Proof.
  assert (H4 : List.length ["id"; "name"; "year"; "rank"] = 4)
    by reflexivity.
  refine (conj H4 (four_fields_pickable ["id"; "name"; "year"; "rank"]
                     _ H4 _)).
  repeat constructor.
Defined.

(* ================================================================== *)
(** ** The first reporting query *)

(** C9.  What the code does: the query groups by genre and rating, so it
    returns one row per pair of a genre and a rating, not one per genre,
    and the average of such a row is that one rating.  On the sample the
    genre Drama comes twice, with averages 7 and 5 and counts 1 and 1,
    where the average and count per genre are 6 and 2. *)
Theorem highest_rated_genres_groups_by_rating :
  Query.queryDbHighestRatedGenres Query.sample
  = ([("Drama", 7 # 1, 1); ("Drama", 5 # 1, 1)], None) /\
  Query.perGenreRows Query.sample = [("Drama", 6 # 1, 2)].
Proof. vm_compute. split; reflexivity. Qed.

(** The first reporting query returns at most 20 rows, for every state
    of the tables. *)
Lemma highest_rated_genres_at_most_20 (db : Query.Tables) :
  List.length (fst (Query.queryDbHighestRatedGenres db)) <= 20.
Proof.
  unfold Query.queryDbHighestRatedGenres, Query.highestRatedGenresRows.
  cbn [fst]. apply firstn_le_length.
Qed.

(* ================================================================== *)
(** ** Lemmas on the tables *)

Lemma addRows_nil (t : TableId) (db : DB) : addRows t [] db = db.
Proof. destruct t, db; unfold addRows; cbn; now rewrite app_nil_r. Qed.

(* ================================================================== *)
(** ** The rows reported as skipped *)

Lemma skips_app (a b : list Event) : skips (a ++ b) = skips a ++ skips b.
Proof.
  induction a as [|ev a IH]; [reflexivity|].
  destruct ev; simpl; now rewrite ?IH.
Qed.

(** The loop numbers the records it reads from its [rowNumber] on. *)
Lemma loop_skips (L : Loader) (eng : Engine) (db : DB)
      (stream : list ReadResult) :
  forall st st',
    loop L eng db stream st = Break st' ->
    skips (log st') = skips (log st) ++ badRows (rowNumber (vars st)) stream.
Proof.
  induction stream as [|[record|k] stream IH]; intros st st' Hloop.
  - simpl in Hloop. inversion Hloop; subst. simpl. now rewrite app_nil_r.
  - simpl in Hloop.
    destruct (l_pick L record) as [fields|]; [|discriminate].
    destruct (validRowCount (vars st) + 1 =? batchSize).
    + destruct (Exec eng db (tx st) _ _) as [tx' [e|]]; [discriminate|].
      apply IH in Hloop. cbn [log vars rowNumber] in Hloop.
      rewrite Hloop, skips_app. simpl. rewrite app_nil_r.
      now rewrite Nat.add_1_r.
    + apply IH in Hloop. cbn [log vars rowNumber] in Hloop.
      rewrite Hloop. simpl. now rewrite Nat.add_1_r.
  - simpl in Hloop. apply IH in Hloop. cbn [log vars rowNumber] in Hloop.
    rewrite Hloop, skips_app. simpl. rewrite <- app_assoc. simpl.
    now rewrite Nat.add_1_r.
Qed.

Lemma finish_skips (L : Loader) (eng : Engine) (db : DB) (st : LoopState) :
  skips (trace (finish L eng db st)) = skips (log st).
Proof.
  unfold finish.
  destruct (0 <? List.length (values (vars st))).
  - destruct (Exec eng db (tx st) _ _) as [tx' [e|]]; simpl.
    + rewrite skips_app. simpl. now rewrite app_nil_r.
    + destruct (Commit eng db tx') as [[db' tx''] [e|]]; simpl;
        rewrite !skips_app; simpl; now rewrite !app_nil_r.
  - destruct (Commit eng db (tx st)) as [[db' tx''] [e|]]; simpl;
      rewrite !skips_app; simpl; now rewrite !app_nil_r.
Qed.

Lemma loop_commits (L : Loader) (eng : Engine) (db : DB)
      (stream : list ReadResult) :
  forall st,
    commits (log (exitState (loop L eng db stream st))) = commits (log st).
Proof.
  induction stream as [|[record|k] stream IH]; intros st; simpl.
  - reflexivity.
  - destruct (l_pick L record) as [fields|]; [|reflexivity].
    destruct (validRowCount (vars st) + 1 =? batchSize).
    + destruct (Exec eng db (tx st) _ _) as [tx' [e|]].
      * simpl. rewrite commits_app. unfold commits. simpl. lia.
      * rewrite IH. simpl. rewrite commits_app. unfold commits. simpl. lia.
    + now rewrite IH.
  - rewrite IH. simpl. rewrite commits_app. unfold commits. simpl. lia.
Qed.

(** X5. In a load that reaches its commit, the rows reported as skipped
    are the records that failed to decode, each with its position among
    the data records, counted from 1 after the header, in the order of
    the file. *)
Theorem skipped_rows_numbered :
  forall (L : Loader) (eng : Engine) (db : DB)
         (header : list string) (stream : list ReadResult),
    let o := populate L eng db (inr (Rec header :: stream)) in
    commits (trace o) = 1 ->
    skips (trace o) = badRows 1 stream.
Proof.
  intros L eng db header stream o Hc. subst o. revert Hc.
  unfold populate.
  destruct (validateHeaders (l_name L) header); cbn [negb];
    [|cbn; discriminate].
  unfold Begin. destruct (begin_err eng db) as [e|]; [cbn; discriminate|].
  cbn [deferred].
  destruct (loop L eng db stream _) as [st|e st|st] eqn:Hloop.
  - intros _. rewrite finish_skips.
    apply loop_skips in Hloop. cbn [log vars rowNumber] in Hloop.
    exact Hloop.
  - pose proof (loop_commits L eng db stream
                  (mkLoop (mkVars [] (l_insert L) 0 0 1)
                          (mkTx TxOpen (l_table L) []) [EvBegin])) as H.
    rewrite Hloop in H. cbn [exitState trace] in *.
    rewrite H. discriminate.
  - pose proof (loop_commits L eng db stream
                  (mkLoop (mkVars [] (l_insert L) 0 0 1)
                          (mkTx TxOpen (l_table L) []) [EvBegin])) as H.
    rewrite Hloop in H. cbn [exitState trace] in *.
    rewrite H. discriminate.
Qed.

Lemma skipped_rows_numbered_witness :
  let stream := [Rec ["1"; "A"; "1999"; "5"]; Bad ErrFieldCount;
                 Rec ["3"; "C"; "2001"; "7"]; Bad ErrFieldCount] in
  let o := populate moviesLoader acceptAll emptyDB
             (inr (Rec ["id"; "name"; "year"; "rank"] :: stream)) in
  commits (trace o) = 1 /\
  skips (trace o) = [(2, ErrFieldCount); (4, ErrFieldCount)].
Proof.
  intros stream o.
  assert (Hc : commits (trace o) = 1) by (vm_compute; reflexivity).
  exact (conj Hc (skipped_rows_numbered moviesLoader acceptAll emptyDB
                    ["id"; "name"; "year"; "rank"] stream Hc)).
Defined.

(* ================================================================== *)
(** ** The text of the insert statements *)

Lemma dropLast_comma (s : string) : dropLast (s ++ ",") = s.
Proof.
  unfold dropLast. rewrite StringFacts.length_app. simpl.
  replace (String.length s + 1 - 1) with (String.length s) by lia.
  apply StringFacts.take_app.
Qed.

Lemma groups_Join (g : string) (n : nat) :
  groups g (S n) = (Join (repeat g (S n)) "," ++ ",")%string.
Proof.
  induction n as [|n IH].
  - simpl. reflexivity.
  - change (groups g (S (S n))) with (groups g (S n) ++ g ++ ",")%string.
    rewrite IH. clear IH.
    induction n as [|n IH].
    + simpl. now rewrite !StringFacts.app_assoc.
    + change (repeat g (S (S (S n)))) with (g :: repeat g (S (S n))).
      change (repeat g (S (S n))) with (g :: repeat g (S n)) at 1.
      change (Join (g :: repeat g (S (S n))) ",")
        with (g ++ "," ++ Join (repeat g (S (S n))) ",")%string.
      change (Join (g :: repeat g (S n)) ",")
        with (g ++ "," ++ Join (repeat g (S n)) ",")%string.
      rewrite !StringFacts.app_assoc. f_equal. f_equal.
      rewrite <- !StringFacts.app_assoc in IH.
      rewrite <- !StringFacts.app_assoc. exact IH.
Qed.

Lemma countByte_app (c : ascii) (s t : string) :
  countByte c (s ++ t) = countByte c s + countByte c t.
Proof. induction s as [|a s IH]; simpl; [reflexivity|rewrite IH; lia]. Qed.

Lemma countByte_Join (c : ascii) (g : string) (n : nat) :
  countByte c "," = 0 ->
  countByte c (Join (repeat g n) ",") = n * countByte c g.
Proof.
  intros Hc. induction n as [|n IH]; [reflexivity|].
  destruct n as [|n]; [simpl; lia|].
  change (repeat g (S (S n))) with (g :: repeat g (S n)).
  change (Join (g :: repeat g (S n)) ",")
    with (g ++ "," ++ Join (repeat g (S n)) ",")%string.
  rewrite !countByte_app, IH, Hc. lia.
Qed.

Section StatementShape.

Variable L : Loader.
Variable eng : Engine.
Variable db : DB.
Variable g : string.
Hypothesis HL : wellFormed L.
Hypothesis Hgroup : l_group L = (g ++ ",")%string.
Hypothesis Hins : countByte "?" (l_insert L) = 0.
Hypothesis Hg : countByte "?" g = columns (l_table L).

Lemma built (st : LoopState) (site : ExecSite) (err : error) :
  Building L g st -> 0 < validRowCount (vars st) ->
  stmtOk (l_insert L) g (columns (l_table L))
         (EvExec site (dropLast (insertStmt (vars st))) (values (vars st)) err).
Proof.
  intros (Hs & Hv & Hn) Hpos. simpl.
  destruct (validRowCount (vars st)) as [|n] eqn:En; [lia|].
  exists (S n). rewrite Hs, groups_Join.
  rewrite <- StringFacts.app_assoc, dropLast_comma.
  split; [lia|]. split; [reflexivity|]. split; [exact Hv|].
  rewrite countByte_app, countByte_Join by reflexivity.
  rewrite Hins, Hg, Hv. lia.
Qed.

Lemma loop_statements (stream : list ReadResult) :
  forall st,
    Building L g st ->
    Forall (stmtOk (l_insert L) g (columns (l_table L))) (log st) ->
    Forall (stmtOk (l_insert L) g (columns (l_table L)))
           (log (exitState (loop L eng db stream st))) /\
    (forall st', loop L eng db stream st = Break st' -> Building L g st').
Proof.
  induction stream as [|[record|k] stream IH]; intros st HB Hlog.
  - simpl. split; [exact Hlog|]. now intros st' [= <-].
  - simpl. destruct (l_pick L record) as [fields|] eqn:Hpick;
      [|split; [exact Hlog|discriminate]].
    pose proof (HL _ _ Hpick) as Hf.
    destruct HB as (Hs & Hv & Hn).
    set (st1 := mkLoop (mkVars (values (vars st) ++ fields)
                               (insertStmt (vars st) ++ l_group L)
                               (validRowCount (vars st) + 1)
                               (totalMovies (vars st))
                               (rowNumber (vars st)))
                       (tx st) (log st)).
    assert (HB1 : insertStmt (vars st1)
                  = (l_insert L ++ groups g (validRowCount (vars st1)))%string
                  /\ List.length (values (vars st1))
                     = columns (l_table L) * validRowCount (vars st1)).
    { subst st1. cbn [vars insertStmt values validRowCount]. split.
      - rewrite Hs, Hgroup, Nat.add_1_r. simpl.
        now rewrite !StringFacts.app_assoc.
      - rewrite length_app, Hv, Hf. lia. }
    destruct (validRowCount (vars st) + 1 =? batchSize) eqn:Hfull.
    + apply Nat.eqb_eq in Hfull.
      assert (Hok : forall err,
                 stmtOk (l_insert L) g (columns (l_table L))
                   (EvExec FullBatch
                      (dropLast (insertStmt (vars st) ++ l_group L))
                      (values (vars st) ++ fields) err)).
      { intros err. destruct HB1 as (Hs1 & Hv1). subst st1.
        cbn [vars insertStmt values validRowCount] in Hs1, Hv1.
        simpl. exists (validRowCount (vars st) + 1).
        rewrite Hs1, Nat.add_1_r, groups_Join.
        rewrite <- StringFacts.app_assoc, dropLast_comma.
        rewrite Nat.add_1_r in Hfull, Hv1.
        split; [lia|]. split; [reflexivity|]. split; [exact Hv1|].
        rewrite countByte_app, countByte_Join by reflexivity.
        rewrite Hins, Hg, Hv1. lia. }
      destruct (Exec eng db (tx st) _ _) as [tx' [e|]].
      * simpl. split; [|discriminate].
        apply Forall_app. split; [exact Hlog|].
        constructor; [apply Hok|constructor].
      * apply IH.
        -- unfold Building. cbn [vars insertStmt values validRowCount].
           split; [simpl; now rewrite StringFacts.app_nil_r|].
           split; [simpl; lia|]. rewrite batchSize_eq. lia.
        -- cbn [log]. apply Forall_app. split; [exact Hlog|].
           constructor; [apply Hok|constructor].
    + apply Nat.eqb_neq in Hfull.
      apply (IH (mkLoop (mkVars (values (vars st) ++ fields)
                               (insertStmt (vars st) ++ l_group L)
                               (validRowCount (vars st) + 1)
                               (totalMovies (vars st))
                               (rowNumber (vars st) + 1))
                       (tx st) (log st))).
      * destruct HB1 as (Hs1 & Hv1). subst st1.
        unfold Building. cbn [vars insertStmt values validRowCount] in *.
        split; [exact Hs1|]. split; [exact Hv1|]. lia.
      * exact Hlog.
  - simpl. apply IH.
    + exact HB.
    + cbn [log]. apply Forall_app. split; [exact Hlog|].
      constructor; [exact I|constructor].
Qed.

Lemma finish_statements (st : LoopState) :
  Building L g st ->
  Forall (stmtOk (l_insert L) g (columns (l_table L))) (log st) ->
  Forall (stmtOk (l_insert L) g (columns (l_table L)))
         (trace (finish L eng db st)).
Proof.
  intros HB Hlog. unfold finish.
  destruct (0 <? List.length (values (vars st))) eqn:Hpos.
  - apply Nat.ltb_lt in Hpos.
    assert (Hn : 0 < validRowCount (vars st)).
    { destruct HB as (_ & Hv & _).
      destruct (validRowCount (vars st)); [|lia].
      rewrite Nat.mul_0_r in Hv. lia. }
    pose proof (fun err => built st Remainder err HB Hn) as Hok.
    destruct (Exec eng db (tx st) _ _) as [tx' [e|]]; simpl.
    + apply Forall_app. split; [exact Hlog|].
      constructor; [apply Hok|constructor].
    + destruct (Commit eng db tx') as [[db' tx''] [e|]]; simpl;
        rewrite <- app_assoc; (apply Forall_app; split; [exact Hlog|]);
        simpl; repeat constructor; apply Hok.
  - destruct (Commit eng db (tx st)) as [[db' tx''] [e|]]; simpl;
      (apply Forall_app; split; [exact Hlog|]); repeat constructor.
Qed.

Lemma populate_statements (file : GoError + list ReadResult) :
  Forall (stmtOk (l_insert L) g (columns (l_table L)))
         (trace (populate L eng db file)).
Proof.
  destruct file as [e|[|[header|k] stream]]; try (simpl; constructor).
  unfold populate.
  destruct (validateHeaders (l_name L) header); cbn [negb];
    [|simpl; constructor].
  unfold Begin. destruct (begin_err eng db) as [e|]; [simpl; constructor|].
  cbn [deferred].
  set (st0 := mkLoop (mkVars [] (l_insert L) 0 0 1)
                     (mkTx TxOpen (l_table L) []) [EvBegin]).
  assert (HB0 : Building L g st0).
  { unfold Building, st0. cbn [vars insertStmt values validRowCount].
    split; [simpl; now rewrite StringFacts.app_nil_r|].
    split; [simpl; lia|]. rewrite batchSize_eq. lia. }
  assert (Hlog0 : Forall (stmtOk (l_insert L) g (columns (l_table L)))
                         (log st0)).
  { repeat constructor. }
  destruct (loop_statements stream st0 HB0 Hlog0) as (Hlog & Hbreak).
  destruct (loop L eng db stream st0) as [st|e st|st] eqn:Hloop;
    cbn [exitState trace] in *; try exact Hlog.
  apply finish_statements; [now apply Hbreak|exact Hlog].
Qed.

End StatementShape.

(** X6. Every statement the loaders execute is the insert followed by
    one group of placeholders per row, between 1 and 100 groups
    separated by commas and no comma at the end, and it is bound to
    exactly as many values as it has placeholders. *)
Theorem insert_statements_well_built :
  forall (eng : Engine) (db : DB) (file : GoError + string),
    Forall (stmtOk "INSERT INTO movies (id, name, year, rank) VALUES"
                   "(?, ?, ?, ?)" 4)
           (trace (populateMovies eng db file)) /\
    Forall (stmtOk "INSERT INTO movies_genres (movie_id, genre) VALUES"
                   "(?, ?)" 2)
           (trace (populateMoviesGenres eng db file)).
Proof.
  intros eng db file. split.
  - apply (populate_statements moviesLoader eng db "(?, ?, ?, ?)"
             moviesLoader_wellFormed); reflexivity.
  - apply (populate_statements moviesGenresLoader eng db "(?, ?)"
             moviesGenresLoader_wellFormed); reflexivity.
Qed.

(* ================================================================== *)
(** ** Where a returned error comes from *)

Lemma RunShape_error (L : Loader) (db : DB) (o : Outcome) (e : GoError) :
  RunShape L db o ->
  ret o = Returned (Some e) ->
  (exists site stmt vals, In (EvExec site stmt vals (Some e)) (trace o)) \/
  In (EvCommit (Some e)) (trace o).
Proof.
  intros [new t _ _ | pre stmt vals e' t _ _ _
          | new stmt vals e' t _ _ _ | new rem e' t _ _ _
          | new rem n t _ _ _]; cbn [ret trace]; intros Hret;
    try discriminate; inversion Hret; subst e'.
  - left. exists FullBatch, stmt, vals. right.
    apply in_or_app. right. now left.
  - left. exists Remainder, stmt, vals. right.
    apply in_or_app. right. now left.
  - right. right. apply in_or_app. right.
    apply in_or_app. right. now left.
Qed.

(** X7. An error a loader returns is one an operation handed to it,
    unchanged: the error of [os.Open]; [io.EOF] for a file without a
    header line, or the decode error of the header line; the error of
    [db.Begin]; the error of the insert that was rejected; or the error
    of the commit. A data row that fails to decode is never the cause. *)
Theorem returned_error_origin :
  forall (L : Loader) (eng : Engine) (db : DB)
         (file : GoError + list ReadResult) (e : GoError),
    wellFormed L ->
    ret (populate L eng db file) = Returned (Some e) ->
    file = inl e \/
    (file = inr [] /\ e = EOF) \/
    (exists k s, file = inr (Bad k :: s) /\ e = CsvError k) \/
    (exists header s,
        file = inr (Rec header :: s) /\
        validateHeaders (l_name L) header = true /\
        (begin_err eng db = Some e \/
         (exists site stmt vals,
             In (EvExec site stmt vals (Some e))
                (trace (populate L eng db file))) \/
         In (EvCommit (Some e)) (trace (populate L eng db file)))).
Proof.
  intros L eng db file e HL Hret.
  destruct file as [e'|[|[header|k] stream]].
  - left. simpl in Hret. now inversion Hret.
  - right. left. simpl in Hret. now inversion Hret.
  - right. right. right. exists header, stream. split; [reflexivity|].
    destruct (validateHeaders (l_name L) header) eqn:Hvalid.
    + split; [reflexivity|].
      destruct (begin_err eng db) as [e'|] eqn:Hbegin.
      * left. revert Hret. unfold populate, Begin.
        rewrite Hvalid, Hbegin. cbn. now intros [= ->].
      * right.
        apply (RunShape_error L db); [|exact Hret].
        now apply populate_run.
    + revert Hret. unfold populate. rewrite Hvalid. cbn. discriminate.
  - right. right. left. exists k, stream. simpl in Hret.
    split; [reflexivity|now inversion Hret].
Qed.

Lemma returned_error_origin_witness :
  let file : GoError + list ReadResult :=
    inr [Rec ["id"; "name"; "year"; "rank"];
         Rec ["1"; "A"; "1999"; "5"]; Bad ErrFieldCount;
         Rec ["1"; "B"; "2000"; "6"]] in
  let e := ErrSQL "UNIQUE constraint failed: movies.id" in
  let o := populate moviesLoader primaryKey emptyDB file in
  ret o = Returned (Some e) /\
  (file = inl e \/
   (file = inr [] /\ e = EOF) \/
   (exists k s, file = inr (Bad k :: s) /\ e = CsvError k) \/
   (exists header s,
       file = inr (Rec header :: s) /\
       validateHeaders (l_name moviesLoader) header = true /\
       (begin_err primaryKey emptyDB = Some e \/
        (exists site stmt vals,
            In (EvExec site stmt vals (Some e)) (trace o)) \/
        In (EvCommit (Some e)) (trace o)))).
Proof.
  intros file e o.
  assert (Hret : ret o = Returned (Some e)) by (vm_compute; reflexivity).
  exact (conj Hret
           (returned_error_origin moviesLoader primaryKey emptyDB file e
              moviesLoader_wellFormed Hret)).
Defined.
(* ================================================================== *)
(** ** The first version of [populateMovies] *)

Lemma addRows_addRows (t : TableId) (r1 r2 : list Row) (db : DB) :
  addRows t r2 (addRows t r1 db) = addRows t (r1 ++ r2) db.
Proof. destruct t; unfold addRows; cbn; now rewrite <- app_assoc. Qed.

Lemma accepted_app (a b : list V1.Event) :
  accepted (a ++ b) = accepted a ++ accepted b.
Proof.
  induction a as [|ev a IH]; [reflexivity|].
  destruct ev as [| |stmt vals [e|]]; simpl; now rewrite ?IH.
Qed.

Lemma skips1_app (a b : list V1.Event) :
  skips1 (a ++ b) = skips1 a ++ skips1 b.
Proof.
  induction a as [|ev a IH]; [reflexivity|].
  destruct ev; simpl; now rewrite ?IH.
Qed.

Lemma rows_4 (a b c d : string) : rows 4 [a; b; c; d] = [[a; b; c; d]].
Proof. reflexivity. Qed.

Lemma V1_loop_accepted (eng : Engine) (db0 : DB) (stream : list ReadResult) :
  forall rowNumber db log,
    db = addRows Movies (accepted log) db0 ->
    V1.db_after (V1.loop eng stream rowNumber db log)
    = addRows Movies
        (accepted (V1.trace (V1.loop eng stream rowNumber db log))) db0.
Proof.
  induction stream as [|[record|k] stream IH]; intros n db log Hdb.
  - exact Hdb.
  - cbn [V1.loop].
    destruct (nth_error record 0) as [a|];
      [|cbn; rewrite accepted_app, app_nil_r; exact Hdb].
    destruct (nth_error record 1) as [b|];
      [|cbn; rewrite accepted_app, app_nil_r; exact Hdb].
    destruct (nth_error record 2) as [c|];
      [|cbn; rewrite accepted_app, app_nil_r; exact Hdb].
    destruct (nth_error record 3) as [d|];
      [|cbn; rewrite accepted_app, app_nil_r; exact Hdb].
    unfold V1.dbExec.
    destruct (exec_err eng db [] V1.insertStmt [a; b; c; d]) as [e|].
    + cbn. rewrite !accepted_app. cbn. rewrite !app_nil_r. exact Hdb.
    + apply IH. rewrite !accepted_app. cbn [accepted columns].
      rewrite rows_4, Hdb, addRows_addRows. now rewrite app_nil_r.
  - cbn [V1.loop]. apply IH. rewrite accepted_app. cbn.
    now rewrite app_nil_r.
Qed.

(** Ids 1, 2, 1, 4 into a table that enforces its primary key: the third
    insert is rejected, the call returns its error, and rows 1 and 2 are
    in the table. *)
Example first_version_partial_load :
  let o := V1.populateMovies primaryKey emptyDB
             (inr (moviesFile [1; 2; 1; 4])) in
  V1.ret o
  = Ends (Some (Passed (ErrSQL "UNIQUE constraint failed: movies.id"))) /\
  movies (V1.db_after o)
  = [["1"; "Movie"; "1999"; "6.5"]; ["2"; "Movie"; "1999"; "6.5"]].
Proof. vm_compute. split; reflexivity. Qed.

Lemma V1_loop_nil (eng : Engine) (stream : list ReadResult) :
  forall rowNumber db log,
    V1.ret (V1.loop eng stream rowNumber db log) = Ends None ->
    pickable moviesLoader stream /\
    accepted (V1.trace (V1.loop eng stream rowNumber db log))
    = accepted log ++ picked moviesLoader stream /\
    skips1 (V1.trace (V1.loop eng stream rowNumber db log))
    = skips1 log ++ badRows (rowNumber + 1) stream.
Proof.
  induction stream as [|[record|k] stream IH]; intros n db log Hret.
  - cbn. rewrite !app_nil_r. repeat split. constructor.
  - cbn [V1.loop] in *. cbn [picked badRows moviesLoader l_pick].
    unfold pickable.
    destruct (nth_error record 0) as [a|] eqn:E0; [|discriminate].
    destruct (nth_error record 1) as [b|] eqn:E1; [|discriminate].
    destruct (nth_error record 2) as [c|] eqn:E2; [|discriminate].
    destruct (nth_error record 3) as [d|] eqn:E3; [|discriminate].
    destruct (V1.dbExec eng Movies db V1.insertStmt [a; b; c; d])
      as [db' [e|]]; [discriminate|].
    destruct (IH _ _ _ Hret) as (Hp & Hacc & Hsk).
    split; [|split].
    + constructor; [|exact Hp].
      cbn [moviesLoader l_pick]. rewrite E0, E1, E2, E3. discriminate.
    + rewrite Hacc, !accepted_app. cbn. rewrite app_nil_r.
      now rewrite <- app_assoc.
    + rewrite Hsk, !skips1_app. cbn. rewrite !app_nil_r.
      now rewrite !Nat.add_1_r.
  - cbn [V1.loop] in *. cbn [picked badRows].
    destruct (IH _ _ _ Hret) as (Hp & Hacc & Hsk).
    split; [|split].
    + constructor; [exact I|exact Hp].
    + rewrite Hacc, accepted_app. cbn. now rewrite app_nil_r.
    + rewrite Hsk, skips1_app. cbn. rewrite <- app_assoc. cbn.
      now rewrite !Nat.add_1_r.
Qed.

Lemma V1_populate_nil :
  forall (eng : Engine) (db : DB) (stream : list ReadResult),
    V1.ret (V1.populate eng db (inr stream)) = Ends None ->
    exists header data,
      stream = Rec header :: data /\
      validateHeaders "movies" header = true /\
      pickable moviesLoader data /\
      V1.db_after (V1.populate eng db (inr stream))
      = addRows Movies (picked moviesLoader data) db /\
      skips1 (V1.trace (V1.populate eng db (inr stream))) = badRows 2 data.
Proof.
  intros eng db stream Hret.
  destruct stream as [|[header|k] data]; try discriminate.
  exists header, data. split; [reflexivity|].
  unfold V1.populate in *.
  destruct (validateHeaders "movies" header); cbn [negb] in *;
    [|discriminate].
  destruct (V1_loop_nil eng data 1 db [] Hret) as (Hp & Hacc & Hsk).
  rewrite (V1_loop_accepted eng db data 1 db [])
    by (cbn [accepted]; now rewrite addRows_nil).
  rewrite Hacc, Hsk. repeat split; auto.
Qed.

(** X9.  The first version returns nil only after a full load: the
    header was accepted, every record read could be indexed and was
    inserted - the [movies] table holds the rows it held before and one
    row per record read, no other row and none twice over, whatever the
    order in which the engine keeps them, and [movies_genres] holds what
    it held - and the rows reported as skipped are the records that
    failed to decode, numbered from 2 in the order read, the header being
    row 1. *)
Theorem first_version_nil_means_loaded :
  forall (eng : Engine) (db : DB) (stream : list ReadResult),
    V1.ret (V1.populate eng db (inr stream)) = Ends None ->
    exists header data,
      stream = Rec header :: data /\
      validateHeaders "movies" header = true /\
      pickable moviesLoader data /\
      Permutation (movies (V1.db_after (V1.populate eng db (inr stream))))
                  (movies db ++ picked moviesLoader data) /\
      Permutation
        (movies_genres (V1.db_after (V1.populate eng db (inr stream))))
        (movies_genres db) /\
      skips1 (V1.trace (V1.populate eng db (inr stream))) = badRows 2 data.
Proof.
  intros eng db stream Hret.
  destruct (V1_populate_nil eng db stream Hret)
    as (header & data & Hs & Hv & Hp & Hdb & Hsk).
  exists header, data. rewrite Hdb.
  repeat split; auto; reflexivity.
Qed.

Lemma first_version_nil_means_loaded_witness :
  let stream := [Rec ["id"; "name"; "year"; "rank"];
                 Rec ["3"; "C"; "2001"; "7"]; Bad ErrBareQuote;
                 Rec ["1"; "A"; "1999"; "5"]] in
  V1.ret (V1.populate acceptAll emptyDB (inr stream)) = Ends None /\
  exists header data,
    stream = Rec header :: data /\
    validateHeaders "movies" header = true /\
    pickable moviesLoader data /\
    Permutation
      (movies (V1.db_after (V1.populate acceptAll emptyDB (inr stream))))
      (movies emptyDB ++ picked moviesLoader data) /\
    Permutation
      (movies_genres
         (V1.db_after (V1.populate acceptAll emptyDB (inr stream))))
      (movies_genres emptyDB) /\
    skips1 (V1.trace (V1.populate acceptAll emptyDB (inr stream)))
    = badRows 2 data.
Proof.
  intros stream.
  assert (Hret : V1.ret (V1.populate acceptAll emptyDB (inr stream))
                 = Ends None) by reflexivity.
  exact (conj Hret
           (first_version_nil_means_loaded acceptAll emptyDB stream Hret)).
Defined.

(* ================================================================== *)
(** ** GROUP BY *)

Lemma FOP_app_inv {A : Type} (R : A -> A -> Prop) (a b : list A) :
  ForallOrdPairs R (a ++ b) ->
  ForallOrdPairs R a /\ ForallOrdPairs R b /\
  (forall x y, In x a -> In y b -> R x y).
Proof.
  induction a as [|x a IH]; simpl; intros H.
  - split; [constructor|]. split; [exact H|]. intros ? ? [].
  - inversion H as [|? ? Hx Ha]; subst.
    destruct (IH Ha) as (H1 & H2 & H3).
    rewrite Forall_app in Hx. destruct Hx as (Hxa & Hxb).
    split; [now constructor|]. split; [exact H2|].
    intros x' y [<-|Hin] Hy.
    + rewrite Forall_forall in Hxb. now apply Hxb.
    + now apply H3.
Qed.

Lemma FOP_snoc {A : Type} (R : A -> A -> Prop) (a : list A) (y : A) :
  ForallOrdPairs R a -> Forall (fun x => R x y) a ->
  ForallOrdPairs R (a ++ [y]).
Proof.
  induction 1 as [|x a Hx Ha IH]; simpl; intros Hy.
  - constructor; constructor.
  - inversion Hy; subst. constructor.
    + apply Forall_app. split; [exact Hx|]. now constructor.
    + now apply IH.
Qed.

Section GroupBy.

Context {K A : Type}.
Variable eqb : K -> K -> bool.
Variable key : A -> K.
Hypothesis eqb_refl : forall k, eqb k k = true.
Hypothesis eqb_sym : forall k k', eqb k k' = eqb k' k.
Hypothesis eqb_trans :
  forall k1 k2 k3, eqb k1 k2 = true -> eqb k2 k3 = true -> eqb k1 k3 = true.

Lemma addToGroup_new (k : K) (a : A) (gs : list (K * list A)) :
  Forall (fun g => eqb k (fst g) = false) gs ->
  Query.addToGroup eqb k a gs = gs ++ [(k, [a])].
Proof.
  induction 1 as [|[k' l'] gs Hk _ IH]; [reflexivity|].
  simpl in *. now rewrite Hk, IH.
Qed.

Lemma addToGroup_found (k : K) (a : A) (gs : list (K * list A)) :
  Exists (fun g => eqb k (fst g) = true) gs ->
  exists g1 k' l' g2,
    gs = g1 ++ (k', l') :: g2 /\
    eqb k k' = true /\
    Forall (fun g => eqb k (fst g) = false) g1 /\
    Query.addToGroup eqb k a gs = g1 ++ (k', l' ++ [a]) :: g2.
Proof.
  induction gs as [|[k' l'] gs IH]; intros Hex; [inversion Hex|].
  simpl. destruct (eqb k k') eqn:Hk.
  - exists [], k', l', gs. repeat split; auto.
  - inversion Hex as [? ? H|? ? H]; subst; [simpl in H; congruence|].
    destruct (IH H) as (g1 & k1 & l1 & g2 & -> & Hk1 & Hg1 & ->).
    exists ((k', l') :: g1), k1, l1, g2. repeat split; auto.
Qed.

Lemma filter_snoc (p : A -> bool) (l : list A) (a : A) :
  filter p (l ++ [a]) = filter p l ++ (if p a then [a] else []).
Proof. rewrite filter_app. reflexivity. Qed.

(** A group whose key differs from the new row's keeps its rows. *)
Lemma group_kept (l : list A) (a : A) (g : K * list A) :
  eqb (key a) (fst g) = false ->
  (exists a0 rest, snd g = a0 :: rest /\ fst g = key a0) /\
  snd g = filter (fun x => eqb (key x) (fst g)) l ->
  (exists a0 rest, snd g = a0 :: rest /\ fst g = key a0) /\
  snd g = filter (fun x => eqb (key x) (fst g)) (l ++ [a]).
Proof.
  intros Hk (H1 & H2). split; [exact H1|].
  rewrite filter_snoc, Hk, app_nil_r. exact H2.
Qed.

Lemma Grouped_add (l : list A) (a : A) (gs : list (K * list A)) :
  Grouped eqb key l gs ->
  Grouped eqb key (l ++ [a]) (Query.addToGroup eqb (key a) a gs).
Proof.
  intros (Hrows & Hkeys & Hall).
  destruct (Exists_dec (fun g => eqb (key a) (fst g) = true) gs) as [Hex|Hno].
  { intros g. destruct (eqb (key a) (fst g)); [now left|now right]. }
  - destruct (addToGroup_found (key a) a gs Hex)
      as (g1 & k' & l' & g2 & -> & Hk & Hg1 & ->).
    assert (Hg2 : Forall (fun g => eqb (key a) (fst g) = false) g2).
    { apply Forall_forall. intros g Hg.
      destruct (eqb (key a) (fst g)) eqn:E; [|reflexivity].
      rewrite map_app in Hkeys. apply FOP_app_inv in Hkeys.
      destruct Hkeys as (_ & Hkeys & _). cbn [map fst] in Hkeys.
      inversion Hkeys as [|? ? Hfa _]; subst.
      rewrite Forall_forall in Hfa.
      specialize (Hfa (fst g) (in_map fst _ _ Hg)). cbn beta in Hfa.
      rewrite eqb_sym in Hk.
      rewrite eqb_sym, (eqb_trans _ _ _ Hk E) in Hfa. discriminate. }
    apply Forall_app in Hrows. destruct Hrows as (Hr1 & Hr2).
    inversion Hr2 as [|? ? ((a0 & rest & Hl' & Hk') & Hfil) Hr3]; subst.
    cbn [fst snd] in *.
    split; [|split].
    + apply Forall_app. split.
      * rewrite Forall_forall in *. intros g Hg.
        apply group_kept; auto.
      * constructor.
        -- cbn [fst snd]. split.
           ++ exists a0, (rest ++ [a]). rewrite Hl'. now split.
           ++ rewrite filter_snoc, Hk, <- Hfil. reflexivity.
        -- rewrite Forall_forall in *. intros g Hg.
           apply group_kept; auto.
    + rewrite map_app in *. exact Hkeys.
    + intros x Hx. apply in_app_or in Hx. destruct Hx as [Hx|[<-|[]]].
      * destruct (Hall x Hx) as (g & Hg & Hgx).
        apply in_app_or in Hg. destruct Hg as [Hg|[<-|Hg]].
        -- exists g. split; [apply in_or_app; now left|exact Hgx].
        -- exists (k', l' ++ [a]). split; [|exact Hgx].
           apply in_or_app. right. now left.
        -- exists g. split; [|exact Hgx].
           apply in_or_app. right. now right.
      * exists (k', l' ++ [a]). split; [|exact Hk].
        apply in_or_app. right. now left.
  - assert (Hnone : Forall (fun g => eqb (key a) (fst g) = false) gs).
    { apply Forall_forall. intros g Hg.
      destruct (eqb (key a) (fst g)) eqn:E; [|reflexivity].
      exfalso. apply Hno. apply Exists_exists. now exists g. }
    rewrite addToGroup_new by exact Hnone.
    assert (Hfresh : forall x, In x l -> eqb (key x) (key a) = false).
    { intros x Hx. destruct (eqb (key x) (key a)) eqn:E; [|reflexivity].
      destruct (Hall x Hx) as (g & Hg & Hgx).
      rewrite Forall_forall in Hnone. specialize (Hnone g Hg).
      rewrite eqb_sym in E.
      rewrite (eqb_trans _ _ _ E Hgx) in Hnone. discriminate. }
    assert (Hnil : filter (fun x => eqb (key x) (key a)) l = []).
    { clear - Hfresh. induction l as [|x l IHl]; [reflexivity|].
      simpl. rewrite Hfresh by now left.
      apply IHl. intros y Hy. apply Hfresh. now right. }
    split; [|split].
    + apply Forall_app. split.
      * rewrite Forall_forall in *. intros g Hg.
        apply group_kept; auto.
      * constructor; [|constructor]. cbn [fst snd]. split.
        -- now exists a, [].
        -- now rewrite filter_snoc, Hnil, eqb_refl.
    + rewrite map_app. apply FOP_snoc; [exact Hkeys|].
      apply Forall_map. exact Hnone.
    + intros x Hx. apply in_app_or in Hx. destruct Hx as [Hx|[<-|[]]].
      * destruct (Hall x Hx) as (g & Hg & Hgx).
        exists g. split; [apply in_or_app; now left|exact Hgx].
      * exists (key a, [a]). split; [|apply eqb_refl].
        apply in_or_app. right. now left.
Qed.

Lemma groupBy_snoc (l : list A) (a : A) :
  Query.groupBy eqb key (l ++ [a])
  = Query.addToGroup eqb (key a) a (Query.groupBy eqb key l).
Proof. unfold Query.groupBy. now rewrite fold_left_app. Qed.

(** [groupBy] gives the groups of its list. *)
Lemma groupBy_Grouped (l : list A) :
  Grouped eqb key l (Query.groupBy eqb key l).
Proof.
  induction l as [|a l IH] using rev_ind.
  - split; [constructor|]. split; [constructor|]. intros ? [].
  - rewrite groupBy_snoc. now apply Grouped_add.
Qed.

End GroupBy.

(* ================================================================== *)
(** ** The second reporting query *)

Lemma String_eqb_trans (a b c : string) :
  String.eqb a b = true -> String.eqb b c = true -> String.eqb a c = true.
Proof. rewrite !String.eqb_eq. congruence. Qed.

(** The groups of the second query. *)
Lemma genres_Grouped (l : list (Query.MovieGenre * Query.Movie)) :
  Grouped String.eqb (fun x => Query.mg_genre (fst x)) l
          (Query.groupBy String.eqb (fun x => Query.mg_genre (fst x)) l).
Proof.
  apply groupBy_Grouped.
  - apply String.eqb_refl.
  - apply String.eqb_sym.
  - apply String_eqb_trans.
Qed.

Lemma count_insertDesc_perm (r : Query2.CountRow) (l : list Query2.CountRow) :
  Permutation (Query2.insertDesc r l) (r :: l).
Proof.
  induction l as [|r' l IH]; simpl; [reflexivity|].
  destruct (snd r <=? snd r'); [|reflexivity].
  rewrite IH. apply perm_swap.
Qed.

Lemma count_insertDesc_sorted (r : Query2.CountRow)
      (l : list Query2.CountRow) :
  StronglySorted (fun a b => snd b <= snd a) l ->
  StronglySorted (fun a b => snd b <= snd a) (Query2.insertDesc r l).
Proof.
  induction 1 as [|r' l Hl IH Hr']; simpl.
  - constructor; constructor.
  - destruct (snd r <=? snd r') eqn:E.
    + apply Nat.leb_le in E. constructor; [exact IH|].
      rewrite Forall_forall in *. intros x Hx.
      apply (Permutation_in _ (count_insertDesc_perm r l)) in Hx.
      destruct Hx as [<-|Hx]; [exact E|now apply Hr'].
    + apply Nat.leb_gt in E. constructor.
      * now constructor.
      * constructor; [lia|].
        rewrite Forall_forall in *. intros x Hx.
        specialize (Hr' x Hx). cbn beta in Hr'. lia.
Qed.

Lemma orderByCountDesc_from (l acc : list Query2.CountRow) :
  StronglySorted (fun a b => snd b <= snd a) acc ->
  Permutation (fold_left (fun acc r => Query2.insertDesc r acc) l acc)
              (l ++ acc) /\
  StronglySorted (fun a b => snd b <= snd a)
                 (fold_left (fun acc r => Query2.insertDesc r acc) l acc).
Proof.
  revert acc. induction l as [|r l IH]; intros acc Hacc; simpl.
  - now split.
  - destruct (IH (Query2.insertDesc r acc)
                 (count_insertDesc_sorted r acc Hacc)) as (Hp & Hs).
    split; [|exact Hs].
    rewrite Hp, count_insertDesc_perm. symmetry. apply Permutation_middle.
Qed.

Lemma orderByCountDesc_spec (l : list Query2.CountRow) :
  Permutation (Query2.orderByCountDesc l) l /\
  StronglySorted (fun a b => snd b <= snd a) (Query2.orderByCountDesc l).
Proof.
  destruct (orderByCountDesc_from l [] (SSorted_nil _)) as (Hp & Hs).
  rewrite app_nil_r in Hp. now split.
Qed.

Lemma StronglySorted_app_inv {A : Type} (R : A -> A -> Prop)
      (a b : list A) :
  StronglySorted R (a ++ b) ->
  StronglySorted R a /\ forall x y, In x a -> In y b -> R x y.
Proof.
  induction a as [|x a IH]; simpl; intros H.
  - split; [constructor|]. intros ? ? [].
  - inversion H as [|? ? Ha Hx]; subst.
    destruct (IH Ha) as (H1 & H2).
    rewrite Forall_app in Hx. destruct Hx as (Hxa & Hxb).
    split; [now constructor|].
    intros x' y [<-|Hin] Hy.
    + rewrite Forall_forall in Hxb. now apply Hxb.
    + now apply H2.
Qed.

Lemma in_firstn {A : Type} (n : nat) (l : list A) (x : A) :
  In x (firstn n l) -> In x l.
Proof.
  intros H. rewrite <- (firstn_skipn n l). apply in_or_app. now left.
Qed.

Lemma NoDup_keys (gs : list (string * list (Query.MovieGenre * Query.Movie))) :
  ForallOrdPairs (fun k1 k2 => String.eqb k2 k1 = false) (map fst gs) ->
  NoDup (map fst gs).
Proof.
  intros H. apply NoDup_iff_ForallOrdPairs.
  induction H as [|k ks Hk _ IH]; constructor; [|exact IH].
  rewrite Forall_forall in *. intros k' Hk' ->.
  specialize (Hk _ Hk'). cbn beta in Hk.
  now rewrite String.eqb_refl in Hk.
Qed.

(** The rows of the second query before LIMIT: one per genre, sorted. *)
Lemma count_rows_all (db : Query.Tables) :
  let groups := Query.groupBy String.eqb (fun x => Query.mg_genre (fst x))
                              (Query.joined db) in
  let S := Query2.orderByCountDesc
             (map (fun g => (fst g, Query.COUNT (snd g))) groups) in
  Query2.movieCountPerGenreRows db = firstn 20 S /\
  StronglySorted (fun a b => snd b <= snd a) S /\
  NoDup (map fst S) /\
  (forall g n, In (g, n) S ->
               n = List.length (ofGenre db g) /\ 1 <= n) /\
  (forall x, In x (Query.joined db) ->
             exists n, In (Query.mg_genre (fst x), n) S).
Proof.
  intros groups S.
  destruct (genres_Grouped (Query.joined db)) as (Hrows & Hkeys & Hall).
  fold groups in Hrows, Hkeys, Hall.
  destruct (orderByCountDesc_spec
              (map (fun g => (fst g, Query.COUNT (snd g))) groups))
    as (Hp & Hs).
  fold S in Hp, Hs.
  split; [reflexivity|]. split; [exact Hs|]. split; [|split].
  - apply (Permutation_NoDup (l := map fst groups)).
    + symmetry. rewrite Hp, map_map. cbn [fst]. reflexivity.
    + now apply NoDup_keys.
  - intros g n Hin.
    apply (Permutation_in _ Hp) in Hin.
    apply in_map_iff in Hin. destruct Hin as ([k rows] & [= <- <-] & Hg).
    rewrite Forall_forall in Hrows.
    destruct (Hrows _ Hg) as ((a0 & rest & Hl & _) & Hfil).
    cbn [fst snd] in *. unfold Query.COUNT, ofGenre.
    rewrite <- Hfil. split; [reflexivity|]. rewrite Hl. simpl. lia.
  - intros x Hx. destruct (Hall x Hx) as ([k rows] & Hg & Hk).
    cbn [fst] in Hk. apply String.eqb_eq in Hk. subst k.
    exists (Query.COUNT rows).
    apply (Permutation_in _ (Permutation_sym Hp)).
    apply in_map_iff. now exists (Query.mg_genre (fst x), rows).
Qed.

(** X10. The second query returns at most 20 rows, no genre twice, and
    the count of each row is the number of joined rows of its genre - at
    least one. *)
Theorem movie_count_rows_exact :
  forall (db : Query.Tables),
    List.length (Query2.movieCountPerGenreRows db) <= 20 /\
    NoDup (map fst (Query2.movieCountPerGenreRows db)) /\
    Forall (fun row => snd row = List.length (ofGenre db (fst row)) /\
                       1 <= snd row)
           (Query2.movieCountPerGenreRows db).
Proof.
  intros db.
  destruct (count_rows_all db) as (-> & Hs & Hnd & Hcount & Hall).
  split; [apply firstn_le_length|]. split.
  - rewrite <- firstn_map.
    rewrite <- (firstn_skipn 20 (map fst _)) in Hnd.
    now apply NoDup_app_remove_r in Hnd.
  - apply Forall_forall. intros [g n] Hin. apply Hcount.
    eapply in_firstn; eauto.
Qed.

(** Two dramas and a comedy: the comedy has no rating and counts all the
    same, since this query has no WHERE clause. *)
Example movie_count_sample :
  Query2.movieCountPerGenreRows Query.sample = [("Drama", 2); ("Comedy", 1)].
Proof. reflexivity. Qed.

(** X11. The rows of the second query are in descending order of count,
    and they are the largest counts: the genre of a joined row is
    listed, or 20 rows are listed and each of them has a count at least
    as large as that genre's. *)
Theorem movie_count_rows_top :
  forall (db : Query.Tables),
    StronglySorted (fun a b => snd b <= snd a)
                   (Query2.movieCountPerGenreRows db) /\
    Forall (fun x =>
              In (Query.mg_genre (fst x))
                 (map fst (Query2.movieCountPerGenreRows db)) \/
              (List.length (Query2.movieCountPerGenreRows db) = 20 /\
               Forall (fun r =>
                         List.length (ofGenre db (Query.mg_genre (fst x)))
                         <= snd r)
                      (Query2.movieCountPerGenreRows db)))
           (Query.joined db).
Proof.
  intros db.
  destruct (count_rows_all db) as (-> & Hs & Hnd & Hcount & Hall).
  set (S := Query2.orderByCountDesc _) in *.
  rewrite <- (firstn_skipn 20 S) in Hs.
  apply StronglySorted_app_inv in Hs. destruct Hs as (Hs & Hcross).
  split; [exact Hs|].
  apply Forall_forall.
  intros x Hx. destruct (Hall x Hx) as (n & Hn).
  pose proof (proj1 (Hcount _ _ Hn)) as Hnx.
  rewrite <- (firstn_skipn 20 S) in Hn.
  apply in_app_or in Hn. destruct Hn as [Hn|Hn].
  - left. apply in_map_iff. now exists (Query.mg_genre (fst x), n).
  - right. split.
    + apply firstn_length_le.
      destruct (Nat.le_gt_cases 20 (List.length S)) as [H|H]; [exact H|].
      rewrite skipn_all2 in Hn by lia. destruct Hn.
    + apply Forall_forall.
      intros r Hr. specialize (Hcross r _ Hr Hn). cbn [snd] in Hcross.
      now rewrite <- Hnx.
Qed.

(* ================================================================== *)
(** ** The rows of the first reporting query *)

Lemma valueEqb_refl (v : Query.Value) : Query.valueEqb v v = true.
Proof.
  destruct v; simpl; auto.
  - apply Qeq_bool_iff. reflexivity.
  - apply String.eqb_refl.
Qed.

Lemma valueEqb_sym (a b : Query.Value) :
  Query.valueEqb a b = Query.valueEqb b a.
Proof.
  destruct a, b; simpl; auto.
  - destruct (Qeq_bool q q0) eqn:E1, (Qeq_bool q0 q) eqn:E2; auto.
    + apply Qeq_bool_iff in E1. symmetry in E1.
      apply Qeq_bool_iff in E1. congruence.
    + apply Qeq_bool_iff in E2. symmetry in E2.
      apply Qeq_bool_iff in E2. congruence.
  - apply String.eqb_sym.
Qed.

Lemma valueEqb_trans (a b c : Query.Value) :
  Query.valueEqb a b = true -> Query.valueEqb b c = true ->
  Query.valueEqb a c = true.
Proof.
  destruct a, b, c; simpl; auto; try discriminate.
  - rewrite !Qeq_bool_iff. intros H1 H2. now rewrite H1.
  - apply String_eqb_trans.
Qed.

(** The groups of the first query: by genre and rating. *)
Lemma rated_Grouped (l : list (Query.MovieGenre * Query.Movie)) :
  Grouped
    (fun a b => String.eqb (fst a) (fst b) && Query.valueEqb (snd a) (snd b))
    (fun x => (Query.mg_genre (fst x), Query.m_rank (snd x))) l
    (Query.groupBy
       (fun a b => String.eqb (fst a) (fst b)
                   && Query.valueEqb (snd a) (snd b))
       (fun x => (Query.mg_genre (fst x), Query.m_rank (snd x))) l).
Proof.
  apply groupBy_Grouped.
  - intros [g r]. cbn [fst snd].
    now rewrite String.eqb_refl, valueEqb_refl.
  - intros [g r] [g' r']. cbn [fst snd].
    now rewrite String.eqb_sym, valueEqb_sym.
  - intros [g1 r1] [g2 r2] [g3 r3]. cbn [fst snd].
    rewrite !andb_true_iff. intros (H1 & H2) (H3 & H4).
    split; [eapply String_eqb_trans|eapply valueEqb_trans]; eauto.
Qed.

Lemma avg_insertDesc_perm (r : Query.ResultRow) (l : list Query.ResultRow) :
  Permutation (Query.insertDesc r l) (r :: l).
Proof.
  induction l as [|r' l IH]; simpl; [reflexivity|].
  destruct (Qle_bool _ _); [|reflexivity].
  rewrite IH. apply perm_swap.
Qed.

Lemma orderByAvgDesc_perm (l : list Query.ResultRow) :
  Permutation (Query.orderByAvgDesc l) l.
Proof.
  unfold Query.orderByAvgDesc.
  assert (H : forall acc,
             Permutation
               (fold_left (fun acc r => Query.insertDesc r acc) l acc)
               (l ++ acc)).
  { induction l as [|r l IH]; intros acc; simpl; [reflexivity|].
    rewrite IH, avg_insertDesc_perm. symmetry. apply Permutation_middle. }
  rewrite (H []). now rewrite app_nil_r.
Qed.

Lemma addToGroup_keys {K A : Type} (eqb : K -> K -> bool) (k : K) (a : A)
      (gs : list (K * list A)) :
  map fst (Query.addToGroup eqb k a gs)
  = if existsb (eqb k) (map fst gs) then map fst gs else map fst gs ++ [k].
Proof.
  induction gs as [|[k' l'] gs IH]; [reflexivity|].
  simpl. destruct (eqb k k'); [reflexivity|].
  simpl. rewrite IH. now destruct (existsb (eqb k) (map fst gs)).
Qed.

(** The groups of [groupBy] are as many as the different keys. *)
Lemma groupBy_keys {K A : Type} (eqb : K -> K -> bool) (key : A -> K)
      (l : list A) :
  map fst (Query.groupBy eqb key l) = distinctKeys eqb (map key l).
Proof.
  induction l as [|a l IH] using rev_ind; [reflexivity|].
  unfold Query.groupBy, distinctKeys in *.
  rewrite map_app, !fold_left_app. cbn [map fold_left].
  rewrite addToGroup_keys. now rewrite IH.
Qed.

Lemma filter_ext_in_eq {A : Type} (p q : A -> bool) (l : list A) :
  (forall x, In x l -> p x = q x) -> filter p l = filter q l.
Proof.
  induction l as [|x l IH]; intros H; [reflexivity|].
  simpl. rewrite (H x) by now left.
  rewrite IH; [reflexivity|]. intros y Hy. apply H. now right.
Qed.

Lemma pairEqb_trans (a b c : string * Query.Value) :
  pairEqb a b = true -> pairEqb b c = true -> pairEqb a c = true.
Proof.
  unfold pairEqb. rewrite !andb_true_iff. intros (H1 & H2) (H3 & H4).
  split; [eapply String_eqb_trans|eapply valueEqb_trans]; eauto.
Qed.

Lemma pairEqb_sym (a b : string * Query.Value) : pairEqb a b = pairEqb b a.
Proof. unfold pairEqb. now rewrite String.eqb_sym, valueEqb_sym. Qed.

(** Two equal pairs select the same rows. *)
Lemma pairEqb_same_rows (a b : string * Query.Value)
      (l : list (Query.MovieGenre * Query.Movie)) :
  pairEqb a b = true ->
  filter (fun x => pairEqb (Query.mg_genre (fst x), Query.m_rank (snd x)) a) l
  = filter (fun x => pairEqb (Query.mg_genre (fst x), Query.m_rank (snd x)) b)
           l.
Proof.
  intros Hab. apply filter_ext_in_eq. intros x _.
  set (kx := (Query.mg_genre (fst x), Query.m_rank (snd x))).
  destruct (pairEqb kx a) eqn:Ea.
  - symmetry. eapply pairEqb_trans; eauto.
  - destruct (pairEqb kx b) eqn:Eb; [|reflexivity].
    rewrite pairEqb_sym in Hab.
    rewrite (pairEqb_trans _ _ _ Eb Hab) in Ea. discriminate.
Qed.

(** The sample has two dramas with different ratings and a comedy
    without one: two pairs, both of the genre Drama. *)
Example rated_pairs_sample :
  map fst (ratedPairs Query.sample) = ["Drama"; "Drama"] /\
  List.length (fst (Query.queryDbHighestRatedGenres Query.sample)) = 2.
Proof. vm_compute. split; reflexivity. Qed.

(** X3.  The first query returns one row for each pair of a genre and a
    rating, up to 20 rows: the number of its rows is the smaller of 20
    and the number of different pairs among the joined rows that pass the
    WHERE clause; the count of each row is the number of those rows with
    one genre and one rating, at least one; and every pair has its row,
    with its count, unless 20 rows are returned.  So a genre with two
    ratings gives two rows. *)
Theorem highest_rated_rows_count_one_rating :
  forall (db : Query.Tables),
    List.length (fst (Query.queryDbHighestRatedGenres db))
    = Nat.min 20 (List.length (ratedPairs db)) /\
    Forall (fun row =>
              exists r,
                Query.rated r = true /\
                snd row = List.length (ofGenreAndRating db (fst (fst row)) r)
                /\ 1 <= snd row)
           (fst (Query.queryDbHighestRatedGenres db)) /\
    Forall (fun x =>
              (exists avg,
                  In (Query.mg_genre (fst x), avg,
                      List.length (ofGenreAndRating db (Query.mg_genre (fst x))
                                                    (Query.m_rank (snd x))))
                     (fst (Query.queryDbHighestRatedGenres db))) \/
              List.length (fst (Query.queryDbHighestRatedGenres db)) = 20)
           (ratedRows db).
Proof.
  intros db.
  unfold Query.queryDbHighestRatedGenres, Query.highestRatedGenresRows.
  cbn [fst]. fold (ratedRows db).
  change (fun a b : string * Query.Value =>
            String.eqb (fst a) (fst b) && Query.valueEqb (snd a) (snd b))
    with pairEqb.
  set (key := fun x : Query.MovieGenre * Query.Movie =>
                (Query.mg_genre (fst x), Query.m_rank (snd x))).
  set (groups := Query.groupBy pairEqb key (ratedRows db)).
  set (f := fun g : string * Query.Value
                    * list (Query.MovieGenre * Query.Movie) =>
              (fst (fst g), Query.AVG (snd g), Query.COUNT (snd g))).
  set (S := Query.orderByAvgDesc (map f groups)).
  pose proof (orderByAvgDesc_perm (map f groups)) as Hp. fold S in Hp.
  destruct (rated_Grouped (ratedRows db)) as (Hrows & _ & Hall).
  change (fun a b : string * Query.Value =>
            String.eqb (fst a) (fst b) && Query.valueEqb (snd a) (snd b))
    with pairEqb in Hrows, Hall.
  fold key in Hrows, Hall. fold groups in Hrows, Hall.
  rewrite Forall_forall in Hrows.
  assert (Hcount : forall k rows,
             In (k, rows) groups ->
             Query.COUNT rows
             = List.length (ofGenreAndRating db (fst k) (snd k)) /\
             1 <= Query.COUNT rows /\
             exists a0, In a0 (ratedRows db) /\ k = key a0).
  { intros k rows Hg.
    destruct (Hrows _ Hg) as ((a0 & rest & Hl & Hk) & Hfil).
    cbn [fst snd] in *. unfold Query.COUNT.
    split; [|split].
    - rewrite Hfil at 1. reflexivity.
    - rewrite Hl. simpl. lia.
    - exists a0. split; [|exact Hk].
      assert (Hin1 : In a0 rows) by (rewrite Hl; now left).
      rewrite Hfil in Hin1. apply filter_In in Hin1. tauto. }
  split; [|split].
  - rewrite length_firstn. f_equal.
    rewrite (Permutation_length Hp), length_map.
    unfold ratedPairs. rewrite <- groupBy_keys. fold key. fold groups.
    now rewrite length_map.
  - apply Forall_forall. intros [[g a] n] Hin.
    apply in_firstn in Hin.
    apply (Permutation_in _ Hp) in Hin.
    apply in_map_iff in Hin.
    destruct Hin as ([k rows] & Heq & Hg).
    unfold f in Heq. cbn [fst snd] in Heq.
    inversion Heq; subst g a n. clear Heq.
    destruct (Hcount _ _ Hg) as (Hc & Hpos & a0 & Hin0 & ->).
    exists (Query.m_rank (snd a0)). cbn [fst snd].
    unfold ratedRows in Hin0. apply filter_In in Hin0.
    split; [tauto|]. split; [exact Hc|exact Hpos].
  - apply Forall_forall. intros x Hx.
    destruct (Hall x Hx) as ([k rows] & Hg & Hk).
    change (pairEqb (key x) k = true) in Hk.
    destruct (Hcount _ _ Hg) as (Hc & _ & _).
    assert (HinS : In (f (k, rows)) S).
    { apply (Permutation_in _ (Permutation_sym Hp)).
      apply in_map_iff. now exists (k, rows). }
    rewrite <- (firstn_skipn 20 S) in HinS.
    apply in_app_or in HinS. destruct HinS as [Hin|Hin].
    + left. exists (Query.AVG rows).
      unfold f in Hin. cbn [fst snd] in Hin.
      assert (Hg1 : fst k = Query.mg_genre (fst x)).
      { unfold pairEqb, key in Hk. cbn [fst snd] in Hk.
        apply andb_true_iff in Hk. destruct Hk as (Hk & _).
        apply String.eqb_eq in Hk. now symmetry. }
      assert (Hsame : ofGenreAndRating db (fst k) (snd k)
                      = ofGenreAndRating db (Query.mg_genre (fst x))
                                         (Query.m_rank (snd x))).
      { rewrite pairEqb_sym in Hk.
        apply (pairEqb_same_rows k (key x) (ratedRows db)) in Hk.
        destruct k as [g r]. exact Hk. }
      rewrite <- Hsame, <- Hc, <- Hg1. exact Hin.
    + right. apply firstn_length_le.
      destruct (Nat.le_gt_cases 20 (List.length S)) as [H|H]; [exact H|].
      rewrite skipn_all2 in Hin by lia. destruct Hin.
Qed.

(* ================================================================== *)
(** ** [main] *)

Lemma inOrder_spec (l : list Step) :
  inOrder l = true ->
  forall a s b,
    l = a ++ s :: b -> operation s = true ->
    Forall (fun x => succeeded x = true) a.
Proof.
  induction l as [|x l IH]; intros H a s b Heq Hop.
  - destruct a; discriminate.
  - simpl in H. apply andb_true_iff in H. destruct H as (Hx & Hl).
    destruct a as [|y a]; [constructor|].
    inversion Heq; subst y l. constructor; [|eapply IH; eauto].
    apply orb_true_iff in Hx. destruct Hx as [Hx|Hx]; [exact Hx|].
    rewrite forallb_app in Hx. apply andb_true_iff in Hx.
    destruct Hx as (_ & Hx). simpl in Hx. rewrite Hop in Hx. discriminate.
Qed.

Lemma work_steps (w : World) (db0 : DB) :
  let sw := fst (fst (work w db0)) in
  Forall (fun s => isRelease s = false) sw /\
  inOrder sw = true /\
  (exists x rest, sw = x :: rest /\ operation x = true).
Proof.
  unfold work.
  destruct (ret (populateMovies (engine w) db0 (moviesCSV w)))
    as [[e|]|] eqn:E1.
  - cbn. rewrite E1. repeat split; repeat constructor; eauto.
  - set (o1 := populateMovies (engine w) db0 (moviesCSV w)) in *.
    destruct (ret (populateMoviesGenres (engine w) (db_after o1)
                                        (moviesGenresCSV w)))
      as [[e|]|] eqn:E2.
    + cbn. rewrite E1, E2. repeat split; repeat constructor; eauto.
    + set (o2 := populateMoviesGenres _ _ _) in *.
      destruct (Report.queryDbHighestRatedGenres _) as [[[f|]|] out3].
      * cbn. rewrite E1, E2. repeat split; repeat constructor; eauto.
      * destruct (Report.queryDbMovieCountPerGenre _) as [[[f|]|] out4];
          cbn; rewrite E1, E2; repeat split; repeat constructor; eauto.
      * cbn. rewrite E1, E2. repeat split; repeat constructor; eauto.
    + cbn. rewrite E1, E2. repeat split; repeat constructor; eauto.
  - cbn. rewrite E1. repeat split; repeat constructor; eauto.
Qed.

Lemma filter_none {A : Type} (p : A -> bool) (l : list A) :
  Forall (fun x => p x = false) l -> filter p l = [].
Proof.
  induction 1 as [|x l Hx _ IH]; [reflexivity|].
  simpl. now rewrite Hx.
Qed.

(** X12. Whatever happens - an error at any step, or a panic in a loader
    or in a report - [main] gives back what it acquired, in this order:
    the database is closed once through each struct when the schema was
    created, once by [newSchema] when it was not, and the directory is
    removed last; and no call on the database follows. *)
Theorem main_cleans_up :
  forall (w : World),
    filter isRelease (steps (main w))
    = match mkdirTemp w with
      | inl _ => []
      | inr dir =>
          match sqlOpen w with
          | Some _ => [RemoveAll dir]
          | None =>
              match execSchema w with
              | Some _ => [CloseNew; RemoveAll dir]
              | None => [Close MoviesGenres; Close Movies; RemoveAll dir]
              end
          end
      end /\
    exists before after,
      steps (main w) = before ++ after /\
      Forall (fun s => isRelease s = false) before /\
      Forall (fun s => usesDB s = false) after.
Proof.
  intros w. unfold main, newSchema.
  destruct (mkdirTemp w) as [e|dir].
  - split; [reflexivity|]. eexists _, []. rewrite app_nil_r.
    split; [reflexivity|]. split; repeat constructor.
  - destruct (sqlOpen w) as [e|].
    + split; [reflexivity|].
      exists [MkdirTemp (inr dir); SqlOpen (Some e)], 
        [sayError "Error opening database:" (Passed e);
         sayError "Error creating schema:" (Passed e); RemoveAll dir].
      split; [reflexivity|]. split; repeat constructor.
    + destruct (execSchema w) as [e|].
      * split; [reflexivity|].
        exists [MkdirTemp (inr dir); SqlOpen None; ExecSchema (Some e)],
          [CloseNew; sayError "Error creating schema:" (Passed e);
           sayError "Error creating schema:" (Passed e); RemoveAll dir].
        split; [reflexivity|]. split; repeat constructor.
      * destruct (work_steps w (mkDB [] [])) as (Hrel & _ & _).
        destruct (work w (mkDB [] [])) as [[sw crash] db].
        cbn [fst steps] in *. split.
        -- cbn [app filter isRelease]. rewrite filter_app.
           rewrite (filter_none _ _ Hrel). reflexivity.
        -- exists (MkdirTemp (inr dir) :: [SqlOpen None; ExecSchema None]
                   ++ [Say (Report.Println
                              [Report.AString
                                 "Database schema created successfully"])]
                   ++ sw),
             [Close MoviesGenres; Close Movies; RemoveAll dir].
           split; [reflexivity|].
           split; [|repeat constructor].
           cbn [app]. repeat constructor. exact Hrel.
Qed.

(** X13. [main] stops at the first call that fails: every call it makes
    - [os.MkdirTemp], [sql.Open], the schema, the two loads and the two
    reports, in this order - comes after calls that all returned nil. *)
Theorem main_stops_at_first_failure :
  forall (w : World) (a : list Step) (s : Step) (b : list Step),
    steps (main w) = a ++ s :: b ->
    operation s = true ->
    Forall (fun x => succeeded x = true) a.
Proof.
  intros w. apply inOrder_spec.
  unfold main, newSchema.
  destruct (mkdirTemp w) as [e|dir]; [reflexivity|].
  destruct (sqlOpen w) as [e|]; [reflexivity|].
  destruct (execSchema w) as [e|]; [reflexivity|].
  destruct (work_steps w (mkDB [] [])) as (_ & Hord & _).
  destruct (work w (mkDB [] [])) as [[sw crash] db].
  cbn [fst steps] in *. cbn [app inOrder succeeded orb andb].
  induction sw as [|x sw IH]; [reflexivity|].
  cbn [app inOrder] in *. apply andb_true_iff in Hord.
  destruct Hord as (Hx & Hsw). rewrite (IH Hsw), andb_true_r.
  apply orb_true_iff in Hx. destruct Hx as [->|Hx]; [reflexivity|].
  rewrite forallb_app, Hx. cbn. apply orb_true_r.
Qed.

Lemma main_stops_at_first_failure_witness :
  let o1 := populateMovies acceptAll (mkDB [] []) (inr (moviesFile [1; 2])) in
  let o2 := populateMoviesGenres acceptAll (db_after o1)
              (inl (ErrOpen "no such file or directory")) in
  let a := [MkdirTemp (inr "/tmp/moviedb-2"); SqlOpen None; ExecSchema None;
            Say (Report.Println
                   [Report.AString "Database schema created successfully"]);
            PopulateMovies o1] in
  let b := [sayError "Error populating movies_genres table:"
                     (Passed (ErrOpen "no such file or directory"));
            Close MoviesGenres; Close Movies;
            RemoveAll "/tmp/moviedb-2"] in
  steps (main noGenresWorld) = a ++ PopulateMoviesGenres o2 :: b /\
  operation (PopulateMoviesGenres o2) = true /\
  Forall (fun x => succeeded x = true) a.
Proof.
  intros o1 o2 a b.
  assert (H1 : steps (main noGenresWorld) = a ++ PopulateMoviesGenres o2 :: b)
    by (vm_compute; reflexivity).
  assert (H2 : operation (PopulateMoviesGenres o2) = true) by reflexivity.
  exact (conj H1 (conj H2
           (main_stops_at_first_failure noGenresWorld a
              (PopulateMoviesGenres o2) b H1 H2))).
Defined.

(** X14. A file of [movies] whose header fails validation does not stop
    [main]: the load returns nil with nothing inserted, and [main] goes
    on to load [movies_genres] into a database whose [movies] table is
    empty. *)
Theorem main_goes_on_after_invalid_header :
  forall (w : World) (dir content : string) (header : list string)
         (stream : list ReadResult),
    mkdirTemp w = inr dir ->
    sqlOpen w = None ->
    execSchema w = None ->
    moviesCSV w = inr content ->
    Csv.records (Csv.setLazyQuotes (Csv.NewReader content) true)
    = Rec header :: stream ->
    validateHeaders "movies" header = false ->
    exists rest,
      steps (main w)
      = [MkdirTemp (inr dir); SqlOpen None; ExecSchema None;
         Say (Report.Println
                [Report.AString "Database schema created successfully"]);
         PopulateMovies (mkOutcome (Returned None) (mkDB [] []) None []);
         PopulateMoviesGenres
           (populateMoviesGenres (engine w) (mkDB [] [])
                                 (moviesGenresCSV w))]
        ++ rest.
Proof.
  intros w dir content header stream Hdir Hopen Hschema Hcsv Hrec Hvalid.
  unfold main, newSchema. rewrite Hdir, Hopen, Hschema.
  assert (Ho1 : populateMovies (engine w) (mkDB [] []) (moviesCSV w)
                = mkOutcome (Returned None) (mkDB [] []) None []).
  { unfold populateMovies, openCSV. rewrite Hcsv, Hrec.
    unfold populate. cbn [moviesLoader l_name]. now rewrite Hvalid. }
  unfold work. rewrite Ho1. cbn [ret db_after].
  destruct (ret (populateMoviesGenres (engine w) (mkDB [] [])
                                      (moviesGenresCSV w))) as [[e|]|].
  - eexists. cbn [steps app]. reflexivity.
  - destruct (Report.queryDbHighestRatedGenres _) as [[[f|]|] out3].
    + eexists. cbn [steps app]. reflexivity.
    + destruct (Report.queryDbMovieCountPerGenre _) as [[[f|]|] out4];
        eexists; cbn [steps app]; reflexivity.
    + eexists. cbn [steps app]. reflexivity.
  - eexists. cbn [steps app]. reflexivity.
Qed.

Lemma main_goes_on_after_invalid_header_witness :
  let content := ("name,id,year,rank" ++ NL ++ "A,1,1999,5" ++ NL)%string in
  mkdirTemp swappedWorld = inr "/tmp/moviedb-1" /\
  validateHeaders "movies" ["name"; "id"; "year"; "rank"] = false /\
  exists rest,
    steps (main swappedWorld)
    = [MkdirTemp (inr "/tmp/moviedb-1"); SqlOpen None; ExecSchema None;
       Say (Report.Println
              [Report.AString "Database schema created successfully"]);
       PopulateMovies (mkOutcome (Returned None) (mkDB [] []) None []);
       PopulateMoviesGenres
         (populateMoviesGenres (engine swappedWorld) (mkDB [] [])
                               (moviesGenresCSV swappedWorld))]
      ++ rest.
Proof.
  intros content.
  assert (Hdir : mkdirTemp swappedWorld = inr "/tmp/moviedb-1")
    by reflexivity.
  assert (Hvalid : validateHeaders "movies" ["name"; "id"; "year"; "rank"]
                   = false) by reflexivity.
  assert (Hrec : Csv.records (Csv.setLazyQuotes (Csv.NewReader content) true)
                 = [Rec ["name"; "id"; "year"; "rank"];
                    Rec ["A"; "1"; "1999"; "5"]])
    by (vm_compute; reflexivity).
  exact (conj Hdir (conj Hvalid
           (main_goes_on_after_invalid_header swappedWorld
              "/tmp/moviedb-1" content ["name"; "id"; "year"; "rank"]
              [Rec ["A"; "1"; "1999"; "5"]]
              Hdir eq_refl eq_refl eq_refl Hrec Hvalid))).
Defined.




(* ================================================================== *)
(** ** Records long enough for the loader *)

Lemma loop_no_panic (L : Loader) (eng : Engine) (db : DB)
      (stream : list ReadResult) :
  pickable L stream ->
  forall st st', loop L eng db stream st <> Panic st'.
Proof.
  induction 1 as [|[record|k] stream Hx _ IH]; intros st st'; simpl.
  - discriminate.
  - destruct (l_pick L record) as [fields|]; [|contradiction].
    destruct (validRowCount (vars st) + 1 =? batchSize).
    + destruct (Exec eng db (tx st) _ _) as [tx' [e|]];
        [discriminate|apply IH].
    + apply IH.
  - apply IH.
Qed.

Lemma populate_no_panic (L : Loader) (eng : Engine) (db : DB)
      (header : list string) (stream : list ReadResult) :
  pickable L stream ->
  ret (populate L eng db (inr (Rec header :: stream))) <> Panicked.
Proof.
  intros Hp. unfold populate.
  destruct (validateHeaders (l_name L) header); cbn [negb];
    [|cbn; discriminate].
  unfold Begin. destruct (begin_err eng db) as [e|]; [cbn; discriminate|].
  cbn [deferred].
  destruct (loop L eng db stream _) as [st|e st|st] eqn:Hloop.
  - unfold finish.
    destruct (0 <? List.length (values (vars st))).
    + destruct (Exec eng db (tx st) _ _) as [tx' [e|]]; simpl;
        [discriminate|].
      destruct (Commit eng db tx') as [[db' tx''] [e|]]; simpl; discriminate.
    + destruct (Commit eng db (tx st)) as [[db' tx''] [e|]]; simpl;
        discriminate.
  - cbn. discriminate.
  - exfalso. eapply loop_no_panic; eauto.
Qed.

Lemma fieldsAtLeast_4 (stream : list ReadResult) :
  fieldsAtLeast 4 stream -> pickable moviesLoader stream.
Proof.
  unfold fieldsAtLeast, pickable. apply Forall_impl.
  intros [record|k] Hx; [|exact I].
  destruct record as [|a [|b [|c [|d record]]]]; simpl in Hx; try lia.
  discriminate.
Qed.

Lemma fieldsAtLeast_2 (stream : list ReadResult) :
  fieldsAtLeast 2 stream -> pickable moviesGenresLoader stream.
Proof.
  unfold fieldsAtLeast, pickable. apply Forall_impl.
  intros [record|k] Hx; [|exact I].
  destruct record as [|a [|b record]]; simpl in Hx; try lia.
  discriminate.
Qed.

(** X2. The loaders index their records without a check of their length;
    when every record read after the header has at least four fields
    ([populateMovies]), at least two ([populateMoviesGenres]), no index
    is out of range: the call returns, with nil or an error, whatever
    the header, the engine and the rows that fail to decode. *)
Theorem long_records_never_panic :
  forall (eng : Engine) (db : DB) (header : list string)
         (stream : list ReadResult),
    (fieldsAtLeast 4 stream ->
     exists err,
       ret (populate moviesLoader eng db (inr (Rec header :: stream)))
       = Returned err) /\
    (fieldsAtLeast 2 stream ->
     exists err,
       ret (populate moviesGenresLoader eng db (inr (Rec header :: stream)))
       = Returned err).
Proof.
  intros eng db header stream. split; intros H.
  - pose proof (populate_no_panic moviesLoader eng db header stream
                  (fieldsAtLeast_4 stream H)) as Hn.
    destruct (ret _) as [err|]; [now exists err|contradiction].
  - pose proof (populate_no_panic moviesGenresLoader eng db header stream
                  (fieldsAtLeast_2 stream H)) as Hn.
    destruct (ret _) as [err|]; [now exists err|contradiction].
Qed.

Lemma long_records_never_panic_witness :
  let stream := [Rec ["1"; "A"; "1999"; "5"; "extra"]; Bad ErrFieldCount;
                 Rec ["2"; "B"; "2000"; "6"]] in
  fieldsAtLeast 4 stream /\
  exists err,
    ret (populate moviesLoader acceptAll emptyDB
           (inr (Rec ["id"; "name"; "year"; "rank"] :: stream)))
    = Returned err.
Proof.
  intros stream.
  assert (H : fieldsAtLeast 4 stream).
  { unfold fieldsAtLeast, stream. repeat constructor. }
  exact (conj H
           (proj1 (long_records_never_panic acceptAll emptyDB
                     ["id"; "name"; "year"; "rank"] stream) H)).
Defined.

(* ================================================================== *)
(** ** The reports *)

Lemma printRated_panics (rows : list (GoError + Report.RatedRow)) :
  forall rowCount out,
    fst (Report.printRated rows rowCount out) = None <->
    exists genre movieCount, In (inr (genre, None, movieCount)) rows.
Proof.
  induction rows as [|[e|[[genre [avg|]] movieCount]] rows IH];
    intros rowCount out; simpl.
  - split; [discriminate|]. intros (? & ? & []).
  - rewrite IH. split.
    + intros (g & n & H). exists g, n. now right.
    + intros (g & n & [H|H]); [discriminate|]. now exists g, n.
  - rewrite IH. split.
    + intros (g & n & H). exists g, n. now right.
    + intros (g & n & [H|H]); [discriminate|]. now exists g, n.
  - split; [|reflexivity]. intros _. exists genre, movieCount. now left.
Qed.

Lemma report_panics_iff (answer : GoError + Report.Cursor Report.RatedRow) :
  fst (Report.queryDbHighestRatedGenres answer) = Panics <->
  exists cursor genre movieCount,
    answer = inr cursor /\
    In (inr (genre, None, movieCount)) (Report.c_rows cursor).
Proof.
  destruct answer as [e|cursor]; unfold Report.queryDbHighestRatedGenres.
  - split; [discriminate|]. intros (c & g & n & H & _). discriminate.
  - match goal with
    | |- context [Report.printRated _ 0 ?o] =>
        pose proof (printRated_panics (Report.c_rows cursor) 0 o) as H;
        destruct (Report.printRated (Report.c_rows cursor) 0 o)
          as [[rowCount|] out]
    end; cbn [fst] in H.
    + split.
      * unfold Report.finishReport.
        destruct (Report.c_err cursor); discriminate.
      * intros (c & g & n & [= <-] & Hin).
        assert (Hn : Some rowCount = None) by (apply H; eauto).
        discriminate.
    + split; [|reflexivity]. intros _.
      destruct (proj1 H eq_refl) as (g & n & Hin).
      now exists cursor, g, n.
Qed.

(** The loop, when no row has a NULL average: one print per row, and the
    rows that scan are counted. *)
Lemma printRated_prints (rows : list (GoError + Report.RatedRow)) :
  existsb nullAverage rows = false ->
  forall rowCount out,
    Report.printRated rows rowCount out
    = (Some (rowCount + List.length (filter scans rows)),
       out ++ flat_map ratedPrint rows).
Proof.
  induction rows as [|[e|[[genre [avg|]] movieCount]] rows IH];
    intros Hnull rowCount out; cbn [existsb nullAverage orb] in Hnull.
  - simpl. now rewrite Nat.add_0_r, app_nil_r.
  - cbn [Report.printRated filter scans flat_map ratedPrint].
    rewrite (IH Hnull). now rewrite <- app_assoc.
  - cbn [Report.printRated filter scans flat_map ratedPrint].
    rewrite (IH Hnull). cbn [List.length]. rewrite <- app_assoc.
    f_equal. f_equal. lia.
  - discriminate.
Qed.

(** X16.  What the first report does with the answer of [db.Query].  It
    panics exactly when the query succeeds and one of the rows that scan
    has a NULL average: [avgRating] is then a nil pointer, and the line
    that prints the row dereferences it.  An error of the query is
    returned, wrapped, after the first line.  Otherwise every row is
    printed in order, a row that fails to scan as its error, and the
    report passes on; then an error of the iteration is returned,
    wrapped, or the number of rows that scanned is printed and the
    result is nil. *)
Theorem highest_rated_report_panics_on_null_average :
  forall (answer : GoError + Report.Cursor Report.RatedRow),
    (fst (Report.queryDbHighestRatedGenres answer) = Panics <->
     exists cursor genre movieCount,
       answer = inr cursor /\
       In (inr (genre, None, movieCount)) (Report.c_rows cursor)) /\
    match answer with
    | inl e =>
        Report.queryDbHighestRatedGenres answer
        = (Ends (Some (Errorf "error querying database: %v" [e])),
           [Report.Println [Report.AString "Executing query..."]])
    | inr cursor =>
        existsb nullAverage (Report.c_rows cursor) = false ->
        Report.queryDbHighestRatedGenres answer
        = match Report.c_err cursor with
          | Some e =>
              (Ends (Some (Errorf "error iterating rows: %v" [e])),
               ratedTitles ++ flat_map ratedPrint (Report.c_rows cursor))
          | None =>
              (Ends None,
               ratedTitles ++ flat_map ratedPrint (Report.c_rows cursor)
               ++ [reportTotal
                     (List.length (filter scans (Report.c_rows cursor)))])
          end
    end.
Proof.
  intros answer. split; [apply report_panics_iff|].
  destruct answer as [e|cursor]; [reflexivity|].
  intros Hnull. unfold Report.queryDbHighestRatedGenres.
  rewrite (printRated_prints _ Hnull). cbn [Nat.add].
  unfold Report.finishReport, reportTotal.
  destruct (Report.c_err cursor); [reflexivity|].
  now rewrite <- app_assoc.
Qed.

(** Three rows answered: one fails to scan, two are printed, and the
    total is 2. *)
Example highest_rated_report_sample :
  Report.queryDbHighestRatedGenres
    (inr (Report.mkCursor
            [inr ("Drama", Some (7 # 1), 1);
             inl (ErrSQL "converting NULL to string is unsupported");
             inr ("Comedy", Some (5 # 1), 2)] None))
  = (Ends None,
     ratedTitles
     ++ ratedPrint (inr ("Drama", Some (7 # 1), 1))
     ++ ratedPrint (inl (ErrSQL "converting NULL to string is unsupported"))
     ++ ratedPrint (inr ("Comedy", Some (5 # 1), 2))
     ++ [reportTotal 2]).
Proof. reflexivity. Qed.

(* ================================================================== *)
(** ** The endings of a load, and the two versions side by side *)

(** X17.  A load that gets past the header and [db.Begin], over records
    it can index, hands the rows read to the engine in consecutive blocks
    of 100, in the order of the file, each row once, and ends in one of
    four ways: a full batch is rejected - the batches before it were
    accepted, nothing is executed after it, its error is returned and the
    table is as it was; the remainder is rejected, likewise; the commit
    is rejected, likewise; or everything is accepted, the table gains the
    rows read and the total printed is their number. *)
Theorem load_ends_in_one_of_four_ways :
  forall (L : Loader) (eng : Engine) (db : DB) (header : list string)
         (stream : list ReadResult),
    wellFormed L ->
    validateHeaders (l_name L) header = true ->
    begin_err eng db = None ->
    pickable L stream ->
    Loaded L db (picked L stream)
           (populate L eng db (inr (Rec header :: stream))).
Proof. intros L eng db header stream HL. now apply populate_loaded. Qed.

Lemma load_ends_in_one_of_four_ways_witness :
  let stream := [Rec ["1"; "A"; "1999"; "5"]; Bad ErrFieldCount;
                 Rec ["1"; "B"; "2000"; "6"]] in
  validateHeaders "movies" ["id"; "name"; "year"; "rank"] = true /\
  pickable moviesLoader stream /\
  Loaded moviesLoader emptyDB
         [["1"; "A"; "1999"; "5"]; ["1"; "B"; "2000"; "6"]]
         (populate moviesLoader primaryKey emptyDB
            (inr (Rec ["id"; "name"; "year"; "rank"] :: stream))).
Proof.
  intros stream.
  assert (Hv : validateHeaders "movies" ["id"; "name"; "year"; "rank"]
               = true) by reflexivity.
  assert (Hp : pickable moviesLoader stream).
  { unfold pickable, stream. repeat constructor; discriminate. }
  exact (conj Hv (conj Hp
           (load_ends_in_one_of_four_ways moviesLoader primaryKey emptyDB
              ["id"; "name"; "year"; "rank"] stream
              moviesLoader_wellFormed Hv eq_refl Hp))).
Defined.

(** X18.  Batching does not change what is loaded: on the same records,
    when the first version (one insert per row, no transaction) and the
    batched version (100 rows per insert, one transaction) both return
    nil, they leave the same [movies] table, and the same database. *)
Theorem versions_agree_on_success :
  forall (eng1 eng2 : Engine) (db : DB) (stream : list ReadResult),
    V1.ret (V1.populate eng1 db (inr stream)) = Ends None ->
    ret (populate moviesLoader eng2 db (inr stream)) = Returned None ->
    V1.db_after (V1.populate eng1 db (inr stream))
    = db_after (populate moviesLoader eng2 db (inr stream)).
Proof.
  intros eng1 eng2 db stream H1 H2.
  destruct (V1_populate_nil eng1 db stream H1)
    as (header & data & -> & Hv & Hp & -> & _).
  destruct (populate_success moviesLoader eng2 db header data
              moviesLoader_wellFormed Hv H2) as (_ & _ & -> & _).
  reflexivity.
Qed.

Lemma versions_agree_on_success_witness :
  let stream := sampleRecords in
  V1.db_after (V1.populate acceptAll emptyDB (inr stream))
  = db_after (populate moviesLoader primaryKey emptyDB (inr stream)).
Proof.
  intros stream.
  assert (H1 : V1.ret (V1.populate acceptAll emptyDB (inr stream))
               = Ends None) by (vm_compute; reflexivity).
  assert (H2 : ret (populate moviesLoader primaryKey emptyDB (inr stream))
               = Returned None) by (vm_compute; reflexivity).
  exact (versions_agree_on_success acceptAll primaryKey emptyDB stream H1 H2).
Defined.
